(** * Janggi (Korean chess) rules engine: a shallow embedding of JanggiGame.py

    The Python program keeps one [JanggiGame] object that owns two [Player]
    objects (each with a "cart", a list of its live pieces), one [Board]
    (a list of ten rows of nine cells, each [None] or a reference to a
    [Piece] object, plus a one-slot buffer [_temp]) and the [Piece] objects
    themselves, which are shared between the board cells and the carts and
    are mutated in place by [set_location].

    The embedding keeps that shape: piece objects live in a store indexed by
    references, cells and carts hold references, locations are the strings
    the program passes around, and every method that can raise a Python
    exception returns a result that says which one. *)

From Stdlib Require Import ZArith String Ascii List Bool Lia.
From stdpp Require Import base option list gmap.
Import ListNotations.

Local Open Scope string_scope.
Local Open Scope Z_scope.

(** ** Exceptions and results *)

(** The exceptions the program can raise.  [IndexError], [KeyError] and
    [AttributeError] are Python's.  [DanglingRef] stands for a reference
    without an object in the store, which Python cannot produce, and
    [OutOfFuel] for a loop cut short by the bound the model puts on [for]
    loops that iterate over a list the loop body mutates. *)
Inductive exn : Type :=
  | IndexError
  | KeyError
  | AttributeError
  | DanglingRef
  | OutOfFuel.

Inductive res (A : Type) : Type :=
  | Ok (a : A)
  | Raise (e : exn).
Arguments Ok {A} a.
Arguments Raise {A} e.

Definition res_bind {A B : Type} (m : res A) (k : A -> res B) : res B :=
  match m with
  | Ok a => k a
  | Raise e => Raise e
  end.

Declare Scope res_scope.
Delimit Scope res_scope with res.
Notation "'let?' x := m 'in' k" := (res_bind m (fun x => k))
  (at level 10, x pattern, m at level 100, k at level 200) : res_scope.
Local Open Scope res_scope.

(** ** Location codec *)

Module Codec.

(** A Python dictionary literal with constant keys, as the list of its
    items; [d[k]] raises [KeyError] when [k] is not a key. *)
Fixpoint dict_get {V : Type} (d : list (string * V)) (k : string) : res V :=
  match d with
  | [] => Raise KeyError
  | (k', v) :: d' => if String.eqb k k' then Ok v else dict_get d' k
  end.

Fixpoint dict_get_int {V : Type} (d : list (Z * V)) (k : Z) : res V :=
  match d with
  | [] => Raise KeyError
  | (k', v) :: d' => if Z.eqb k k' then Ok v else dict_get_int d' k
  end.

Definition column_key : list (string * Z) :=
  [("a", 0); ("b", 1); ("c", 2); ("d", 3); ("e", 4);
   ("f", 5); ("g", 6); ("h", 7); ("i", 8)].

Definition row_key : list (string * Z) :=
  [("1", 0); ("2", 1); ("3", 2); ("4", 3); ("5", 4);
   ("6", 5); ("7", 6); ("8", 7); ("9", 8); ("10", 9)].

(** [Board.decode_location] (and the identical [Piece.decode_location]).
    [location[0]] raises [IndexError] on the empty string, [location[1]] on
    a string of one character; [location[1:]] is the rest of the string.
    [len(location)] counts characters: a [string] is read here one element
    per character.  [Text.decode_location] below is the same method on
    strings of arbitrary characters, and [decode_location_agrees] relates
    the two. *)
Definition decode_location (location : string) : res (Z * Z) :=
  match location with
  | EmptyString => Raise IndexError
  | String c0 rest =>
      let? column := dict_get column_key (String c0 EmptyString) in
      if Nat.eqb (String.length location) 3 then
        let? row := dict_get row_key rest in
        Ok (row, column)
      else
        match rest with
        | EmptyString => Raise IndexError
        | String c1 _ =>
            let? row := dict_get row_key (String c1 EmptyString) in
            Ok (row, column)
        end
  end.

Definition column_name : list (Z * string) :=
  [(0, "a"); (1, "b"); (2, "c"); (3, "d"); (4, "e");
   (5, "f"); (6, "g"); (7, "h"); (8, "i")].

Definition row_name : list (Z * string) :=
  [(0, "1"); (1, "2"); (2, "3"); (3, "4"); (4, "5");
   (5, "6"); (6, "7"); (7, "8"); (8, "9"); (9, "10")].

(** [Board.encode_location] (and the identical [Piece.encode_location]). *)
Definition encode_location (row column : Z) : res string :=
  let? column := dict_get_int column_name column in
  let? row := dict_get_int row_name row in
  Ok (column ++ row).

(** The coordinate text format of the specification: one letter a-i
    followed by one of the numbers 1..10, and nothing else. *)
Definition letters : list string :=
  ["a"; "b"; "c"; "d"; "e"; "f"; "g"; "h"; "i"].
Definition numbers : list string :=
  ["1"; "2"; "3"; "4"; "5"; "6"; "7"; "8"; "9"; "10"].

Definition mem (s : string) (l : list string) : bool :=
  existsb (String.eqb s) l.

Definition well_formed (text : string) : bool :=
  match text with
  | EmptyString => false
  | String c0 rest => mem (String c0 EmptyString) letters && mem rest numbers
  end.

Definition valid_index (row column : Z) : Prop :=
  0 <= row <= 9 /\ 0 <= column <= 8.

End Codec.
Export Codec.

(** *** Strings of arbitrary characters

    A Python [str] is a sequence of characters (Unicode code points), and
    [len], indexing and slicing count characters.  A [string] above is
    read one element per character, which covers every Python string
    whose characters are below 256, among them all the strings the
    program itself writes.  The module [Text] embeds [decode_location]
    once more, on sequences of arbitrary code points, so that what is
    said of it holds for every Python string. *)

Module Text.

(** A Python [str], as the list of its code points. *)
Definition str : Type := list N.

(** The [str] a string literal of the program denotes. *)
Definition lit (s : string) : str := map N_of_ascii (list_ascii_of_string s).

(** [a == b] on [str]. *)
Fixpoint str_eqb (a b : str) : bool :=
  match a, b with
  | [], [] => true
  | x :: a', y :: b' => N.eqb x y && str_eqb a' b'
  | _, _ => false
  end.

Fixpoint dict_get {V : Type} (d : list (str * V)) (k : str) : res V :=
  match d with
  | [] => Raise KeyError
  | (k', v) :: d' => if str_eqb k k' then Ok v else dict_get d' k
  end.

Definition column_key : list (str * Z) :=
  [(lit "a", 0); (lit "b", 1); (lit "c", 2); (lit "d", 3); (lit "e", 4);
   (lit "f", 5); (lit "g", 6); (lit "h", 7); (lit "i", 8)].

Definition row_key : list (str * Z) :=
  [(lit "1", 0); (lit "2", 1); (lit "3", 2); (lit "4", 3); (lit "5", 4);
   (lit "6", 5); (lit "7", 6); (lit "8", 7); (lit "9", 8); (lit "10", 9)].

(** [Board.decode_location]: [location[0]] and [location[1]] are strings
    of one character, [location[1:]] is all but the first character, and
    [len(location)] is the number of characters. *)
Definition decode_location (location : str) : res (Z * Z) :=
  match location with
  | [] => Raise IndexError
  | c0 :: rest =>
      let? column := dict_get column_key [c0] in
      if Nat.eqb (length location) 3 then
        let? row := dict_get row_key rest in
        Ok (row, column)
      else
        match rest with
        | [] => Raise IndexError
        | c1 :: _ =>
            let? row := dict_get row_key [c1] in
            Ok (row, column)
        end
  end.

(** The coordinate text format of the specification: one letter a-i
    followed by one of the numbers 1..10, and nothing else. *)
Definition mem (s : str) (l : list str) : bool := existsb (str_eqb s) l.

Definition well_formed (text : str) : bool :=
  match text with
  | [] => false
  | c0 :: rest => mem [c0] (map lit letters) && mem rest (map lit numbers)
  end.

(** The strings [decode_location] accepts: the well-formed coordinates,
    and every string of four or more characters whose first two
    characters form a well-formed coordinate. *)
Definition decode_accepts (text : str) : bool :=
  well_formed text
  || ((4 <=? length text)%nat && well_formed (take 2 text)).

End Text.

(** ** Data model *)

Inductive Color : Type := blue | red.

Definition Color_eqb (a b : Color) : bool :=
  match a, b with
  | blue, blue | red, red => true
  | _, _ => false
  end.

Definition opponent_of (c : Color) : Color :=
  match c with blue => red | red => blue end.

(** The seven subclasses of [Piece].  [initialize_board], the only place
    that constructs pieces, gives each class its own two-letter name, so
    the name is a function of the class. *)
Inductive Kind : Type :=
  General | Guard | Elephant | Horse | Chariot | Cannon | Soldier.

Definition kind_name (k : Kind) : string :=
  match k with
  | General => "GN" | Guard => "GD" | Elephant => "EL" | Horse => "HO"
  | Chariot => "CH" | Cannon => "CA" | Soldier => "SD"
  end.

(** A [Piece] object.  [owner] is the reference to the [Player] object,
    of which there are two, told apart by their colour. *)
Record Piece : Type := mkPiece {
  kind : Kind;
  location : string;
  owner : Color
}.

Definition get_name (p : Piece) : string := kind_name (kind p).

Definition set_location (p : Piece) (loc : string) : Piece :=
  {| kind := kind p; location := loc; owner := owner p |}.

(** References to piece objects. *)
Abbreviation ref := nat (only parsing).

(** Everything the [Board] methods read and write: the piece objects, the
    grid [Board._board], the buffer [Board._temp] and the two carts
    [Player._cart]. *)
Record Heap : Type := mkHeap {
  objects : gmap nat Piece;
  board : list (list (option nat));
  temp : option nat;
  blue_cart : list nat;
  red_cart : list nat
}.

Inductive GameState : Type := UNFINISHED | RED_WON | BLUE_WON.

(** A [JanggiGame] object. *)
Record JanggiGame : Type := mkGame {
  heap : Heap;
  game_state : GameState;
  current_player : Color
}.

(** ** Reading the heap *)

Definition deref (h : Heap) (r : ref) : res Piece :=
  match objects h !! r with
  | Some p => Ok p
  | None => Raise DanglingRef
  end.

(** [game_board[row][col]]; the indices come from [decode_location] and
    are never negative. *)
Definition get_cell (h : Heap) (row col : Z) : res (option nat) :=
  match board h !! Z.to_nat row with
  | None => Raise IndexError
  | Some cells =>
      match cells !! Z.to_nat col with
      | None => Raise IndexError
      | Some c => Ok c
      end
  end.

(** [Board.get_occupant] *)
Definition get_occupant (h : Heap) (loc : string) : res (option nat) :=
  let? (row, column) := decode_location loc in
  get_cell h row column.

Definition get_cart (h : Heap) (c : Color) : list nat :=
  match c with blue => blue_cart h | red => red_cart h end.

(** ** Piece movement rules *)

Module Rules.

Definition palace : list string :=
  ["d8"; "d9"; "d10"; "e8"; "e9"; "e10"; "f8"; "f9"; "f10";
   "d1"; "d2"; "d3"; "e1"; "e2"; "e3"; "f1"; "f2"; "f3"].
Definition palace_corners : list string :=
  ["d1"; "f1"; "d3"; "f3"; "d8"; "f8"; "d10"; "f10"].
Definition palace_centers : list string := ["e2"; "e9"].
Definition blue_palace_corners : list string := ["d8"; "f8"; "d10"; "f10"].
Definition red_palace_corners : list string := ["d1"; "f1"; "d3"; "f3"].
Definition red_palace_center : string := "e2".
Definition blue_palace_center : string := "e9".

(** [destination_piece is not None and
     self.get_owner() is destination_piece.get_owner()] *)
Definition friendly (h : Heap) (self : Piece) (cell : option nat) : res bool :=
  match cell with
  | None => Ok false
  | Some r => let? q := deref h r in Ok (Color_eqb (owner self) (owner q))
  end.

(** [for square in path: if get_occupant(square) is not None: return False]
    followed by [return True]. *)
Section PathClear.
Variable h : Heap.
Fixpoint path_clear (path : list string) : res bool :=
  match path with
  | [] => Ok true
  | square :: rest =>
      let? c := get_occupant h square in
      match c with
      | Some _ => Ok false
      | None => path_clear rest
      end
  end.
End PathClear.

(** The diagonal-step test shared, word for word, by [General.is_legal]
    and [Guard.is_legal]. *)
Definition palace_step (source destination : string) : bool :=
  if mem source palace_corners then mem destination palace_centers
  else if mem source palace_centers then mem destination palace_corners
  else false.

Definition General_is_legal (h : Heap) (self : Piece)
    (source destination : string) : res bool :=
  let? (from_row, from_col) := decode_location source in
  let? (to_row, to_col) := decode_location destination in
  let? destination_square := get_cell h to_row to_col in
  let? destination_location := encode_location to_row to_col in
  let? blocked := friendly h self destination_square in
  if blocked then Ok false
  else if negb (mem destination_location palace) then Ok false
  else if (Z.abs (to_row - from_row) >? 1) || (Z.abs (to_col - from_col) >? 1)
  then Ok false
  else if (Z.abs (to_row - from_row) =? 1) && (Z.abs (to_col - from_col) =? 1)
  then Ok (palace_step source destination)
  else Ok true.

Definition Guard_is_legal (h : Heap) (self : Piece)
    (source destination : string) : res bool :=
  let? (from_row, from_col) := decode_location source in
  let? (to_row, to_col) := decode_location destination in
  let? destination_piece := get_cell h to_row to_col in
  let? blocked := friendly h self destination_piece in
  if blocked then Ok false
  else if negb (mem destination palace) then Ok false
  else if (Z.abs (to_row - from_row) >? 1) || (Z.abs (to_col - from_col) >? 1)
  then Ok false
  else if (Z.abs (to_row - from_row) =? 1) && (Z.abs (to_col - from_col) =? 1)
  then Ok (palace_step source destination)
  else Ok true.

(** [Elephant.move_path] *)
Definition Elephant_move_path (source destination : string) : res (list string) :=
  let? (from_row, from_col) := decode_location source in
  let? (to_row, to_col) := decode_location destination in
  let? upward :=
    if to_row - from_row =? -3 then
      let? s1 := encode_location (from_row - 1) from_col in
      let? s2 := if to_col - from_col =? 2
                 then encode_location (from_row - 2) (from_col + 1)
                 else encode_location (from_row - 2) (from_col - 1) in
      Ok [s1; s2]
    else Ok [] in
  let? downward :=
    if to_row - from_row =? 3 then
      let? s1 := encode_location (from_row + 1) from_col in
      let? s2 := if to_col - from_col =? 2
                 then encode_location (from_row + 2) (from_col + 1)
                 else encode_location (from_row + 2) (from_col - 1) in
      Ok [s1; s2]
    else Ok [] in
  let? rightward :=
    if to_col - from_col =? 3 then
      let? s1 := encode_location from_row (from_col + 1) in
      let? s2 := if to_row - from_row =? 2
                 then encode_location (from_row + 1) (from_col + 2)
                 else encode_location (from_row - 1) (from_col + 2) in
      Ok [s1; s2]
    else Ok [] in
  let? leftward :=
    if to_col - from_col =? -3 then
      let? s1 := encode_location from_row (from_col - 1) in
      let? s2 := if to_row - from_row =? 2
                 then encode_location (from_row + 1) (from_col - 2)
                 else encode_location (from_row - 1) (from_col - 2) in
      Ok [s1; s2]
    else Ok [] in
  Ok (upward ++ downward ++ rightward ++ leftward)%list.

Definition Elephant_is_legal (h : Heap) (self : Piece)
    (source destination : string) : res bool :=
  let? (from_row, from_col) := decode_location source in
  let? (to_row, to_col) := decode_location destination in
  let? destination_piece := get_cell h to_row to_col in
  let? blocked := friendly h self destination_piece in
  if blocked then Ok false
  else if (Z.abs (to_row - from_row) =? 3) && (Z.abs (to_col - from_col) =? 2)
  then let? path := Elephant_move_path source destination in path_clear h path
  else if (Z.abs (to_row - from_row) =? 2) && (Z.abs (to_col - from_col) =? 3)
  then let? path := Elephant_move_path source destination in path_clear h path
  else Ok false.

(** [Horse.move_path] *)
Definition Horse_move_path (source destination : string) : res (list string) :=
  let? (from_row, from_col) := decode_location source in
  let? (to_row, to_col) := decode_location destination in
  let? upward :=
    if to_row - from_row =? -2
    then let? s := encode_location (from_row - 1) from_col in Ok [s]
    else Ok [] in
  let? downward :=
    if to_row - from_row =? 2
    then let? s := encode_location (from_row + 1) from_col in Ok [s]
    else Ok [] in
  let? rightward :=
    if to_col - from_col =? 2
    then let? s := encode_location from_row (from_col + 1) in Ok [s]
    else Ok [] in
  let? leftward :=
    if to_col - from_col =? -2
    then let? s := encode_location from_row (from_col - 1) in Ok [s]
    else Ok [] in
  Ok (upward ++ downward ++ rightward ++ leftward)%list.

Definition Horse_is_legal (h : Heap) (self : Piece)
    (source destination : string) : res bool :=
  let? (from_row, from_col) := decode_location source in
  let? (to_row, to_col) := decode_location destination in
  let? destination_piece := get_cell h to_row to_col in
  let? blocked := friendly h self destination_piece in
  if blocked then Ok false
  else if (Z.abs (to_row - from_row) =? 2) && (Z.abs (to_col - from_col) =? 1)
  then let? path := Horse_move_path source destination in path_clear h path
  else if (Z.abs (to_row - from_row) =? 1) && (Z.abs (to_col - from_col) =? 2)
  then let? path := Horse_move_path source destination in path_clear h path
  else Ok false.

(** Python's [range(a, b)] and [range(a, b, -1)]. *)
Definition range (a b : Z) : list Z :=
  map (fun i => a + Z.of_nat i) (seq 0 (Z.to_nat (b - a))).
Definition range_down (a b : Z) : list Z :=
  map (fun i => a - Z.of_nat i) (seq 0 (Z.to_nat (a - b))).

(** [for x in xs: square = encode_location(..); move_path.append(square)] *)
Fixpoint encode_each (f : Z -> res string) (xs : list Z) : res (list string) :=
  match xs with
  | [] => Ok []
  | x :: rest =>
      let? square := f x in
      let? squares := encode_each f rest in
      Ok (square :: squares)
  end.

(** [Chariot.move_path] and [Cannon.move_path]: the two method bodies are
    the same text. *)
Definition sliding_move_path (source destination : string) : res (list string) :=
  let? (from_row, from_col) := decode_location source in
  let? (to_row, to_col) := decode_location destination in
  if mem source palace_corners && mem destination palace_corners
     && (Z.abs (to_row - from_row) =? Z.abs (to_col - from_col))
  then Ok [if mem source blue_palace_corners then "e9" else "e2"]
  else if (mem source palace_corners && mem destination palace_centers)
          || (mem destination palace_corners && mem source palace_centers)
  then Ok []
  else
    let? horizontal :=
      if from_row =? to_row then
        if to_col >? from_col
        then encode_each (fun column => encode_location from_row column)
                         (range (from_col + 1) to_col)
        else encode_each (fun column => encode_location from_row column)
                         (range_down (from_col - 1) to_col)
      else Ok [] in
    let? vertical :=
      if from_col =? to_col then
        if to_row >? from_row
        then encode_each (fun row => encode_location row from_col)
                         (range (from_row + 1) to_row)
        else encode_each (fun row => encode_location row from_col)
                         (range_down (from_row - 1) to_row)
      else Ok [] in
    Ok (horizontal ++ vertical)%list.

Definition Chariot_move_path := sliding_move_path.
Definition Cannon_move_path := sliding_move_path.

(** The palace test that ends [Chariot.is_legal] and [Cannon.is_legal] for
    a move that changes both row and column. *)
Definition palace_diagonal (source destination : string) : bool :=
  if mem source palace_corners then
    if mem source blue_palace_corners && mem destination blue_palace_corners
    then true
    else if mem source blue_palace_corners
            && String.eqb destination blue_palace_center
    then true
    else if mem source red_palace_corners && mem destination red_palace_corners
    then true
    else if mem source red_palace_corners
            && String.eqb destination red_palace_center
    then true
    else false
  else if String.eqb source blue_palace_center
  then mem destination blue_palace_corners
  else if String.eqb source red_palace_center
  then mem destination red_palace_corners
  else false.

Definition Chariot_is_legal (h : Heap) (self : Piece)
    (source destination : string) : res bool :=
  let? (from_row, from_col) := decode_location source in
  let? (to_row, to_col) := decode_location destination in
  let? destination_piece := get_cell h to_row to_col in
  let? blocked := friendly h self destination_piece in
  if blocked then Ok false
  else
    let? path := Chariot_move_path source destination in
    let? clear := path_clear h path in
    if negb clear then Ok false
    else if negb (from_row =? to_row) && negb (from_col =? to_col)
    then Ok (palace_diagonal source destination)
    else Ok true.

(** The loop of [Cannon.is_legal] that counts the pieces on the path and
    notes whether one of them is a Cannon. *)
Section CountJumps.
Variable h : Heap.
Fixpoint count_jumps (path : list string)
    (jumps : Z) (cannon_in_path : bool) : res (Z * bool) :=
  match path with
  | [] => Ok (jumps, cannon_in_path)
  | square :: rest =>
      let? c := get_occupant h square in
      match c with
      | None => count_jumps rest jumps cannon_in_path
      | Some r =>
          let? q := deref h r in
          if String.eqb (get_name q) "CA"
          then count_jumps rest (jumps + 1) true
          else count_jumps rest (jumps + 1) cannon_in_path
      end
  end.
End CountJumps.

Definition Cannon_is_legal (h : Heap) (self : Piece)
    (source destination : string) : res bool :=
  let? (from_row, from_col) := decode_location source in
  let? (to_row, to_col) := decode_location destination in
  let? destination_piece := get_cell h to_row to_col in
  let? refused :=
    match destination_piece with
    | None => Ok false
    | Some r =>
        let? q := deref h r in
        if Color_eqb (owner self) (owner q) then Ok true
        else Ok (String.eqb (get_name q) "CA")
    end in
  if refused then Ok false
  else
    let? path := Cannon_move_path source destination in
    let? (jumps, cannon_in_path) := count_jumps h path 0 false in
    if (jumps =? 0) || (jumps >? 1) then Ok false
    else if cannon_in_path then Ok false
    else if negb (from_row =? to_row) && negb (from_col =? to_col)
    then Ok (palace_diagonal source destination)
    else Ok true.

(** The palace test of [Soldier.is_legal] for a move that changes both row
    and column. *)
Definition soldier_diagonal (source destination : string) : bool :=
  if String.eqb source "d3" || String.eqb source "f3"
  then String.eqb destination "e2"
  else if String.eqb source "e2"
  then String.eqb destination "d1" || String.eqb destination "f1"
  else if String.eqb source "d8" || String.eqb source "f8"
  then String.eqb destination "e9"
  else if String.eqb source "e9"
  then String.eqb destination "d10" || String.eqb destination "f10"
  else false.

Definition Soldier_is_legal (h : Heap) (self : Piece)
    (source destination : string) : res bool :=
  let? (from_row, from_col) := decode_location source in
  let? (to_row, to_col) := decode_location destination in
  let? destination_piece := get_cell h to_row to_col in
  let? blocked := friendly h self destination_piece in
  if blocked then Ok false
  else if (from_row =? to_row) && negb (Z.abs (to_col - from_col) =? 1)
  then Ok false
  else if (from_col =? to_col)
          && (match owner self with
              | blue => negb (to_row - from_row =? -1)
              | red => negb (to_row - from_row =? 1)
              end)
  then Ok false
  else if negb (from_row =? to_row) && negb (from_col =? to_col)
  then Ok (soldier_diagonal source destination)
  else Ok true.

(** [piece.is_legal(source, destination)]: dynamic dispatch on the class
    of [piece]. *)
Definition Piece_is_legal (h : Heap) (self : Piece)
    (source destination : string) : res bool :=
  match kind self with
  | General => General_is_legal h self source destination
  | Guard => Guard_is_legal h self source destination
  | Elephant => Elephant_is_legal h self source destination
  | Horse => Horse_is_legal h self source destination
  | Chariot => Chariot_is_legal h self source destination
  | Cannon => Cannon_is_legal h self source destination
  | Soldier => Soldier_is_legal h self source destination
  end.

(** [piece.move_path(source, destination)]; General, Guard and Soldier
    return the empty list [self._move_path]. *)
Definition Piece_move_path (self : Piece)
    (source destination : string) : res (list string) :=
  match kind self with
  | General | Guard | Soldier => Ok []
  | Elephant => Elephant_move_path source destination
  | Horse => Horse_move_path source destination
  | Chariot => Chariot_move_path source destination
  | Cannon => Cannon_move_path source destination
  end.

End Rules.
Export Rules.

(** ** Mutable state *)

(** A method that reads and writes a state of type [S] and may raise: it
    returns its result, or the exception, together with the state it
    leaves behind.  A Python exception does not undo the writes made
    before it, so the state is returned in both cases. *)
Definition ST (S A : Type) : Type := S -> res A * S.

Definition ret {S A : Type} (a : A) : ST S A := fun s => (Ok a, s).
Definition raise {S A : Type} (e : exn) : ST S A := fun s => (Raise e, s).
Definition bind {S A B : Type} (m : ST S A) (k : A -> ST S B) : ST S B :=
  fun s =>
    match m s with
    | (Ok a, s') => k a s'
    | (Raise e, s') => (Raise e, s')
    end.
(** A computation that only reads the state. *)
Definition read {S A : Type} (f : S -> res A) : ST S A := fun s => (f s, s).
Definition modify {S : Type} (f : S -> S) : ST S unit := fun s => (Ok tt, f s).

Declare Scope st_scope.
Delimit Scope st_scope with st.
Notation "'let!' x := m 'in' k" := (bind m (fun x => k))
  (at level 10, x pattern, m at level 100, k at level 200) : st_scope.
Notation "m ;; k" := (bind m (fun _ => k))
  (at level 100, k at level 200, right associativity) : st_scope.
Local Open Scope st_scope.

(** *** Writes to the heap *)

Definition set_temp (piece : option nat) (h : Heap) : Heap :=
  {| objects := objects h; board := board h; temp := piece;
     blue_cart := blue_cart h; red_cart := red_cart h |}.

Definition set_board (b : list (list (option nat))) (h : Heap) : Heap :=
  {| objects := objects h; board := b; temp := temp h;
     blue_cart := blue_cart h; red_cart := red_cart h |}.

Definition set_objects (o : gmap nat Piece) (h : Heap) : Heap :=
  {| objects := o; board := board h; temp := temp h;
     blue_cart := blue_cart h; red_cart := red_cart h |}.

Definition set_cart (c : Color) (cart : list nat) (h : Heap) : Heap :=
  match c with
  | blue => {| objects := objects h; board := board h; temp := temp h;
               blue_cart := cart; red_cart := red_cart h |}
  | red => {| objects := objects h; board := board h; temp := temp h;
              blue_cart := blue_cart h; red_cart := cart |}
  end.

(** [board[row][col] = v] *)
Definition write_cell (row col : Z) (v : option nat) : ST Heap unit :=
  fun h =>
    match board h !! Z.to_nat row with
    | None => (Raise IndexError, h)
    | Some cells =>
        if (Z.to_nat col <? length cells)%nat
        then (Ok tt,
              set_board (<[Z.to_nat row := <[Z.to_nat col := v]> cells]> (board h)) h)
        else (Raise IndexError, h)
    end.

(** [piece.set_location(loc)] on the object behind a reference. *)
Definition Piece_set_location (r : ref) (loc : string) : ST Heap unit :=
  fun h =>
    match objects h !! r with
    | None => (Raise DanglingRef, h)
    | Some p => (Ok tt, set_objects (<[r := set_location p loc]> (objects h)) h)
    end.

(** [x.set_location(loc)] where [x] may be [None]. *)
Definition set_location_of (x : option nat) (loc : string) : ST Heap unit :=
  match x with
  | None => raise AttributeError
  | Some r => Piece_set_location r loc
  end.

(** [Player.add_piece] *)
Definition add_piece (player : Color) (piece : ref) : ST Heap unit :=
  modify (fun h => set_cart player (get_cart h player ++ [piece]) h).

(** [list.remove(x)]: drops the first occurrence. *)
Fixpoint remove_first (x : nat) (l : list nat) : list nat :=
  match l with
  | [] => []
  | y :: l' => if Nat.eqb x y then l' else y :: remove_first x l'
  end.

(** [Player.remove_piece]: [if piece in cart: cart.remove(piece)] *)
Definition remove_piece (player : Color) (piece : ref) : ST Heap unit :=
  modify (fun h =>
    if existsb (Nat.eqb piece) (get_cart h player)
    then set_cart player (remove_first piece (get_cart h player)) h
    else h).

(** *** Board methods *)

(** [Player.get_general]: the last piece of the cart whose name is "GN",
    [None] when there is none. *)
Section GetGeneral.
Variable h : Heap.
Fixpoint get_general_from (cart : list nat) (general : option nat)
    : res (option nat) :=
  match cart with
  | [] => Ok general
  | piece :: rest =>
      let? p := deref h piece in
      if String.eqb (get_name p) "GN"
      then get_general_from rest (Some piece)
      else get_general_from rest general
  end.
End GetGeneral.

Definition get_general (h : Heap) (player : Color) : res (option nat) :=
  get_general_from h (get_cart h player) None.

(** [x.get_location()] where [x] may be [None]. *)
Definition location_of (h : Heap) (x : option nat) : res string :=
  match x with
  | None => Raise AttributeError
  | Some r => let? p := deref h r in Ok (location p)
  end.

(** [for x in xs: if test(x): return True] followed by [return False] *)
Fixpoint any_of {A : Type} (test : A -> res bool) (xs : list A) : res bool :=
  match xs with
  | [] => Ok false
  | x :: rest =>
      let? b := test x in
      if b then Ok true else any_of test rest
  end.

(** [Board.is_in_check] *)
Definition is_in_check (h : Heap) (player : Color) : res bool :=
  let opponent := match player with blue => red | red => blue end in
  let? general := get_general h player in
  let? general_location := location_of h general in
  any_of (fun piece =>
            let? p := deref h piece in
            Piece_is_legal h p (location p) general_location)
         (get_cart h opponent).

(** [Board.prep_temp_move] *)
Definition prep_temp_move (destination : string) : ST Heap unit :=
  let! (row, column) := read (fun _ => decode_location destination) in
  let! piece := read (fun h => get_cell h row column) in
  modify (set_temp piece).

(** [Board.move_piece] *)
Definition move_piece (source destination : string) : ST Heap unit :=
  let! (source_row, source_column) := read (fun _ => decode_location source) in
  let! (dest_row, dest_column) := read (fun _ => decode_location destination) in
  let! source_piece := read (fun h => get_cell h source_row source_column) in
  let! dest_piece := read (fun h => get_cell h dest_row dest_column) in
  (match dest_piece with
   | None => ret tt
   | Some d =>
       let! q := read (fun h => deref h d) in
       match owner q with
       | blue => remove_piece blue d
       | red => remove_piece red d
       end
   end) ;;
  write_cell dest_row dest_column source_piece ;;
  set_location_of source_piece destination ;;
  write_cell source_row source_column None.

(** [Board.undo_temp_move] *)
Definition undo_temp_move (source destination : string) : ST Heap unit :=
  let! temp_piece := read (fun h => Ok (temp h)) in
  let! (source_row, source_column) := read (fun _ => decode_location source) in
  let! (dest_row, dest_column) := read (fun _ => decode_location destination) in
  let! moved := read (fun h => get_cell h dest_row dest_column) in
  write_cell source_row source_column moved ;;
  let! back := read (fun h => get_cell h source_row source_column) in
  set_location_of back source ;;
  write_cell dest_row dest_column temp_piece ;;
  (match temp_piece with
   | None => ret tt
   | Some t =>
       let! q := read (fun h => deref h t) in
       add_piece (owner q) t
   end) ;;
  modify (set_temp None).

(** [x.get_owner()] where [x] may be [None]. *)
Definition owner_of (h : Heap) (x : option nat) : res Piece :=
  match x with
  | None => Raise AttributeError
  | Some r => deref h r
  end.

(** [Board.is_legal] *)
Definition Board_is_legal (source destination : string) : ST Heap bool :=
  let! (source_row, source_column) := read (fun _ => decode_location source) in
  let! source_piece := read (fun h => get_cell h source_row source_column) in
  let! self := read (fun h => owner_of h source_piece) in
  let source_player := owner self in
  let! movable := read (fun h => Piece_is_legal h self source destination) in
  if movable then
    prep_temp_move destination ;;
    move_piece source destination ;;
    let! checked := read (fun h => is_in_check h source_player) in
    if checked then
      undo_temp_move source destination ;; ret false
    else
      undo_temp_move source destination ;; ret true
  else ret false.

(** *** Loops *)

(** The outcome of one pass through a loop body: go on with the next
    element, or leave the enclosing method with [return v]. *)
Inductive flow (R : Type) : Type :=
  | Continue
  | Return (v : R).
Arguments Continue {R}.
Arguments Return {R} v.

(** [for x in xs: body] over a list that nothing mutates meanwhile. *)
Fixpoint for_each {S A R : Type} (xs : list A) (body : A -> ST S (flow R))
    : ST S (flow R) :=
  match xs with
  | [] => ret Continue
  | x :: rest =>
      let! f := body x in
      match f with
      | Return v => ret (Return v)
      | Continue => for_each rest body
      end
  end.

(** [for piece in player.get_cart(): body] where the body may append to
    and remove from the carts.  Python's list iterator keeps an index and
    reads the live list at each step, stopping when the index reaches the
    current length.  [fuel] bounds the number of passes. *)
Fixpoint for_cart {R : Type} (fuel : nat) (player : Color) (i : nat)
    (body : ref -> ST Heap (flow R)) : ST Heap (flow R) :=
  fun h =>
    match get_cart h player !! i with
    | None => (Ok Continue, h)
    | Some piece =>
        match fuel with
        | O => (Raise OutOfFuel, h)
        | S fuel' =>
            (let! f := body piece in
             match f with
             | Return v => ret (Return v)
             | Continue => for_cart fuel' player (S i) body
             end) h
        end
    end.

(** The first loop of [Board.is_in_checkmate]:
    [for piece in opponent.get_cart():
         if self.is_legal(piece.get_location(), gen_loc):
             attacker_list.append(piece)] *)
Fixpoint populate_attacker_list (fuel : nat) (opponent : Color)
    (gen_loc : string) (i : nat) (attacker_list : list nat)
    : ST Heap (list nat) :=
  fun h =>
    match get_cart h opponent !! i with
    | None => (Ok attacker_list, h)
    | Some piece =>
        match fuel with
        | O => (Raise OutOfFuel, h)
        | S fuel' =>
            (let! p := read (fun h => deref h piece) in
             let! threat := Board_is_legal (location p) gen_loc in
             populate_attacker_list fuel' opponent gen_loc (S i)
               (if threat then attacker_list ++ [piece] else attacker_list)) h
        end
    end.

(** [for piece in player.get_cart():
         if self.is_legal(piece.get_location(), target): return False] *)
Definition some_defender_reaches (fuel : nat) (player : Color)
    (target : ST Heap string) : ST Heap (flow bool) :=
  for_cart fuel player 0 (fun piece =>
    let! p := read (fun h => deref h piece) in
    let! square := target in
    let! ok := Board_is_legal (location p) square in
    if ok then ret (Return false) else ret Continue).

(** [Board.is_in_checkmate] *)
Definition is_in_checkmate (fuel : nat) (player : Color) : ST Heap bool :=
  let! in_check := read (fun h => is_in_check h player) in
  if negb in_check then ret false
  else
    let opponent := match player with blue => red | red => blue end in
    let palace :=
      match player with
      | blue => ["d8"; "d9"; "d10"; "e8"; "e9"; "e10"; "f8"; "f9"; "f10"]
      | red => ["d1"; "d2"; "d3"; "e1"; "e2"; "e3"; "f1"; "f2"; "f3"]
      end in
    let! general := read (fun h => get_general h player) in
    let! gen_loc := read (fun h => location_of h general) in
    let! attacker_list := populate_attacker_list fuel opponent gen_loc 0 [] in
    let! resolved :=
      for_each attacker_list (fun attacker =>
        let! captured :=
          some_defender_reaches fuel player
            (read (fun h => let? a := deref h attacker in Ok (location a))) in
        match captured with
        | Return v => ret (Return v)
        | Continue =>
            let! a := read (fun h => deref h attacker) in
            let! path := read (fun _ => Piece_move_path a (location a) gen_loc) in
            for_each path (fun square =>
              some_defender_reaches fuel player (ret square))
        end) in
    match resolved with
    | Return v => ret v
    | Continue =>
        let! escaped :=
          for_each palace (fun square =>
            let! g := read (fun h => owner_of h general) in
            let! movable := read (fun h => Piece_is_legal h g gen_loc square) in
            if movable then
              prep_temp_move square ;;
              move_piece gen_loc square ;;
              let! checked := read (fun h => is_in_check h player) in
              if negb checked then
                undo_temp_move gen_loc square ;; ret (Return false)
              else
                undo_temp_move gen_loc square ;; ret Continue
            else ret Continue) in
        match escaped with
        | Return v => ret v
        | Continue => ret true
        end
    end.

(** ** The game *)

Definition set_heap (h : Heap) (g : JanggiGame) : JanggiGame :=
  {| heap := h; game_state := game_state g; current_player := current_player g |}.

Definition set_game_state (st : GameState) (g : JanggiGame) : JanggiGame :=
  {| heap := heap g; game_state := st; current_player := current_player g |}.

Definition set_current_player (player : Color) (g : JanggiGame) : JanggiGame :=
  {| heap := heap g; game_state := game_state g; current_player := player |}.

(** [JanggiGame.toggle_players] *)
Definition toggle_players (g : JanggiGame) : JanggiGame :=
  match current_player g with
  | blue => set_current_player red g
  | red => set_current_player blue g
  end.

(** A [Board] method called from a [JanggiGame] method: it works on the
    heap and leaves the game's own two fields alone. *)
Definition on_board {A : Type} (m : ST Heap A) : ST JanggiGame A :=
  fun g => let (r, h) := m (heap g) in (r, set_heap h g).

Definition GameState_eqb (a b : GameState) : bool :=
  match a, b with
  | UNFINISHED, UNFINISHED | RED_WON, RED_WON | BLUE_WON, BLUE_WON => true
  | _, _ => false
  end.

(** [JanggiGame.make_move] *)
Definition make_move (fuel : nat) (source destination : string)
    : ST JanggiGame bool :=
  let! state := read (fun g => Ok (game_state g)) in
  if negb (GameState_eqb state UNFINISHED) then ret false
  else if String.eqb source destination then
    let! player := read (fun g => Ok (current_player g)) in
    let! checked := on_board (read (fun h => is_in_check h player)) in
    if checked then ret false
    else modify toggle_players ;; ret true
  else
    let! occupant := on_board (read (fun h => get_occupant h source)) in
    match occupant with
    | None => ret false
    | Some r =>
        let! occupant' := on_board (read (fun h => get_occupant h source)) in
        let! p := on_board (read (fun h => owner_of h occupant')) in
        let! player := read (fun g => Ok (current_player g)) in
        if negb (Color_eqb (owner p) player) then ret false
        else
          let! legal := on_board (Board_is_legal source destination) in
          if legal then
            on_board (move_piece source destination) ;;
            modify toggle_players ;;
            let! player' := read (fun g => Ok (current_player g)) in
            let! mate := on_board (is_in_checkmate fuel player') in
            (if mate then
               let! player'' := read (fun g => Ok (current_player g)) in
               match player'' with
               | blue => modify (set_game_state RED_WON)
               | red => modify (set_game_state BLUE_WON)
               end
             else ret tt) ;;
            ret true
          else ret false
    end.

(** *** The opening position *)

Definition P (k : Kind) (loc : string) (o : Color) : option Piece :=
  Some {| kind := k; location := loc; owner := o |}.

(** The list literal of [Board.initialize_board]. *)
Definition opening_layout : list (list (option Piece)) :=
  [ [ P Chariot "a1" red; P Elephant "b1" red; P Horse "c1" red;
      P Guard "d1" red; None; P Guard "f1" red; P Elephant "g1" red;
      P Horse "h1" red; P Chariot "i1" red ];
    [ None; None; None; None; P General "e2" red; None; None; None; None ];
    [ None; P Cannon "b3" red; None; None; None; None; None;
      P Cannon "h3" red; None ];
    [ P Soldier "a4" red; None; P Soldier "c4" red; None;
      P Soldier "e4" red; None; P Soldier "g4" red; None;
      P Soldier "i4" red ];
    [ None; None; None; None; None; None; None; None; None ];
    [ None; None; None; None; None; None; None; None; None ];
    [ P Soldier "a7" blue; None; P Soldier "c7" blue; None;
      P Soldier "e7" blue; None; P Soldier "g7" blue; None;
      P Soldier "i7" blue ];
    [ None; P Cannon "b8" blue; None; None; None; None; None;
      P Cannon "h8" blue; None ];
    [ None; None; None; None; P General "e9" blue; None; None; None; None ];
    [ P Chariot "a10" blue; P Elephant "b10" blue; P Horse "c10" blue;
      P Guard "d10" blue; None; P Guard "f10" blue; P Elephant "g10" blue;
      P Horse "h10" blue; P Chariot "i10" blue ] ].

(** Creating the objects of a layout: each piece gets the next free
    reference, in the order in which the literal is evaluated. *)
Fixpoint allocate_row (next : nat) (objs : gmap nat Piece)
    (row : list (option Piece)) : nat * gmap nat Piece * list (option nat) :=
  match row with
  | [] => (next, objs, [])
  | None :: rest =>
      let '(n, o, cells) := allocate_row next objs rest in
      (n, o, None :: cells)
  | Some p :: rest =>
      let '(n, o, cells) := allocate_row (S next) (<[next := p]> objs) rest in
      (n, o, Some next :: cells)
  end.

Fixpoint allocate (next : nat) (objs : gmap nat Piece)
    (rows : list (list (option Piece)))
    : gmap nat Piece * list (list (option nat)) :=
  match rows with
  | [] => (objs, [])
  | row :: rest =>
      let '(n, o, cells) := allocate_row next objs row in
      let '(o', grid) := allocate n o rest in
      (o', cells :: grid)
  end.

(** The pieces of one colour on a grid, row by row: the order in which
    [initialize_board] adds them to the carts. *)
Definition pieces_of (objs : gmap nat Piece) (grid : list (list (option nat)))
    (c : Color) : list nat :=
  flat_map (fun row =>
    flat_map (fun cell =>
      match cell with
      | None => []
      | Some r =>
          match objs !! r with
          | Some p => if Color_eqb (owner p) c then [r] else []
          | None => []
          end
      end) row) grid.

(** A heap holding a given layout, with empty buffer and the carts filled
    as [initialize_board] fills them. *)
Definition setup (layout : list (list (option Piece))) : Heap :=
  let '(objs, grid) := allocate 0%nat ∅ layout in
  {| objects := objs; board := grid; temp := None;
     blue_cart := pieces_of objs grid blue;
     red_cart := pieces_of objs grid red |}.

(** [Board.initialize_board] *)
Definition initialize_board : Heap := setup opening_layout.

(** [JanggiGame.__init__] *)
Definition new_game : JanggiGame :=
  {| heap := initialize_board; game_state := UNFINISHED;
     current_player := blue |}.

(** ** Notions used to state the properties *)

(** A heap is well formed when the grid has ten rows of nine cells and
    every reference in a cell has its object. *)
Definition wf_cell (h : Heap) (c : option nat) : bool :=
  match c with
  | None => true
  | Some r => match objects h !! r with Some _ => true | None => false end
  end.

Definition wf_heap (h : Heap) : bool :=
  (length (board h) =? 10)%nat
  && forallb (fun row => (length row =? 9)%nat && forallb (wf_cell h) row)
             (board h).

(** The piece standing on a square, if any. *)
Definition piece_at (h : Heap) (square : string) : option Piece :=
  match get_occupant h square with
  | Ok (Some r) => objects h !! r
  | _ => None
  end.

Definition is_occupied (h : Heap) (square : string) : bool :=
  match get_occupant h square with
  | Ok (Some _) => true
  | _ => false
  end.

Definition occupied_squares (h : Heap) (path : list string) : list string :=
  filter (fun square => is_occupied h square = true) path.

(** The direction in which a colour's Soldiers advance: blue, the first
    mover, starts on the high rows and moves to lower row indices. *)
Definition forward_step (c : Color) : Z :=
  match c with blue => -1 | red => 1 end.

(** Corner to centre or centre to corner of a palace. *)
Definition palace_entry_diagonal (source destination : string) : Prop :=
  (In source palace_corners /\ In destination palace_centers)
  \/ (In source palace_centers /\ In destination palace_corners).

(** The rows a Soldier can stand on in play: it starts on its own fourth
    row and never moves backward, so it is never on the three rows of its
    own palace. *)
Definition outside_home_rows (c : Color) (row : Z) : Prop :=
  match c with blue => row <= 6 | red => 3 <= row end.

(** *** Positions used as examples *)

Definition empty_layout : list (list (option Piece)) :=
  repeat (repeat None 9) 10.

Definition put (p : Piece) (layout : list (list (option Piece)))
    : list (list (option Piece)) :=
  match decode_location (location p) with
  | Ok (row, column) =>
      match layout !! Z.to_nat row with
      | Some cells =>
          <[Z.to_nat row := <[Z.to_nat column := Some p]> cells]> layout
      | None => layout
      end
  | Raise _ => layout
  end.

(** The heap that holds exactly the given pieces, each on the square its
    [location] names. *)
Definition position (pieces : list Piece) : Heap :=
  setup (foldr put empty_layout pieces).

Definition piece (k : Kind) (loc : string) (o : Color) : Piece :=
  {| kind := k; location := loc; owner := o |}.

(** A red Soldier on a corner of its own palace. *)
Definition red_soldier_at_home : Heap :=
  position [piece Soldier "d3" red; piece General "e1" red;
            piece General "e9" blue].

(** Whether a Cannon stands on a square. *)
Definition cannon_at (h : Heap) (square : string) : bool :=
  match piece_at h square with
  | Some p => String.eqb (get_name p) "CA"
  | None => false
  end.

(** A square name that [decode_location] accepts. *)
Definition decodable (square : string) : Prop :=
  exists row column, decode_location square = Ok (row, column).

(** A blue Soldier on a corner of the red palace. *)
Definition blue_soldier_in_red_palace : Heap :=
  position [piece Soldier "d3" blue; piece General "e1" red;
            piece General "e9" blue].


(** The grid after [board[row][col] = v], for a cell of the grid. *)
Definition grid_set (b : list (list (option nat))) (row col : Z)
    (v : option nat) : list (list (option nat)) :=
  match b !! Z.to_nat row with
  | Some cells => <[Z.to_nat row := <[Z.to_nat col := v]> cells]> b
  | None => b
  end.

(** The carts once the occupant of a captured cell has left its owner's
    cart. *)
Definition capture (cell : option nat) (h : Heap) : Heap :=
  match cell with
  | None => h
  | Some d =>
      match objects h !! d with
      | Some q => snd (remove_piece (owner q) d h)
      | None => h
      end
  end.

(** The heap [move_piece] leaves when the piece [r], whose object is [p],
    goes from cell [(sr, sc)] to cell [(dr, dc)], which held [cell]. *)
Definition moved (h : Heap) (sr sc dr dc : Z) (r : nat) (p : Piece)
    (destination : string) (cell : option nat) : Heap :=
  {| objects := <[r := set_location p destination]> (objects h);
     board := grid_set (grid_set (board h) dr dc (Some r)) sr sc None;
     temp := temp h;
     blue_cart := blue_cart (capture cell h);
     red_cart := red_cart (capture cell h) |}.

(** A cell of the grid, and what it holds. *)
Definition in_grid (b : list (list (option nat))) (row col : Z) : Prop :=
  exists cells, b !! Z.to_nat row = Some cells
                /\ (Z.to_nat col < length cells)%nat.

Definition grid_get (b : list (list (option nat))) (row col : Z)
    : option (option nat) :=
  match b !! Z.to_nat row with
  | Some cells => cells !! Z.to_nat col
  | None => None
  end.

(** Blue to move; the blue Chariot on e8 stands between its General and
    the red Chariot on e3. *)
Definition shielded_general : JanggiGame :=
  {| heap := position [piece General "d1" red; piece Chariot "e3" red;
                       piece Chariot "e8" blue; piece General "e9" blue];
     game_state := UNFINISHED;
     current_player := blue |}.

(** The red Chariot on e3 gives check to the blue General on e10 along the
    e file, and is itself pinned: it stands between its own General on d3
    and the blue Chariot on i3.  The blue General has no square to go to,
    but the blue Chariot can take the red Chariot. *)
Definition pinned_attacker : Heap :=
  position [piece General "d3" red; piece Chariot "e3" red;
            piece Chariot "i3" blue;
            piece Guard "d10" blue; piece General "e10" blue;
            piece Guard "f10" blue].

(** A cell strictly between two cells of one rank or file, or the cell
    midway between two cells two rows and two columns apart. *)
Definition strictly_between (from_row from_col to_row to_col row col : Z)
    : Prop :=
  (row = from_row /\ row = to_row
   /\ (from_col < col < to_col \/ to_col < col < from_col))
  \/ (col = from_col /\ col = to_col
      /\ (from_row < row < to_row \/ to_row < row < from_row))
  \/ (Z.abs (to_row - from_row) = 2 /\ Z.abs (to_col - from_col) = 2
      /\ 2 * row = from_row + to_row /\ 2 * col = from_col + to_col).


(** *** Notions for the further properties *)

(** [h'] has the grid of [h] and an object for every reference that has
    one in [h]. *)
Definition same_grid (h h' : Heap) : Prop :=
  board h' = board h
  /\ forall r, objects h !! r <> None -> objects h' !! r <> None.

(** A computation that, started on a well-formed heap, leaves the grid as
    it found it whenever it returns. *)
Definition keeps_grid {A : Type} (m : ST Heap A) : Prop :=
  forall h a h', wf_heap h = true -> m h = (Ok a, h') -> same_grid h h'.

(** The state that says [player] has won. *)
Definition won_by (player : Color) : GameState :=
  match player with blue => BLUE_WON | red => RED_WON end.

(** Red to move; the red Chariot on a3 can go to e3, from where it
    attacks the blue General on e10, which has no square to go to and no
    piece that could take the Chariot or stand in its way. *)
Definition mate_in_one : JanggiGame :=
  {| heap := position [piece General "d1" red; piece Chariot "a3" red;
                       piece Soldier "d10" blue; piece General "e10" blue;
                       piece Soldier "f10" blue];
     game_state := UNFINISHED;
     current_player := red |}.

(** The rows and columns of the two palaces. *)
Definition in_red_palace (row col : Z) : Prop :=
  0 <= row <= 2 /\ 3 <= col <= 5.
Definition in_blue_palace (row col : Z) : Prop :=
  7 <= row <= 9 /\ 3 <= col <= 5.

(** One step in the direction of [x]. *)
Definition toward (x : Z) : Z :=
  if 0 <? x then 1 else if x <? 0 then -1 else 0.

(** The corners and the centre of each palace. *)
Definition blue_palace_points : list string := ["d8"; "f8"; "d10"; "f10"; "e9"].
Definition red_palace_points : list string := ["d1"; "f1"; "d3"; "f3"; "e2"].

(** A blue Horse on c10 in the opening position of the blue side. *)
Definition lone_horse : Heap :=
  position [piece Horse "c10" blue; piece General "e9" blue;
            piece General "e2" red].

(** A red Elephant on b1 and a red Chariot on a1. *)
Definition elephant_and_chariot : Heap :=
  position [piece Chariot "a1" red; piece Elephant "b1" red;
            piece General "e2" red; piece General "e9" blue].

(** Both squares are a corner or the centre of one and the same palace. *)
Definition same_palace_points (source destination : string) : Prop :=
  (In source blue_palace_points /\ In destination blue_palace_points)
  \/ (In source red_palace_points /\ In destination red_palace_points).

(** A cell strictly between two cells of one rank or one file. *)
Definition on_line_between (from_row from_col to_row to_col row col : Z)
    : Prop :=
  (row = from_row /\ row = to_row
   /\ (from_col < col < to_col \/ to_col < col < from_col))
  \/ (col = from_col /\ col = to_col
      /\ (from_row < row < to_row \/ to_row < row < from_row)).

(** The diagonal steps [Soldier.is_legal] lists, as pairs of source and
    destination. *)
Definition soldier_diagonal_steps : list (string * string) :=
  [("d3", "e2"); ("f3", "e2"); ("e2", "d1"); ("e2", "f1");
   ("d8", "e9"); ("f8", "e9"); ("e9", "d10"); ("e9", "f10")].

(** ** Screen coordinates *)

(** [Board.get_xy_from_algebraic], and the two functions of
    janggi_pygame.py that translate between squares and pixels.  The
    offsets of the board image on the screen, [BG_X_OFFSET] and
    [BG_Y_OFFSET], are constants the program imports from its module
    [constants]; here they are parameters. *)
Section Screen.

Variables BG_X_OFFSET BG_Y_OFFSET : Z.

Definition x_key : list (string * Z) :=
  [("a", 0); ("b", 67); ("c", 134); ("d", 201); ("e", 268);
   ("f", 335); ("g", 402); ("h", 469); ("i", 536)].

Definition y_key : list (string * Z) :=
  [("1", 0); ("2", 67); ("3", 134); ("4", 201); ("5", 268);
   ("6", 335); ("7", 402); ("8", 469); ("9", 536); ("10", 603)].

(** [Board.get_xy_from_algebraic] (and the identical
    [get_xy_from_algebraic] of janggi_pygame.py). *)
Definition get_xy_from_algebraic (location : string) : res (Z * Z) :=
  match location with
  | EmptyString => Raise IndexError
  | String c0 rest =>
      let? column := dict_get x_key (String c0 EmptyString) in
      let? row :=
        if Nat.eqb (String.length location) 3 then dict_get y_key rest
        else
          match rest with
          | EmptyString => Raise IndexError
          | String c1 _ => dict_get y_key (String c1 EmptyString)
          end in
      let x_coord := column + BG_X_OFFSET in
      let y_coord := row + BG_Y_OFFSET in
      Ok (x_coord, y_coord)
  end.

(** The first [if] chain of [get_algebraic_from_mouse]: the lines it
    prints and the letter it chooses. *)
Definition mouse_letter (x_coord : Z) : list string * string :=
  if (x_coord <? 0) || (x_coord >? 603)
  then (["x coordinate is off the board"], "")
  else if x_coord <=? 67 then ([], "a")
  else if x_coord <=? 134 then ([], "b")
  else if x_coord <=? 201 then ([], "c")
  else if x_coord <=? 268 then ([], "d")
  else if x_coord <=? 335 then ([], "e")
  else if x_coord <=? 402 then ([], "f")
  else if x_coord <=? 469 then ([], "g")
  else if x_coord <=? 536 then ([], "h")
  else ([], "i").

(** The second [if] chain: the lines it prints and the number. *)
Definition mouse_number (y_coord : Z) : list string * string :=
  if (y_coord <? 0) || (y_coord >? 670)
  then (["y coordinate is off of the board"], "")
  else if y_coord <=? 67 then ([], "1")
  else if y_coord <=? 134 then ([], "2")
  else if y_coord <=? 201 then ([], "3")
  else if y_coord <=? 268 then ([], "4")
  else if y_coord <=? 335 then ([], "5")
  else if y_coord <=? 402 then ([], "6")
  else if y_coord <=? 469 then ([], "7")
  else if y_coord <=? 536 then ([], "8")
  else if y_coord <=? 603 then ([], "9")
  else ([], "10").

(** [get_algebraic_from_mouse]: what it prints, and what it returns. *)
Definition get_algebraic_from_mouse (x_coord y_coord : Z)
    : list string * string :=
  let x_coord := x_coord - BG_X_OFFSET in
  let y_coord := y_coord - BG_Y_OFFSET in
  let '(printed_x, letter) := mouse_letter x_coord in
  let '(printed_y, number) := mouse_number y_coord in
  ((printed_x ++ printed_y)%list, letter ++ number).

End Screen.

(** The pixel range of the board image, relative to its offsets. *)
Definition on_screen_board (x y : Z) : Prop :=
  0 <= x <= 603 /\ 0 <= y <= 670.

(** ** The invariant of the representation *)

(** The piece behind [r] stands on the grid and belongs to [c]. *)
Definition on_board_as (h : Heap) (r : nat) (c : Color) : Prop :=
  exists row col p,
    valid_index row col /\ get_cell h row col = Ok (Some r)
    /\ objects h !! r = Some p /\ owner p = c.

(** Every piece on the grid records a location that names the cell it
    stands on. *)
Definition stands_on (h : Heap) : Prop :=
  forall row col r p,
    valid_index row col -> get_cell h row col = Ok (Some r) ->
    objects h !! r = Some p ->
    decode_location (location p) = Ok (row, col).

(** Each cart lists, without repetition, exactly the pieces of its colour
    that stand on the grid. *)
Definition carts_exact (h : Heap) : Prop :=
  forall c, NoDup (get_cart h c)
            /\ forall r, In r (get_cart h c) <-> on_board_as h r c.

(** What [initialize_board] establishes and the methods rely on. *)
Definition consistent (h : Heap) : Prop :=
  wf_heap h = true /\ stands_on h /\ carts_exact h.

(** The same, as a test that can be run on a given heap. *)
Definition all_cells : list (Z * Z) :=
  flat_map (fun row => map (fun col => (row, col)) [0; 1; 2; 3; 4; 5; 6; 7; 8])
           [0; 1; 2; 3; 4; 5; 6; 7; 8; 9].

Definition cell_names_itself (h : Heap) (cell : Z * Z) : bool :=
  match get_cell h (fst cell) (snd cell) with
  | Ok (Some r) =>
      match objects h !! r with
      | Some p =>
          match decode_location (location p) with
          | Ok (row, col) => (row =? fst cell) && (col =? snd cell)
          | Raise _ => false
          end
      | None => false
      end
  | Ok None => true
  | Raise _ => false
  end.

Definition holds (h : Heap) (r : nat) (c : Color) (cell : Z * Z) : bool :=
  match get_cell h (fst cell) (snd cell) with
  | Ok (Some r') =>
      Nat.eqb r' r
      && match objects h !! r with
         | Some p => Color_eqb (owner p) c
         | None => false
         end
  | _ => false
  end.

Definition listed (h : Heap) (c : Color) (cell : Z * Z) : bool :=
  match get_cell h (fst cell) (snd cell) with
  | Ok (Some r) =>
      match objects h !! r with
      | Some p =>
          negb (Color_eqb (owner p) c) || existsb (Nat.eqb r) (get_cart h c)
      | None => false
      end
  | _ => true
  end.

Definition cart_exact_test (h : Heap) (c : Color) : bool :=
  bool_decide (NoDup (get_cart h c))
  && forallb (fun r => existsb (holds h r c) all_cells) (get_cart h c)
  && forallb (listed h c) all_cells.

Definition consistent_test (h : Heap) : bool :=
  wf_heap h && forallb (cell_names_itself h) all_cells
  && cart_exact_test h blue && cart_exact_test h red.

(** A computation that keeps a property of the heap whenever it
    returns. *)
Definition keeps {A : Type} (I : Heap -> Prop) (m : ST Heap A) : Prop :=
  forall h a h', I h -> m h = (Ok a, h') -> I h'.

(** The heap [undo_temp_move] leaves: the piece [r] is back on its cell
    [(sr, sc)] with location [source], the cell [(dr, dc)] holds the
    buffered piece again, and that piece, if any, is appended to its
    owner's cart. *)
Definition readd (t : option nat) (h : Heap) : Heap :=
  match t with
  | None => h
  | Some d =>
      match objects h !! d with
      | Some q => snd (add_piece (owner q) d h)
      | None => h
      end
  end.

Definition undone (h : Heap) (sr sc dr dc : Z) (r : nat) (p : Piece)
    (source : string) : Heap :=
  set_temp None
    (readd (temp h)
       {| objects := <[r := set_location p source]> (objects h);
          board := grid_set (grid_set (board h) sr sc (Some r))
                            dr dc (temp h);
          temp := temp h;
          blue_cart := blue_cart h;
          red_cart := red_cart h |}).

(** The games that can be reached from the opening position by calls of
    [make_move] that return. *)
Inductive reachable : JanggiGame -> Prop :=
  | reachable_new_game : reachable new_game
  | reachable_make_move (fuel : nat) (source destination : string)
      (g g' : JanggiGame) (accepted : bool) :
      reachable g ->
      make_move fuel source destination g = (Ok accepted, g') ->
      reachable g'.

(** The cart of a colour holds a General. *)
Definition has_general (h : Heap) (c : Color) : Prop :=
  exists g gp, In g (get_cart h c)
               /\ objects h !! g = Some gp /\ kind gp = General.

(** Blue to move; the blue Chariot on e5 faces the red General on e2 with
    nothing between them. *)
Definition general_en_prise : JanggiGame :=
  {| heap := position [piece General "e2" red; piece Chariot "e5" blue;
                       piece General "e9" blue];
     game_state := UNFINISHED;
     current_player := blue |}.

(** [h'] has the grid and the piece objects of [h], and carts with the
    same pieces in some order. *)
Definition same_pieces (h h' : Heap) : Prop :=
  board h' = board h /\ objects h' = objects h
  /\ forall c, Permutation (get_cart h' c) (get_cart h c).

(** No General stands on the square. *)
Definition no_general_at (h : Heap) (square : string) : Prop :=
  forall q, piece_at h square = Some q -> kind q <> General.

(** What the second loop of [is_in_checkmate] needs of a piece of the
    attacker list: it is in the opponent's cart, and its class has a path
    from the square it records to the General's. *)
Definition attacker_ready (h : Heap) (opponent : Color) (gen_loc : string)
    (a : nat) : Prop :=
  In a (get_cart h opponent)
  /\ exists pa, objects h !! a = Some pa
                /\ exists path,
                     Piece_move_path pa (location pa) gen_loc = Ok path
                     /\ Forall decodable path.

(** Two opposite corners of one palace. *)
Definition opposite_palace_corners (source destination : string) : Prop :=
  In (source, destination)
     [("d1", "f3"); ("f3", "d1"); ("d3", "f1"); ("f1", "d3");
      ("d8", "f10"); ("f10", "d8"); ("d10", "f8"); ("f8", "d10")].

(** The cells a slide from [source] to [destination] passes over: the
    cells strictly between the two on their common rank or file, and the
    centre of the palace between two of its opposite corners. *)
Definition passed_over (source destination : string)
    (from_row from_col to_row to_col row col : Z) : Prop :=
  on_line_between from_row from_col to_row to_col row col
  \/ (opposite_palace_corners source destination
      /\ 2 * row = from_row + to_row /\ 2 * col = from_col + to_col).

(** A red Cannon on the palace corner d1, with its own General on the
    centre e2 and nothing on the opposite corner f3. *)
Definition cannon_in_palace : Heap :=
  position [piece Cannon "d1" red; piece General "e2" red;
            piece General "e9" blue].

(* ================================================================== *)
(** * Properties *)

(** ** Location codec *)

Section CodecFacts.

Lemma dict_get_keys {V : Type} (d : list (string * V)) (k : string) :
  (exists v, dict_get d k = Ok v) <-> mem k (map fst d) = true.
Proof.
  induction d as [|[k' v'] d IH]; simpl.
  - split; [intros [v Hv]; discriminate | discriminate].
  - destruct (String.eqb k k'); simpl.
    + split; eauto.
    + exact IH.
Qed.

Lemma dict_get_total {V : Type} (d : list (string * V)) (k : string) :
  mem k (map fst d) = false -> exists e, dict_get d k = Raise e.
Proof.
  intros Hk. destruct (dict_get d k) as [v|e] eqn:E; eauto.
  assert (mem k (map fst d) = true) by (apply dict_get_keys; eauto).
  congruence.
Qed.

Lemma letters_are_keys : letters = map fst column_key.
Proof. reflexivity. Qed.

Lemma numbers_are_keys : numbers = map fst row_key.
Proof. reflexivity. Qed.

Lemma mem_cases (k : string) (l : list string) :
  mem k l = true -> In k l.
Proof.
  unfold mem. rewrite existsb_exists. intros [x [Hin Hx]].
  apply String.eqb_eq in Hx. now subst.
Qed.

Lemma column_key_range (k : string) (v : Z) :
  dict_get column_key k = Ok v -> 0 <= v <= 8.
Proof.
  intros H.
  assert (Hk : In k letters).
  { apply mem_cases. rewrite letters_are_keys. apply dict_get_keys. eauto. }
  simpl in Hk.
  repeat (destruct Hk as [<-|Hk]; [vm_compute in H; injection H as <-; lia|]).
  contradiction.
Qed.

Lemma row_key_range (k : string) (v : Z) :
  dict_get row_key k = Ok v -> 0 <= v <= 9.
Proof.
  intros H.
  assert (Hk : In k numbers).
  { apply mem_cases. rewrite numbers_are_keys. apply dict_get_keys. eauto. }
  simpl in Hk.
  repeat (destruct Hk as [<-|Hk]; [vm_compute in H; injection H as <-; lia|]).
  contradiction.
Qed.

(** Whatever [decode_location] returns is a cell of the 10 x 9 grid. *)
Lemma decode_location_range (text : string) (row column : Z) :
  decode_location text = Ok (row, column) -> valid_index row column.
Proof.
  unfold decode_location, valid_index.
  destruct text as [|c0 rest]; [discriminate|].
  destruct (dict_get column_key (String c0 "")) as [col|] eqn:Ecol;
    cbn [res_bind]; [|discriminate].
  apply column_key_range in Ecol.
  destruct (Nat.eqb (String.length (String c0 rest)) 3).
  - destruct (dict_get row_key rest) as [r|] eqn:Er; cbn [res_bind];
      [|discriminate].
    apply row_key_range in Er. intros [= <- <-]. lia.
  - destruct rest as [|c1 rest']; [discriminate|].
    destruct (dict_get row_key (String c1 "")) as [r|] eqn:Er; cbn [res_bind];
      [|discriminate].
    apply row_key_range in Er. intros [= <- <-]. lia.
Qed.

Lemma valid_index_cases (row column : Z) :
  valid_index row column ->
  In row [0; 1; 2; 3; 4; 5; 6; 7; 8; 9] /\ In column [0; 1; 2; 3; 4; 5; 6; 7; 8].
Proof. unfold valid_index. simpl. lia. Qed.

End CodecFacts.

Lemma encode_then_decode (row column : Z) :
  valid_index row column ->
  exists text, encode_location row column = Ok text
               /\ decode_location text = Ok (row, column).
Proof.
  intros Hv. apply valid_index_cases in Hv.
  destruct Hv as [Hr Hc]. simpl in Hr, Hc.
  repeat (destruct Hr as [<-|Hr]; [|]); try contradiction;
    repeat (destruct Hc as [<-|Hc]; [|]); try contradiction;
    eexists; split; reflexivity.
Qed.

Lemma decode_then_encode (text : string) :
  well_formed text = true ->
  exists row column, decode_location text = Ok (row, column)
                     /\ valid_index row column
                     /\ encode_location row column = Ok text.
Proof.
  intros Hwf. destruct text as [|c0 rest]; [discriminate|].
  cbn [well_formed] in Hwf. apply andb_true_iff in Hwf.
  destruct Hwf as [Hl Hn].
  apply mem_cases in Hl. apply mem_cases in Hn. simpl in Hl, Hn.
  repeat (destruct Hl as [Hl|Hl]; [injection Hl as <-|]);
    try contradiction;
    repeat (destruct Hn as [<-|Hn]; [|]); try contradiction;
    do 2 eexists; (split; [reflexivity|]);
    (split; [unfold valid_index; lia | reflexivity]).
Qed.

(** C8.  Round trip of the location codec: [encode_location] returns a
    text for every valid index pair (row 0..9, column 0..8), decoding that
    text gives the pair back, and every well-formed coordinate text decodes
    to a valid pair whose encoding is the text itself. *)
Theorem codec_round_trip :
  (forall row column, valid_index row column ->
     exists text, encode_location row column = Ok text
                  /\ decode_location text = Ok (row, column))
  /\ (forall text, well_formed text = true ->
        exists row column, decode_location text = Ok (row, column)
                           /\ valid_index row column
                           /\ encode_location row column = Ok text).
Proof. split; [exact encode_then_decode | exact decode_then_encode]. Qed.

Lemma codec_round_trip_witness :
  (exists text, encode_location 6 4 = Ok text
                /\ decode_location text = Ok (6, 4))
  /\ (exists row column, decode_location "a10" = Ok (row, column)
                         /\ valid_index row column
                         /\ encode_location row column = Ok "a10").
Proof.
  split.
  - apply (proj1 codec_round_trip). unfold valid_index. lia.
  - apply (proj2 codec_round_trip). reflexivity.
Defined.

(** C7, the claim as written fails: a string of four characters that is
    not a coordinate is decoded without error, in this embedding and in
    the one on strings of arbitrary characters. *)
Lemma decode_accepts_trailing_characters :
  well_formed "a1xx" = false /\ decode_location "a1xx" = Ok (0, 0)
  /\ Text.well_formed (Text.lit "a1xx") = false
  /\ Text.decode_location (Text.lit "a1xx") = Ok (0, 0).
Proof. repeat split; reflexivity. Qed.

(** *** Arbitrary characters *)

Section TextFacts.

Lemma str_eqb_eq (a b : Text.str) : Text.str_eqb a b = true <-> a = b.
Proof.
  revert b. induction a as [|x a IH]; intros [|y b]; cbn [Text.str_eqb];
    try (split; [discriminate | discriminate]); [tauto|].
  rewrite andb_true_iff, N.eqb_eq, IH. split.
  - intros [-> ->]. reflexivity.
  - intros [= -> ->]. auto.
Qed.

Lemma text_mem_In (k : Text.str) (l : list Text.str) :
  Text.mem k l = true <-> In k l.
Proof.
  unfold Text.mem. rewrite existsb_exists. split.
  - intros (x & Hx & E). apply str_eqb_eq in E. now subst.
  - intros H. exists k. split; [exact H | now apply str_eqb_eq].
Qed.

(** A dictionary lookup finds the value of a key, or raises [KeyError]
    when the string is not a key. *)
Lemma text_dict_get_cases {V : Type} (d : list (Text.str * V))
    (k : Text.str) :
  (exists v, Text.dict_get d k = Ok v /\ In v (map snd d)
             /\ Text.mem k (map fst d) = true)
  \/ (Text.dict_get d k = Raise KeyError
      /\ Text.mem k (map fst d) = false).
Proof.
  induction d as [|[k' v'] d IH]; cbn [Text.dict_get map fst snd].
  - right. split; reflexivity.
  - unfold Text.mem in *. cbn [existsb].
    destruct (Text.str_eqb k k'); cbn [orb].
    + left. exists v'. split; [reflexivity|]. split; [now left | reflexivity].
    + destruct IH as [(v & Hv & Hin & Hm)|[He Hm]].
      * left. exists v. split; [exact Hv|]. split; [now right | exact Hm].
      * right. split; assumption.
Qed.

Lemma text_column_cases (k : Text.str) :
  (exists v, Text.dict_get Text.column_key k = Ok v /\ 0 <= v <= 8
             /\ Text.mem k (map Text.lit letters) = true)
  \/ (Text.dict_get Text.column_key k = Raise KeyError
      /\ Text.mem k (map Text.lit letters) = false).
Proof.
  destruct (text_dict_get_cases Text.column_key k)
    as [(v & Hv & Hin & Hm)|[He Hm]]; [left | right; auto].
  exists v. split; [exact Hv|]. split; [|exact Hm].
  simpl in Hin. lia.
Qed.

Lemma text_row_cases (k : Text.str) :
  (exists v, Text.dict_get Text.row_key k = Ok v /\ 0 <= v <= 9
             /\ Text.mem k (map Text.lit numbers) = true)
  \/ (Text.dict_get Text.row_key k = Raise KeyError
      /\ Text.mem k (map Text.lit numbers) = false).
Proof.
  destruct (text_dict_get_cases Text.row_key k)
    as [(v & Hv & Hin & Hm)|[He Hm]]; [left | right; auto].
  exists v. split; [exact Hv|]. split; [|exact Hm].
  simpl in Hin. lia.
Qed.

(** The numbers 1..10 have one or two characters. *)
Lemma text_numbers_length (k : Text.str) :
  Text.mem k (map Text.lit numbers) = true ->
  (1 <= length k <= 2)%nat.
Proof.
  intros H. apply text_mem_In in H. simpl in H.
  repeat (destruct H as [<-|H]; [simpl; lia|]). contradiction.
Qed.

(** The three ways [decode_location] ends, by the number of characters
    of its argument. *)
Lemma text_decode_cases (text : Text.str) :
  (Text.decode_accepts text = true
   /\ exists row column, Text.decode_location text = Ok (row, column)
                         /\ valid_index row column)
  \/ (Text.decode_accepts text = false
      /\ (Text.decode_location text = Raise KeyError
          \/ Text.decode_location text = Raise IndexError)).
Proof.
  unfold valid_index, Text.decode_accepts.
  destruct text as [|c0 rest]; [right; split; [reflexivity | now right]|].
  assert (Hlong : forall c1 c2 c3 more,
            Text.mem (c1 :: c2 :: c3 :: more) (map Text.lit numbers) = false).
  { intros c1 c2 c3 more. destruct (Text.mem _ _) eqn:E; [|reflexivity].
    apply text_numbers_length in E. simpl in E. lia. }
  assert (Hempty : Text.mem [] (map Text.lit numbers) = false)
    by reflexivity.
  destruct (text_column_cases [c0]) as [(col & Ec & Hcol & Hl)|[Ec Hl]];
    destruct rest as [|c1 [|c2 [|c3 rest]]];
    cbn [Text.decode_location Text.well_formed length Nat.eqb Nat.leb take];
    rewrite Ec, Hl, ?Hlong, ?Hempty; cbn [res_bind andb orb];
    try (right; split; [reflexivity | now left]);
    try (right; split; [reflexivity | now right]).
  - destruct (text_row_cases [c1]) as [(row & -> & Hrow & ->)|[-> ->]];
      cbn [res_bind].
    + left. split; [reflexivity|]. exists row, col. auto.
    + right. split; [reflexivity | now left].
  - destruct (text_row_cases [c1; c2]) as [(row & -> & Hrow & ->)|[-> ->]];
      cbn [res_bind].
    + left. split; [reflexivity|]. exists row, col. auto.
    + right. split; [reflexivity | now left].
  - destruct (text_row_cases [c1]) as [(row & -> & Hrow & ->)|[-> ->]];
      cbn [res_bind].
    + left. split; [reflexivity|]. exists row, col. auto.
    + right. split; [reflexivity | now left].
Qed.

Lemma lit_cons (c : ascii) (s : string) :
  Text.lit (String c s) = N_of_ascii c :: Text.lit s.
Proof. reflexivity. Qed.

Lemma lit_length (s : string) : length (Text.lit s) = String.length s.
Proof.
  induction s as [|c s IH]; [reflexivity|].
  rewrite lit_cons. cbn [length String.length]. now rewrite IH.
Qed.

Lemma lit_eqb (a b : string) :
  Text.str_eqb (Text.lit a) (Text.lit b) = String.eqb a b.
Proof.
  revert b. induction a as [|x a IH]; intros [|y b]; try reflexivity.
  rewrite !lit_cons. cbn [Text.str_eqb String.eqb]. rewrite IH.
  destruct (Ascii.eqb_spec x y) as [->|Hne].
  - now rewrite N.eqb_refl.
  - destruct (N.eqb_spec (N_of_ascii x) (N_of_ascii y)) as [E|E];
      [|reflexivity].
    exfalso. apply Hne.
    rewrite <- (ascii_N_embedding x), <- (ascii_N_embedding y).
    now rewrite E.
Qed.

Lemma lit_dict_get {V : Type} (d : list (string * V)) (k : string) :
  Text.dict_get (map (fun kv => (Text.lit (fst kv), snd kv)) d) (Text.lit k)
  = dict_get d k.
Proof.
  induction d as [|[k' v] d IH]; [reflexivity|].
  cbn [map fst snd Text.dict_get dict_get]. rewrite lit_eqb.
  destruct (String.eqb k k'); [reflexivity | exact IH].
Qed.

(** On a string read one element per character, the two embeddings of
    [decode_location] are the same function. *)
Lemma decode_location_agrees (s : string) :
  Text.decode_location (Text.lit s) = decode_location s.
Proof.
  assert (Hcol : forall k, Text.dict_get Text.column_key (Text.lit k)
                           = dict_get column_key k)
    by (intros k; apply (lit_dict_get column_key)).
  assert (Hrow : forall k, Text.dict_get Text.row_key (Text.lit k)
                           = dict_get row_key k)
    by (intros k; apply (lit_dict_get row_key)).
  destruct s as [|c0 rest]; [reflexivity|].
  rewrite lit_cons. cbn [Text.decode_location decode_location].
  change [N_of_ascii c0] with (Text.lit (String c0 "")). rewrite Hcol.
  change (length (N_of_ascii c0 :: Text.lit rest))
    with (length (Text.lit (String c0 rest))).
  rewrite lit_length, Hrow.
  destruct (dict_get column_key (String c0 "")); [|reflexivity].
  cbn [res_bind].
  destruct (Nat.eqb (String.length (String c0 rest)) 3); [reflexivity|].
  destruct rest as [|c1 rest']; [reflexivity|].
  rewrite lit_cons. change [N_of_ascii c1] with (Text.lit (String c1 "")).
  now rewrite Hrow.
Qed.

End TextFacts.

(** C7, amended.  For every Python string, a sequence of characters of
    any kind: [decode_location] returns a valid index pair on every
    well-formed coordinate text, and raises [KeyError] or [IndexError] on
    every other text of at most three characters; a text of four or more
    characters gets the result of its first two characters alone (column
    letter a-i, row digit 1-9), whatever follows them, be it a pair or
    one of the two exceptions.  The function reads its argument only, so
    no state changes. *)
Theorem decode_location_domain (text : Text.str) :
  (Text.decode_accepts text = true ->
     exists row column, Text.decode_location text = Ok (row, column)
                        /\ valid_index row column)
  /\ (Text.decode_accepts text = false ->
        Text.decode_location text = Raise KeyError
        \/ Text.decode_location text = Raise IndexError)
  /\ ((4 <= length text)%nat ->
        Text.decode_location text = Text.decode_location (take 2 text)
        /\ Text.well_formed text = false).
Proof.
  destruct (text_decode_cases text) as [[Ha Hok]|[Ha Herr]]; rewrite Ha.
  - split; [auto|]. split; [discriminate|].
    intros Hlen. destruct text as [|c0 [|c1 [|c2 [|c3 rest]]]];
      simpl in Hlen; try lia.
    split; [reflexivity|]. cbn [Text.well_formed].
    destruct (Text.mem (c1 :: c2 :: c3 :: rest) _) eqn:E;
      [|apply andb_false_r].
    apply text_numbers_length in E. simpl in E. lia.
  - split; [discriminate|]. split; [auto|].
    intros Hlen. destruct text as [|c0 [|c1 [|c2 [|c3 rest]]]];
      simpl in Hlen; try lia.
    split; [reflexivity|]. cbn [Text.well_formed].
    destruct (Text.mem (c1 :: c2 :: c3 :: rest) _) eqn:E;
      [|apply andb_false_r].
    apply text_numbers_length in E. simpl in E. lia.
Qed.

Lemma decode_location_domain_witness :
  (exists row column, Text.decode_location (Text.lit "e7") = Ok (row, column)
                      /\ valid_index row column)
  /\ (Text.decode_location (Text.lit "j4") = Raise KeyError
      \/ Text.decode_location (Text.lit "j4") = Raise IndexError)
  /\ (Text.decode_location (Text.lit "a1xx")
      = Text.decode_location (take 2 (Text.lit "a1xx"))
      /\ Text.well_formed (Text.lit "a1xx") = false).
Proof.
  split; [|split].
  - apply (proj1 (decode_location_domain (Text.lit "e7"))). reflexivity.
  - apply (proj1 (proj2 (decode_location_domain (Text.lit "j4")))).
    reflexivity.
  - apply (proj2 (proj2 (decode_location_domain (Text.lit "a1xx")))).
    simpl. lia.
Defined.

(** ** The state monad *)

Section MonadFacts.

Context {S : Type}.

Lemma bind_Ok {A B : Type} (m : ST S A) (k : A -> ST S B) s b s' :
  bind m k s = (Ok b, s') ->
  exists a s1, m s = (Ok a, s1) /\ k a s1 = (Ok b, s').
Proof.
  unfold bind. destruct (m s) as [[a|e] s1]; [eauto | discriminate].
Qed.

Lemma bind_step {A B : Type} (m : ST S A) (k : A -> ST S B) s a s1 :
  m s = (Ok a, s1) -> bind m k s = k a s1.
Proof. unfold bind. now intros ->. Qed.

Lemma bind_Raise {A B : Type} (m : ST S A) (k : A -> ST S B) s e s1 :
  m s = (Raise e, s1) -> bind m k s = (Raise e, s1).
Proof. unfold bind. now intros ->. Qed.

Lemma read_Ok {A : Type} (f : S -> res A) s a s' :
  read f s = (Ok a, s') -> f s = Ok a /\ s' = s.
Proof. unfold read. now intros [= -> ->]. Qed.

End MonadFacts.

Lemma on_board_frame {A : Type} (m : ST Heap A) g r g' :
  on_board m g = (r, g') ->
  current_player g' = current_player g /\ game_state g' = game_state g.
Proof.
  unfold on_board. destruct (m (heap g)) as [r0 h]. now intros [= _ <-].
Qed.

Lemma on_board_read {A : Type} (f : Heap -> res A) g :
  on_board (read f) g = (f (heap g), g).
Proof. unfold on_board, read. now destruct g. Qed.

Lemma toggle_players_opponent g :
  toggle_players g = set_current_player (opponent_of (current_player g)) g.
Proof. unfold toggle_players. now destruct (current_player g). Qed.

(** ** Turn order *)

(** C10.  In an unfinished game whose player to move is not in check,
    [make_move(s, s)] is accepted as a pass for any string [s] at all,
    a valid coordinate or not: it returns [True], and in the game it
    leaves the player to move is the other one (red after blue, blue
    after red), while the board, the carts and the state are those of
    before the call. *)
Theorem pass_accepted_for_any_string (fuel : nat) (g : JanggiGame) (s : string) :
  game_state g = UNFINISHED ->
  is_in_check (heap g) (current_player g) = Ok false ->
  exists g',
    make_move fuel s s g = (Ok true, g')
    /\ current_player g'
       = match current_player g with blue => red | red => blue end
    /\ current_player g' <> current_player g
    /\ heap g' = heap g
    /\ game_state g' = UNFINISHED.
Proof.
  intros Hst Hchk. exists (toggle_players g). split.
  - unfold make_move.
    rewrite (bind_step _ _ g (game_state g) g) by reflexivity.
    rewrite Hst. cbn [GameState_eqb negb]. rewrite String.eqb_refl.
    rewrite (bind_step _ _ g (current_player g) g) by reflexivity.
    rewrite (bind_step _ _ g false g)
      by (rewrite on_board_read; now rewrite Hchk).
    reflexivity.
  - unfold toggle_players, set_current_player.
    destruct (current_player g) eqn:E;
      cbn [current_player heap game_state]; rewrite ?E;
      repeat split; try assumption; discriminate.
Qed.

Lemma pass_accepted_for_any_string_witness :
  exists g',
    make_move 0 "zz" "zz" new_game = (Ok true, g')
    /\ current_player g' = red
    /\ current_player g' <> blue
    /\ heap g' = heap new_game
    /\ game_state g' = UNFINISHED.
Proof.
  apply (pass_accepted_for_any_string 0 new_game "zz"); reflexivity.
Defined.

(** C9.  Whenever [make_move] returns, the player to move afterwards is
    the other player if it returned [True] (a move or a pass was accepted)
    and the same player if it returned [False]. *)
Theorem turn_alternation (fuel : nat) (g g' : JanggiGame)
    (source destination : string) (accepted : bool) :
  make_move fuel source destination g = (Ok accepted, g') ->
  current_player g'
  = if accepted then opponent_of (current_player g) else current_player g.
Proof.
  unfold make_move. intros H.
  apply bind_Ok in H. destruct H as (st & g1 & H1 & H).
  apply read_Ok in H1. destruct H1 as [[= <-] ->].
  destruct (negb (GameState_eqb (game_state g) UNFINISHED)).
  { now injection H as <- <-. }
  destruct (String.eqb source destination).
  { apply bind_Ok in H. destruct H as (pl & g1 & H1 & H).
    apply read_Ok in H1. destruct H1 as [[= <-] ->].
    apply bind_Ok in H. destruct H as (chk & g1 & H1 & H).
    rewrite on_board_read in H1. injection H1 as H1 <-.
    destruct chk.
    - now injection H as <- <-.
    - cbn [bind modify ret] in H. injection H as <- <-.
      now rewrite toggle_players_opponent. }
  apply bind_Ok in H. destruct H as (occ & g1 & H1 & H).
  rewrite on_board_read in H1. injection H1 as H1 <-.
  destruct occ as [r|]; [|now injection H as <- <-].
  apply bind_Ok in H. destruct H as (occ' & g1 & H2 & H).
  rewrite on_board_read in H2. injection H2 as H2 <-.
  apply bind_Ok in H. destruct H as (p & g1 & H3 & H).
  rewrite on_board_read in H3. injection H3 as H3 <-.
  apply bind_Ok in H. destruct H as (pl & g1 & H4 & H).
  apply read_Ok in H4. destruct H4 as [[= <-] ->].
  destruct (negb (Color_eqb (owner p) (current_player g)));
    [now injection H as <- <-|].
  apply bind_Ok in H. destruct H as (legal & g1 & H5 & H).
  apply on_board_frame in H5. destruct H5 as [Hp1 _].
  destruct legal; [|injection H as <- <-; exact Hp1].
  apply bind_Ok in H. destruct H as ([] & g2 & H6 & H).
  apply on_board_frame in H6. destruct H6 as [Hp2 _].
  apply bind_Ok in H. destruct H as ([] & g3 & H7 & H).
  injection H7 as <-.
  apply bind_Ok in H. destruct H as (pl' & g4 & H8 & H).
  apply read_Ok in H8. destruct H8 as [[= <-] ->].
  apply bind_Ok in H. destruct H as (mate & g4 & H9 & H).
  apply on_board_frame in H9. destruct H9 as [Hp4 _].
  apply bind_Ok in H. destruct H as ([] & g5 & H10 & H).
  injection H as <- <-.
  assert (Hp5 : current_player g5 = current_player g4).
  { destruct mate; [|now injection H10 as <-].
    apply bind_Ok in H10. destruct H10 as (pl'' & g6 & H11 & H10).
    apply read_Ok in H11. destruct H11 as [_ ->].
    destruct pl''; now injection H10 as <-. }
  rewrite Hp5, Hp4, toggle_players_opponent. cbn. now rewrite Hp2, Hp1.
Qed.

Lemma turn_alternation_witness :
  current_player (snd (make_move 100 "e7" "e6" new_game))
  = if true then opponent_of (current_player new_game)
    else current_player new_game.
Proof.
  apply (turn_alternation 100 new_game _ "e7" "e6" true).
  vm_compute. reflexivity.
Defined.

(** ** Reading a well-formed heap *)

Section HeapFacts.

Lemma wf_heap_get_cell (h : Heap) (row column : Z) :
  wf_heap h = true -> valid_index row column ->
  exists c, get_cell h row column = Ok c /\ wf_cell h c = true.
Proof.
  unfold wf_heap, valid_index, get_cell. intros Hwf [Hr Hc].
  apply andb_true_iff in Hwf. destruct Hwf as [Hlen Hrows].
  apply Nat.eqb_eq in Hlen. rewrite forallb_forall in Hrows.
  destruct (board h !! Z.to_nat row) as [cells|] eqn:Er.
  2:{ apply lookup_ge_None in Er. lia. }
  assert (Hin : In cells (board h)).
  { apply list_elem_of_In. eapply list_elem_of_lookup_2; eauto. }
  apply Hrows in Hin. apply andb_true_iff in Hin. destruct Hin as [Hl Hcells].
  apply Nat.eqb_eq in Hl. rewrite forallb_forall in Hcells.
  destruct (cells !! Z.to_nat column) as [c|] eqn:Ec.
  2:{ apply lookup_ge_None in Ec. lia. }
  exists c. split; [reflexivity|]. apply Hcells.
  apply list_elem_of_In. eapply list_elem_of_lookup_2; eauto.
Qed.

Lemma wf_cell_deref (h : Heap) (r : nat) :
  wf_cell h (Some r) = true -> exists p, deref h r = Ok p.
Proof.
  unfold wf_cell, deref. destruct (objects h !! r); [eauto | discriminate].
Qed.

Lemma wf_heap_get_occupant (h : Heap) (square : string) (row column : Z) :
  wf_heap h = true -> decode_location square = Ok (row, column) ->
  exists c, get_occupant h square = Ok c /\ wf_cell h c = true.
Proof.
  intros Hwf Hd. unfold get_occupant. rewrite Hd. cbn [res_bind].
  apply wf_heap_get_cell; [exact Hwf|]. eapply decode_location_range; eauto.
Qed.

Lemma wf_friendly (h : Heap) (self : Piece) (c : option nat) :
  wf_cell h c = true -> exists b, friendly h self c = Ok b.
Proof.
  destruct c as [r|]; [|simpl; eauto].
  intros Hc. apply wf_cell_deref in Hc. destruct Hc as [p Hp].
  unfold friendly. rewrite Hp. cbn [res_bind]. eauto.
Qed.

Lemma get_name_Cannon (p : Piece) :
  String.eqb (get_name p) "CA" = true <-> kind p = Cannon.
Proof. unfold get_name. destruct (kind p); simpl; split; congruence. Qed.

End HeapFacts.

(** ** Empty source square *)

(** C6, the claim as written fails: on the opening position, where e5 is
    empty, [Board.is_legal] raises instead of returning [False]. *)
Lemma is_legal_raises_on_empty_source :
  get_occupant initialize_board "e5" = Ok None
  /\ Board_is_legal "e5" "e6" initialize_board
     = (Raise AttributeError, initialize_board).
Proof. split; vm_compute; reflexivity. Qed.

(** C6, amended.  When the source square is empty, [Board.is_legal] does
    not return: reading the owner of [None] raises [AttributeError], before
    anything is written.  The answer [False] for an empty source comes from
    [make_move], whose own test on the source square returns [False], with
    the game unchanged, before [Board.is_legal] is called. *)
Theorem empty_source_rejected (fuel : nat) (g : JanggiGame)
    (source destination : string) :
  get_occupant (heap g) source = Ok None ->
  Board_is_legal source destination (heap g) = (Raise AttributeError, heap g)
  /\ (game_state g = UNFINISHED -> source <> destination ->
      make_move fuel source destination g = (Ok false, g)).
Proof.
  intros Hocc. split.
  - unfold get_occupant in Hocc.
    destruct (decode_location source) as [[row column]|e] eqn:Hd;
      cbn [res_bind] in Hocc; [|discriminate].
    unfold Board_is_legal.
    rewrite (bind_step _ _ (heap g) (row, column) (heap g))
      by (unfold read; now rewrite Hd).
    rewrite (bind_step _ _ (heap g) None (heap g))
      by (unfold read; now rewrite Hocc).
    reflexivity.
  - intros Hst Hne. unfold make_move.
    rewrite (bind_step _ _ g (game_state g) g) by reflexivity.
    rewrite Hst. cbn [GameState_eqb negb].
    apply String.eqb_neq in Hne. rewrite Hne.
    rewrite (bind_step _ _ g None g) by (rewrite on_board_read; now rewrite Hocc).
    reflexivity.
Qed.

Lemma empty_source_rejected_witness :
  Board_is_legal "e5" "e6" (heap new_game)
  = (Raise AttributeError, heap new_game)
  /\ (game_state new_game = UNFINISHED -> "e5" <> "e6" ->
      make_move 0 "e5" "e6" new_game = (Ok false, new_game)).
Proof.
  apply (empty_source_rejected 0 new_game "e5" "e6"). reflexivity.
Defined.

(** ** Soldier *)

Ltac split_eqb H :=
  repeat match type of H with
         | context [String.eqb ?a ?b] =>
             destruct (String.eqb_spec a b);
             [subst|]; cbn [orb andb negb] in H
         end.

(** C5, the claim as written fails: the diagonal test of [Soldier.is_legal]
    does not look at the owner, so a red Soldier standing on d3, a corner
    of its own palace, may step to e2, from row index 2 to row index 1,
    which is backward for red. *)
Lemma soldier_backward_diagonal_accepted :
  let self := piece Soldier "d3" red in
  piece_at red_soldier_at_home "d3" = Some self
  /\ Soldier_is_legal red_soldier_at_home self "d3" "e2" = Ok true
  /\ decode_location "d3" = Ok (2, 3)
  /\ decode_location "e2" = Ok (1, 4)
  /\ 1 - 2 <> forward_step (owner self).
Proof. repeat split; try (vm_compute; reflexivity). discriminate. Qed.

(** C5, amended.  For every board state and every Soldier: a move along a
    file is accepted only one row forward for the owner, never backward;
    every accepted diagonal step is a palace entry diagonal, corner to
    centre or centre to corner, one row and one column long; and that
    diagonal step is forward for the owner whenever the Soldier does not
    stand on the three rows of its own palace (rows 8-10 for blue, rows 1-3
    for red), where no Soldier can get in play. *)
Theorem soldier_steps (h : Heap) (self : Piece) (source destination : string)
    (from_row from_col to_row to_col : Z) :
  decode_location source = Ok (from_row, from_col) ->
  decode_location destination = Ok (to_row, to_col) ->
  Soldier_is_legal h self source destination = Ok true ->
  (from_col = to_col -> to_row - from_row = forward_step (owner self))
  /\ (from_row <> to_row -> from_col <> to_col ->
      palace_entry_diagonal source destination
      /\ Z.abs (to_row - from_row) = 1 /\ Z.abs (to_col - from_col) = 1
      /\ (outside_home_rows (owner self) from_row ->
          to_row - from_row = forward_step (owner self))).
Proof.
  intros Hs Hd H. unfold Soldier_is_legal in H. rewrite Hs, Hd in H.
  cbn [res_bind] in H.
  destruct (get_cell h to_row to_col) as [c|]; [|discriminate].
  cbn [res_bind] in H.
  destruct (friendly h self c) as [[]|]; try discriminate.
  cbn [res_bind] in H.
  destruct ((from_row =? to_row) && negb (Z.abs (to_col - from_col) =? 1))
    eqn:Eside; [discriminate|].
  destruct ((from_col =? to_col)
            && match owner self with
               | blue => negb (to_row - from_row =? -1)
               | red => negb (to_row - from_row =? 1)
               end) eqn:Efile; [discriminate|].
  split.
  - intros Hc. apply Z.eqb_eq in Hc. rewrite Hc in Efile.
    cbn [andb] in Efile. unfold forward_step.
    destruct (owner self); apply negb_false_iff in Efile; lia.
  - intros Hr Hc. apply Z.eqb_neq in Hr. apply Z.eqb_neq in Hc.
    rewrite Hr, Hc in H. cbn [negb andb] in H. injection H as H.
    unfold soldier_diagonal in H. split_eqb H; try discriminate;
      vm_compute in Hs; vm_compute in Hd;
      injection Hs as <- <-; injection Hd as <- <-;
      (split; [unfold palace_entry_diagonal; simpl; tauto|]);
      (split; [reflexivity|]); (split; [reflexivity|]);
      unfold outside_home_rows, forward_step; destruct (owner self); lia.
Qed.

Lemma soldier_steps_witness :
  (3 = 4 -> 1 - 2 = forward_step blue)
  /\ (2 <> 1 -> 3 <> 4 ->
      palace_entry_diagonal "d3" "e2"
      /\ Z.abs (1 - 2) = 1 /\ Z.abs (4 - 3) = 1
      /\ (outside_home_rows blue 2 -> 1 - 2 = forward_step blue)).
Proof.
  apply (soldier_steps blue_soldier_in_red_palace (piece Soldier "d3" blue)
           "d3" "e2");
    vm_compute; reflexivity.
Defined.

(** ** Paths *)

Section PathFacts.

Lemma dict_get_int_keys {V : Type} (d : list (Z * V)) (k : Z) (v : V) :
  dict_get_int d k = Ok v -> In k (map fst d).
Proof.
  induction d as [|[k' v'] d IH]; simpl; [discriminate|].
  destruct (Z.eqb_spec k k'); [now left | intros H; right; auto].
Qed.

Lemma encode_location_valid (row column : Z) (text : string) :
  encode_location row column = Ok text -> valid_index row column.
Proof.
  unfold encode_location.
  destruct (dict_get_int column_name column) as [c|] eqn:Ec; [|discriminate].
  destruct (dict_get_int row_name row) as [r|] eqn:Er; [|discriminate].
  intros _. apply dict_get_int_keys in Ec. apply dict_get_int_keys in Er.
  unfold valid_index. simpl in Ec, Er. lia.
Qed.

Lemma encode_location_decodable (row column : Z) (text : string) :
  encode_location row column = Ok text ->
  decode_location text = Ok (row, column).
Proof.
  intros H. destruct (encode_then_decode row column) as (t & Ht & Hd).
  - eapply encode_location_valid; eauto.
  - congruence.
Qed.

Lemma encode_each_decodable (f : Z -> res string) (xs : list Z) path :
  (forall x text, f x = Ok text -> decodable text) ->
  encode_each f xs = Ok path -> Forall decodable path.
Proof.
  intros Hf. revert path. induction xs as [|x xs IH]; simpl; intros path H.
  - injection H as <-. constructor.
  - destruct (f x) as [sq|] eqn:Ex; [|discriminate]. cbn [res_bind] in H.
    destruct (encode_each f xs) as [sqs|]; [|discriminate].
    injection H as <-. constructor; eauto.
Qed.

(** Every square on a path of a Chariot or a Cannon is a square of the
    board. *)
Lemma sliding_move_path_decodable (source destination : string) path :
  sliding_move_path source destination = Ok path -> Forall decodable path.
Proof.
  unfold sliding_move_path.
  destruct (decode_location source) as [[from_row from_col]|]; [|discriminate].
  destruct (decode_location destination) as [[to_row to_col]|]; [|discriminate].
  cbn [res_bind].
  destruct (_ && _ && _).
  { destruct (mem source blue_palace_corners); intros [= <-];
      (constructor; [|constructor]); do 2 eexists; reflexivity. }
  destruct (_ || _); [intros [= <-]; constructor|].
  assert (Hrow : forall x text, encode_location from_row x = Ok text ->
                                decodable text).
  { intros x text Hx. do 2 eexists. eapply encode_location_decodable; eauto. }
  assert (Hcol : forall x text, encode_location x from_col = Ok text ->
                                decodable text).
  { intros x text Hx. do 2 eexists. eapply encode_location_decodable; eauto. }
  match goal with |- context [res_bind ?m _] =>
    destruct m as [hz|] eqn:Eh; [|discriminate] end.
  cbn [res_bind].
  match goal with |- context [res_bind ?m _] =>
    destruct m as [vt|] eqn:Ev; [|discriminate] end.
  cbn [res_bind]. intros [= <-]. apply Forall_app. split.
  - destruct (from_row =? to_row); [|injection Eh as <-; constructor].
    destruct (to_col >? from_col);
      eapply (encode_each_decodable _ _ _ Hrow); eauto.
  - destruct (from_col =? to_col); [|injection Ev as <-; constructor].
    destruct (to_row >? from_row);
      eapply (encode_each_decodable _ _ _ Hcol); eauto.
Qed.

(** What the counting loop of [Cannon.is_legal] computes. *)
Lemma count_jumps_spec (h : Heap) (path : list string) :
  forall jumps cannon_in_path jumps' cannon_in_path',
  count_jumps h path jumps cannon_in_path = Ok (jumps', cannon_in_path') ->
  jumps' = jumps + Z.of_nat (length (occupied_squares h path))
  /\ cannon_in_path' = cannon_in_path || existsb (cannon_at h) path.
Proof.
  induction path as [|sq path IH]; intros j c j' c' H.
  - injection H as <- <-. simpl. split; [lia | now rewrite orb_false_r].
  - cbn [count_jumps] in H. unfold occupied_squares.
    cbn [existsb]. rewrite filter_cons.
    unfold cannon_at at 1, piece_at, is_occupied.
    destruct (get_occupant h sq) as [[r|]|] eqn:Eo; cbn [res_bind] in H;
      [| |discriminate].
    + unfold deref in H. destruct (objects h !! r) as [q|]; [|discriminate].
      cbn [res_bind] in H. rewrite decide_True by reflexivity.
      cbn [length].
      destruct (String.eqb (get_name q) "CA"); apply IH in H;
        destruct H as [-> ->]; unfold occupied_squares, is_occupied;
        (split; [lia|]).
      * cbn [orb]. now rewrite orb_true_r.
      * reflexivity.
    + rewrite decide_False by discriminate. apply IH in H.
      destruct H as [-> ->]. split; reflexivity.
Qed.

Lemma count_jumps_total (h : Heap) (path : list string) :
  wf_heap h = true -> Forall decodable path ->
  forall jumps cannon_in_path,
  exists r, count_jumps h path jumps cannon_in_path = Ok r.
Proof.
  intros Hwf Hp. induction Hp as [|sq path [row [col Hd]] _ IH]; intros j c.
  - simpl. eauto.
  - cbn [count_jumps].
    destruct (wf_heap_get_occupant h sq row col Hwf Hd) as (cell & Ho & Hc).
    rewrite Ho. cbn [res_bind]. destruct cell as [r|]; [|apply IH].
    apply wf_cell_deref in Hc. destruct Hc as [q Hq]. rewrite Hq.
    cbn [res_bind]. destruct (String.eqb (get_name q) "CA"); apply IH.
Qed.

End PathFacts.

(** ** Cannon *)

Section CannonFacts.

Lemma Color_eqb_eq (a b : Color) : Color_eqb a b = true <-> a = b.
Proof. destruct a, b; simpl; split; congruence. Qed.

Lemma no_cannon_on_path (h : Heap) (path : list string) :
  existsb (cannon_at h) path = false <->
  (forall square p, In square path -> piece_at h square = Some p ->
                    kind p <> Cannon).
Proof.
  split.
  - intros H square p Hin Hp Hk.
    assert (existsb (cannon_at h) path = true); [|congruence].
    apply existsb_exists. exists square. split; [exact Hin|].
    unfold cannon_at. rewrite Hp. now apply get_name_Cannon.
  - intros H. destruct (existsb (cannon_at h) path) eqn:E; [|reflexivity].
    apply existsb_exists in E. destruct E as (square & Hin & Hc).
    unfold cannon_at in Hc.
    destruct (piece_at h square) as [p|] eqn:Hp; [|discriminate].
    apply get_name_Cannon in Hc. exfalso. eapply H; eauto.
Qed.

(** A slide that changes both row and column and has a square on its
    path runs between two corners of one palace. *)
Lemma sliding_diagonal_in_palace (source destination : string) path
    (from_row from_col to_row to_col : Z) :
  decode_location source = Ok (from_row, from_col) ->
  decode_location destination = Ok (to_row, to_col) ->
  sliding_move_path source destination = Ok path ->
  path <> [] -> from_row <> to_row -> from_col <> to_col ->
  palace_diagonal source destination = true.
Proof.
  intros Hs Hd Hp Hne Hr Hc. unfold sliding_move_path in Hp.
  rewrite Hs, Hd in Hp. cbn [res_bind] in Hp.
  destruct (mem source palace_corners) eqn:Esrc; cbn [andb] in Hp.
  - destruct (mem destination palace_corners) eqn:Edst; cbn [andb] in Hp.
    + destruct (Z.abs (to_row - from_row) =? Z.abs (to_col - from_col))
        eqn:Eabs.
      * clear Hp Hne. apply mem_cases in Esrc. apply mem_cases in Edst.
        simpl in Esrc, Edst.
        repeat (destruct Esrc as [<-|Esrc]; [|]); try contradiction;
          repeat (destruct Edst as [<-|Edst]; [|]); try contradiction;
          vm_compute in Hs; vm_compute in Hd;
          injection Hs as <- <-; injection Hd as <- <-;
          first [reflexivity | discriminate Eabs | contradiction].
      * exfalso. destruct (_ || _); [now injection Hp as <-|].
        apply Z.eqb_neq in Hr, Hc. rewrite Hr, Hc in Hp.
        now injection Hp as <-.
    + exfalso. destruct (_ || _); [now injection Hp as <-|].
      apply Z.eqb_neq in Hr, Hc. rewrite Hr, Hc in Hp.
      now injection Hp as <-.
  - exfalso. destruct (_ || _); [now injection Hp as <-|].
    apply Z.eqb_neq in Hr, Hc. rewrite Hr, Hc in Hp.
    now injection Hp as <-.
Qed.

Lemma sliding_move_path_decodes (source destination : string) path :
  sliding_move_path source destination = Ok path ->
  exists from_row from_col to_row to_col,
    decode_location source = Ok (from_row, from_col)
    /\ decode_location destination = Ok (to_row, to_col).
Proof.
  unfold sliding_move_path.
  destruct (decode_location source) as [[fr fc]|]; [|discriminate].
  destruct (decode_location destination) as [[tr tc]|]; [|discriminate].
  intros _. now exists fr, fc, tr, tc.
Qed.

End CannonFacts.

(** ** Temporary moves *)

Section GridFacts.

Implicit Types b : list (list (option nat)).

Lemma get_cell_in_grid (h : Heap) row col x :
  get_cell h row col = Ok x -> in_grid (board h) row col.
Proof.
  unfold get_cell, in_grid.
  destruct (board h !! Z.to_nat row) as [cells|]; [|discriminate].
  destruct (cells !! Z.to_nat col) eqn:E; [|discriminate].
  intros _. exists cells. split; [reflexivity|].
  eapply lookup_lt_Some; eauto.
Qed.

Lemma in_grid_grid_set b row col row' col' v :
  in_grid b row col -> in_grid (grid_set b row' col' v) row col.
Proof.
  unfold in_grid, grid_set. intros (cells & Hc & Hl).
  destruct (b !! Z.to_nat row') as [cells'|] eqn:E; [|eauto].
  destruct (decide (Z.to_nat row' = Z.to_nat row)) as [Heq|Hne].
  - rewrite Heq in *. rewrite list_lookup_insert_eq
      by (eapply lookup_lt_Some; eauto).
    eexists. split; [reflexivity|]. rewrite length_insert. congruence.
  - rewrite list_lookup_insert_ne by exact Hne. eauto.
Qed.

Lemma get_cell_grid_get (h : Heap) row col :
  get_cell h row col
  = match grid_get (board h) row col with
    | Some x => Ok x
    | None => Raise IndexError
    end.
Proof.
  unfold get_cell, grid_get.
  destruct (board h !! Z.to_nat row) as [cells|]; [|reflexivity].
  now destruct (cells !! Z.to_nat col).
Qed.

Lemma grid_get_set_same b row col v :
  in_grid b row col -> grid_get (grid_set b row col v) row col = Some v.
Proof.
  unfold in_grid, grid_get, grid_set. intros (cells & Hc & Hl).
  rewrite Hc. rewrite list_lookup_insert_eq by (eapply lookup_lt_Some; eauto).
  now apply list_lookup_insert_eq.
Qed.

Lemma grid_get_set_other b row col row' col' v :
  (Z.to_nat row, Z.to_nat col) <> (Z.to_nat row', Z.to_nat col') ->
  grid_get (grid_set b row col v) row' col' = grid_get b row' col'.
Proof.
  unfold grid_get, grid_set. intros Hne.
  destruct (b !! Z.to_nat row) as [cells|] eqn:E; [|reflexivity].
  destruct (decide (Z.to_nat row = Z.to_nat row')) as [Heq|Hr].
  - rewrite <- Heq. rewrite list_lookup_insert_eq
      by (eapply lookup_lt_Some; eauto).
    rewrite E. apply list_lookup_insert_ne. congruence.
  - now rewrite list_lookup_insert_ne.
Qed.

Lemma grid_set_overwrite b row col v w :
  grid_set (grid_set b row col v) row col w = grid_set b row col w.
Proof.
  unfold grid_set. destruct (b !! Z.to_nat row) as [cells|] eqn:E.
  - rewrite list_lookup_insert_eq by (eapply lookup_lt_Some; eauto).
    now rewrite !list_insert_insert_eq.
  - now rewrite E.
Qed.

Lemma grid_set_id b row col v :
  grid_get b row col = Some v -> grid_set b row col v = b.
Proof.
  unfold grid_get, grid_set.
  destruct (b !! Z.to_nat row) as [cells|] eqn:E; [|reflexivity].
  intros Hc. rewrite (list_insert_id cells) by exact Hc.
  now apply list_insert_id.
Qed.

Lemma grid_set_commute b row col row' col' v w :
  (Z.to_nat row, Z.to_nat col) <> (Z.to_nat row', Z.to_nat col') ->
  grid_set (grid_set b row col v) row' col' w
  = grid_set (grid_set b row' col' w) row col v.
Proof.
  unfold grid_set. intros Hne.
  destruct (decide (Z.to_nat row = Z.to_nat row')) as [Heq|Hr].
  - rewrite <- Heq. destruct (b !! Z.to_nat row) as [cells|] eqn:E;
      [|now rewrite E].
    rewrite !list_lookup_insert_eq by (eapply lookup_lt_Some; eauto).
    rewrite !list_insert_insert_eq. f_equal.
    apply list_insert_insert_ne. congruence.
  - destruct (b !! Z.to_nat row) as [cells|] eqn:E;
      destruct (b !! Z.to_nat row') as [cells'|] eqn:E';
      rewrite ?list_lookup_insert_ne by congruence; rewrite ?E, ?E';
      try reflexivity.
    apply list_insert_insert_ne. congruence.
Qed.

(** Moving a piece and putting everything back leaves the grid as it
    was. *)
Lemma grid_restored b sr sc dr dc r cell :
  (Z.to_nat sr, Z.to_nat sc) <> (Z.to_nat dr, Z.to_nat dc) ->
  grid_get b sr sc = Some (Some r) -> grid_get b dr dc = Some cell ->
  grid_set (grid_set (grid_set (grid_set b dr dc (Some r)) sr sc None)
                     sr sc (Some r)) dr dc cell = b.
Proof.
  intros Hne Hs Hd. rewrite grid_set_overwrite.
  rewrite (grid_set_commute _ dr dc sr sc) by congruence.
  rewrite grid_set_overwrite. rewrite (grid_set_id b sr sc) by exact Hs.
  now apply grid_set_id.
Qed.

End GridFacts.

Section MoveFacts.

Lemma read_step {S A B : Type} (f : S -> res A) (k : A -> ST S B) s a :
  f s = Ok a -> bind (read f) k s = k a s.
Proof. intros H. unfold bind, read. now rewrite H. Qed.

Lemma modify_step {S B : Type} (f : S -> S) (k : unit -> ST S B) s :
  bind (modify f) k s = k tt (f s).
Proof. reflexivity. Qed.

Lemma write_cell_spec (h : Heap) row col v :
  in_grid (board h) row col ->
  write_cell row col v h
  = (Ok tt, set_board (grid_set (board h) row col v) h).
Proof.
  unfold in_grid, write_cell, grid_set. intros (cells & Hc & Hl).
  rewrite Hc. apply Nat.ltb_lt in Hl. now rewrite Hl.
Qed.

Lemma capture_frame (cell : option nat) (h : Heap) :
  objects (capture cell h) = objects h
  /\ board (capture cell h) = board h
  /\ temp (capture cell h) = temp h.
Proof.
  unfold capture. destruct cell as [d|]; [|tauto].
  destruct (objects h !! d) as [q|]; [|tauto].
  unfold remove_piece, modify. cbn [snd].
  destruct (existsb _ _); [|tauto]. destruct (owner q); cbn; tauto.
Qed.

(** What [move_piece] does to the heap. *)
Lemma move_piece_spec (h : Heap) (source destination : string)
    (sr sc dr dc : Z) (r : nat) (p : Piece) (cell : option nat) :
  decode_location source = Ok (sr, sc) ->
  decode_location destination = Ok (dr, dc) ->
  get_cell h sr sc = Ok (Some r) -> objects h !! r = Some p ->
  get_cell h dr dc = Ok cell -> wf_cell h cell = true ->
  move_piece source destination h
  = (Ok tt, moved h sr sc dr dc r p destination cell).
Proof.
  intros Hs Hd Hsrc Hp Hdst Hwc. unfold move_piece.
  rewrite (read_step _ _ h (sr, sc)) by exact Hs.
  rewrite (read_step _ _ h (dr, dc)) by exact Hd.
  rewrite (read_step _ _ h (Some r)) by exact Hsrc.
  rewrite (read_step _ _ h cell) by exact Hdst.
  destruct (capture_frame cell h) as (Ho & Hb & Ht).
  assert (Hcap : (match cell with
                  | None => ret tt
                  | Some d =>
                      let! q := read (fun h => deref h d) in
                      match owner q with
                      | blue => remove_piece blue d
                      | red => remove_piece red d
                      end
                  end) h = (Ok tt, capture cell h)).
  { destruct cell as [d|]; [|reflexivity].
    unfold capture, wf_cell in *. unfold bind, read, deref.
    destruct (objects h !! d) as [q|]; [|discriminate].
    now destruct (owner q). }
  rewrite (bind_step _ _ _ _ _ Hcap).
  rewrite (bind_step _ _ _ _ _
             (write_cell_spec (capture cell h) dr dc (Some r)
                ltac:(rewrite Hb; eapply get_cell_in_grid; eauto))).
  unfold set_location_of, Piece_set_location, bind at 1.
  cbn [objects set_board]. rewrite Ho, Hp.
  rewrite write_cell_spec.
  - unfold moved, set_board, set_objects.
    cbn [objects board temp blue_cart red_cart].
    rewrite ?Ho, ?Hb, ?Ht. reflexivity.
  - cbn [objects board temp blue_cart red_cart set_board set_objects].
    rewrite Hb. apply in_grid_grid_set.
    eapply get_cell_in_grid; eauto.
Qed.

(** What [undo_temp_move] does to the pieces and the grid. *)
Lemma undo_temp_move_spec (h : Heap) (source destination : string)
    (sr sc dr dc : Z) (r : nat) (p : Piece) :
  decode_location source = Ok (sr, sc) ->
  decode_location destination = Ok (dr, dc) ->
  (Z.to_nat sr, Z.to_nat sc) <> (Z.to_nat dr, Z.to_nat dc) ->
  in_grid (board h) sr sc ->
  get_cell h dr dc = Ok (Some r) -> objects h !! r = Some p ->
  wf_cell h (temp h) = true ->
  exists h', undo_temp_move source destination h = (Ok tt, h')
             /\ objects h' = <[r := set_location p source]> (objects h)
             /\ board h' = grid_set (grid_set (board h) sr sc (Some r))
                                    dr dc (temp h)
             /\ temp h' = None.
Proof.
  intros Hs Hd Hne Hin Hdst Hp Hwt. unfold undo_temp_move.
  rewrite (read_step _ _ h (temp h)) by reflexivity.
  rewrite (read_step _ _ h (sr, sc)) by exact Hs.
  rewrite (read_step _ _ h (dr, dc)) by exact Hd.
  rewrite (read_step _ _ h (Some r)) by exact Hdst.
  rewrite (bind_step _ _ _ _ _ (write_cell_spec h sr sc (Some r) Hin)).
  rewrite (read_step _ _ _ (Some r)).
  2:{ rewrite get_cell_grid_get. cbn [board set_board].
      now rewrite grid_get_set_same. }
  unfold set_location_of, Piece_set_location, bind at 1.
  cbn [objects set_board]. rewrite Hp.
  erewrite bind_step.
  2:{ apply write_cell_spec. cbn [board set_objects set_board].
      apply in_grid_grid_set. eapply get_cell_in_grid; eauto. }
  cbn [board objects set_board set_objects temp blue_cart red_cart].
  destruct (temp h) as [t|] eqn:Et.
  - unfold wf_cell in Hwt.
    assert (Hq : exists q, (<[r := set_location p source]> (objects h)) !! t
                           = Some q).
    { destruct (decide (r = t)) as [->|Hrt].
      - rewrite lookup_insert_eq. eauto.
      - rewrite lookup_insert_ne by exact Hrt.
        destruct (objects h !! t); [eauto | discriminate]. }
    destruct Hq as [q Hq].
    unfold bind at 1. unfold bind at 1, read, deref.
    cbn [objects set_board set_objects].
    rewrite Hq. unfold add_piece, modify.
    eexists. split; [reflexivity|].
    destruct (owner q); cbn; auto.
  - eexists. split; [reflexivity|]. cbn. auto.
Qed.

End MoveFacts.

Section SimulationFacts.

Lemma cells_differ (sr sc dr dc : Z) :
  valid_index sr sc -> valid_index dr dc -> (sr, sc) <> (dr, dc) ->
  (Z.to_nat sr, Z.to_nat sc) <> (Z.to_nat dr, Z.to_nat dc).
Proof.
  unfold valid_index. intros Hs Hd Hne [= Hr Hc]. apply Hne. f_equal; lia.
Qed.

Lemma set_location_back (p : Piece) :
  set_location p (location p) = p.
Proof. now destruct p. Qed.

Lemma wf_cell_insert (h : Heap) (cell : option nat) (r : nat) (p : Piece)
    (o : gmap nat Piece) (b : list (list (option nat))) t bc rc :
  wf_cell h cell = true ->
  wf_cell {| objects := <[r := p]> (objects h); board := b; temp := t;
             blue_cart := bc; red_cart := rc |} cell = true.
Proof.
  unfold wf_cell. destruct cell as [d|]; [|reflexivity]. cbn [objects].
  destruct (decide (r = d)) as [->|Hne].
  - now rewrite lookup_insert_eq.
  - now rewrite lookup_insert_ne.
Qed.

(** The temporary move and its undoing, step by step: the heap in the
    middle is [moved], and the heap at the end has the grid of the start
    and the moved piece's location set to [source]. *)
Lemma temporary_move_steps (h : Heap) (source destination : string)
    (sr sc dr dc : Z) (r : nat) (p : Piece) (cell : option nat) :
  decode_location source = Ok (sr, sc) ->
  decode_location destination = Ok (dr, dc) ->
  (sr, sc) <> (dr, dc) ->
  get_cell h sr sc = Ok (Some r) -> objects h !! r = Some p ->
  get_cell h dr dc = Ok cell -> wf_cell h cell = true ->
  let h1 := moved (set_temp cell h) sr sc dr dc r p destination cell in
  prep_temp_move destination h = (Ok tt, set_temp cell h)
  /\ move_piece source destination (set_temp cell h) = (Ok tt, h1)
  /\ exists h2, undo_temp_move source destination h1 = (Ok tt, h2)
                /\ board h2 = board h
                /\ objects h2 = <[r := set_location p source]> (objects h)
                /\ temp h2 = None.
Proof.
  intros Hs Hd Hne Hsrc Hp Hdst Hwc h1.
  assert (Hne' := cells_differ _ _ _ _ (decode_location_range _ _ _ Hs)
                    (decode_location_range _ _ _ Hd) Hne).
  split; [|split].
  - unfold prep_temp_move.
    rewrite (read_step _ _ h (dr, dc)) by exact Hd.
    now rewrite (read_step _ _ h cell) by exact Hdst.
  - now apply move_piece_spec.
  - assert (Hin_s : in_grid (board h) sr sc)
      by (eapply get_cell_in_grid; eauto).
    assert (Hin_d : in_grid (board h) dr dc)
      by (eapply get_cell_in_grid; eauto).
    destruct (undo_temp_move_spec h1 source destination sr sc dr dc r
                (set_location p destination)) as (h2 & Hu & Ho & Hb & Ht);
      try assumption.
    + subst h1. cbn [board moved set_temp]. now do 2 apply in_grid_grid_set.
    + rewrite get_cell_grid_get. subst h1. cbn [board moved set_temp].
      rewrite grid_get_set_other by congruence.
      now rewrite grid_get_set_same.
    + subst h1. cbn [objects moved set_temp]. apply lookup_insert_eq.
    + subst h1. unfold moved. cbn [temp set_temp].
      apply (wf_cell_insert h); [exact (objects h) | exact Hwc].
    + exists h2. split; [exact Hu|]. split; [|split; [|exact Ht]].
      * rewrite Hb. subst h1. cbn [board moved set_temp temp].
        apply grid_restored; try congruence.
        -- rewrite get_cell_grid_get in Hsrc.
           destruct (grid_get (board h) sr sc); congruence.
        -- rewrite get_cell_grid_get in Hdst.
           destruct (grid_get (board h) dr dc); congruence.
      * rewrite Ho. subst h1. cbn [objects moved set_temp].
        now rewrite insert_insert_eq.
Qed.

End SimulationFacts.

(** ** Simulate and roll back *)




(** ** The movement rules always answer on a well-formed board *)

Section RuleFacts.

Variable h : Heap.
Hypothesis Hwf : wf_heap h = true.

Lemma path_clear_total (path : list string) :
  Forall decodable path -> exists b, path_clear h path = Ok b.
Proof using Hwf.
  induction 1 as [|sq path [row [col Hd]] _ IH]; [simpl; eauto|].
  cbn [path_clear].
  destruct (wf_heap_get_occupant h sq row col Hwf Hd) as (cell & -> & _).
  cbn [res_bind]. destruct cell; eauto.
Qed.

Lemma In_range (a b x : Z) : In x (range a b) -> a <= x < b.
Proof.
  unfold range. rewrite in_map_iff. intros (i & <- & Hi).
  apply in_seq in Hi. lia.
Qed.

Lemma In_range_down (a b x : Z) : In x (range_down a b) -> b < x <= a.
Proof.
  unfold range_down. rewrite in_map_iff. intros (i & <- & Hi).
  apply in_seq in Hi. lia.
Qed.

Lemma encode_each_total (f : Z -> res string) (xs : list Z) :
  (forall x, In x xs -> exists text, f x = Ok text) ->
  exists path, encode_each f xs = Ok path.
Proof.
  induction xs as [|x xs IH]; intros Hf; [simpl; eauto|].
  cbn [encode_each]. destruct (Hf x) as [text ->]; [now left|].
  destruct IH as [path ->]; [intros; apply Hf; now right|].
  cbn [res_bind]. eauto.
Qed.

Lemma encode_location_total (row column : Z) :
  valid_index row column -> exists text, encode_location row column = Ok text.
Proof.
  intros Hv. destruct (encode_then_decode row column Hv) as (t & Ht & _).
  eauto.
Qed.

Lemma sliding_move_path_total (source destination : string)
    (from_row from_col to_row to_col : Z) :
  decode_location source = Ok (from_row, from_col) ->
  decode_location destination = Ok (to_row, to_col) ->
  exists path, sliding_move_path source destination = Ok path.
Proof.
  intros Hs Hd. unfold sliding_move_path. rewrite Hs, Hd. cbn [res_bind].
  apply decode_location_range in Hs, Hd. unfold valid_index in Hs, Hd.
  destruct (_ && _ && _); [eauto|]. destruct (_ || _); [eauto|].
  assert (Hh : exists hz,
             (if from_row =? to_row then
                if to_col >? from_col
                then encode_each (fun column => encode_location from_row column)
                                 (range (from_col + 1) to_col)
                else encode_each (fun column => encode_location from_row column)
                                 (range_down (from_col - 1) to_col)
              else Ok []) = Ok hz).
  { destruct (from_row =? to_row); [|eauto].
    destruct (to_col >? from_col); apply encode_each_total; intros x Hx;
      [apply In_range in Hx | apply In_range_down in Hx];
      apply encode_location_total; unfold valid_index; lia. }
  assert (Hv : exists vt,
             (if from_col =? to_col then
                if to_row >? from_row
                then encode_each (fun row => encode_location row from_col)
                                 (range (from_row + 1) to_row)
                else encode_each (fun row => encode_location row from_col)
                                 (range_down (from_row - 1) to_row)
              else Ok []) = Ok vt).
  { destruct (from_col =? to_col); [|eauto].
    destruct (to_row >? from_row); apply encode_each_total; intros x Hx;
      [apply In_range in Hx | apply In_range_down in Hx];
      apply encode_location_total; unfold valid_index; lia. }
  destruct Hh as [hz ->]. destruct Hv as [vt ->]. cbn [res_bind]. eauto.
Qed.

Ltac encode_steps :=
  repeat match goal with
         | |- context [?a =? ?b] => destruct (Z.eqb_spec a b)
         | |- context [encode_location ?r ?c] =>
             let t := fresh "t" in
             let Ht := fresh "Ht" in
             let Hd := fresh "Hd" in
             destruct (encode_then_decode r c) as (t & Ht & Hd);
             [unfold valid_index in *; lia|];
             rewrite Ht; cbn [res_bind]
         end.

Ltac path_done :=
  eexists; split; [reflexivity|];
  repeat constructor; do 2 eexists; eassumption.

Lemma Elephant_move_path_total (source destination : string)
    (from_row from_col to_row to_col : Z) :
  decode_location source = Ok (from_row, from_col) ->
  decode_location destination = Ok (to_row, to_col) ->
  (Z.abs (to_row - from_row) = 3 /\ Z.abs (to_col - from_col) = 2)
  \/ (Z.abs (to_row - from_row) = 2 /\ Z.abs (to_col - from_col) = 3) ->
  exists path, Elephant_move_path source destination = Ok path
               /\ Forall decodable path.
Proof.
  intros Hs Hd Hshape. unfold Elephant_move_path. rewrite Hs, Hd.
  cbn [res_bind].
  apply decode_location_range in Hs, Hd.
  encode_steps; path_done.
Qed.

Lemma Horse_move_path_total (source destination : string)
    (from_row from_col to_row to_col : Z) :
  decode_location source = Ok (from_row, from_col) ->
  decode_location destination = Ok (to_row, to_col) ->
  (Z.abs (to_row - from_row) = 2 /\ Z.abs (to_col - from_col) = 1)
  \/ (Z.abs (to_row - from_row) = 1 /\ Z.abs (to_col - from_col) = 2) ->
  exists path, Horse_move_path source destination = Ok path
               /\ Forall decodable path.
Proof.
  intros Hs Hd Hshape. unfold Horse_move_path. rewrite Hs, Hd.
  cbn [res_bind].
  apply decode_location_range in Hs, Hd.
  encode_steps; path_done.
Qed.

Lemma encode_each_In (f : Z -> res string) (xs : list Z) path square :
  encode_each f xs = Ok path -> In square path ->
  exists x, In x xs /\ f x = Ok square.
Proof.
  revert path. induction xs as [|x xs IH]; simpl; intros path H Hin.
  - injection H as <-. contradiction.
  - destruct (f x) as [sq|] eqn:Ex; [|discriminate]. cbn [res_bind] in H.
    destruct (encode_each f xs) as [sqs|]; [|discriminate].
    injection H as <-. destruct Hin as [<-|Hin]; [eauto|].
    destruct (IH sqs eq_refl Hin) as (y & Hy & Hfy). eauto.
Qed.

(** The path of a Chariot or a Cannon between two different cells holds
    only cells strictly between them: on the rank, on the file, or the
    palace centre between two opposite corners. *)
Lemma sliding_move_path_between (source destination : string) path
    (from_row from_col to_row to_col : Z) :
  decode_location source = Ok (from_row, from_col) ->
  decode_location destination = Ok (to_row, to_col) ->
  (from_row, from_col) <> (to_row, to_col) ->
  sliding_move_path source destination = Ok path ->
  forall square, In square path ->
  exists row col, decode_location square = Ok (row, col)
                  /\ strictly_between from_row from_col to_row to_col row col.
Proof.
  intros Hs Hd Hne Hp square Hin. unfold sliding_move_path in Hp.
  rewrite Hs, Hd in Hp. cbn [res_bind] in Hp. unfold strictly_between.
  destruct (mem source palace_corners && mem destination palace_corners
            && (Z.abs (to_row - from_row) =? Z.abs (to_col - from_col)))
    eqn:Ecorner.
  { apply andb_true_iff in Ecorner. destruct Ecorner as [Ecorner Eabs].
    apply andb_true_iff in Ecorner. destruct Ecorner as [Esrc Edst].
    apply mem_cases in Esrc. apply mem_cases in Edst. simpl in Esrc, Edst.
    repeat (destruct Esrc as [<-|Esrc]; [|]); try contradiction;
      repeat (destruct Edst as [<-|Edst]; [|]); try contradiction;
      vm_compute in Hs; vm_compute in Hd;
      injection Hs as <- <-; injection Hd as <- <-;
      try discriminate Eabs; try (exfalso; apply Hne; reflexivity);
      vm_compute in Hp; injection Hp as <-;
      destruct Hin as [<-|[]];
      do 2 eexists; (split; [reflexivity|]); right; right; lia. }
  destruct (_ || _); [injection Hp as <-; contradiction|].
  match type of Hp with res_bind ?m _ = _ =>
    destruct m as [hz|] eqn:Eh; [|discriminate] end.
  cbn [res_bind] in Hp.
  match type of Hp with res_bind ?m _ = _ =>
    destruct m as [vt|] eqn:Ev; [|discriminate] end.
  cbn [res_bind] in Hp. injection Hp as <-.
  apply in_app_or in Hin. destruct Hin as [Hin|Hin].
  - destruct (Z.eqb_spec from_row to_row) as [<-|];
      [|injection Eh as <-; contradiction].
    destruct (to_col >? from_col) eqn:Edir;
      destruct (encode_each_In _ _ _ _ Eh Hin) as (x & Hx & Hfx);
      [apply In_range in Hx | apply In_range_down in Hx];
      exists from_row, x;
      (split; [now apply encode_location_decodable|]); left; lia.
  - destruct (Z.eqb_spec from_col to_col) as [<-|];
      [|injection Ev as <-; contradiction].
    destruct (to_row >? from_row) eqn:Edir;
      destruct (encode_each_In _ _ _ _ Ev Hin) as (x & Hx & Hfx);
      [apply In_range in Hx | apply In_range_down in Hx];
      exists x, from_col;
      (split; [now apply encode_location_decodable|]); right; left; lia.
Qed.

End RuleFacts.

Section RuleTotality.

Variable h : Heap.
Hypothesis Hwf : wf_heap h = true.
Variables (self : Piece) (source destination : string).
Variables from_row from_col to_row to_col : Z.
Hypothesis Hs : decode_location source = Ok (from_row, from_col).
Hypothesis Hd : decode_location destination = Ok (to_row, to_col).

Ltac open_rule :=
  rewrite Hs, Hd; cbn [res_bind];
  let cell := fresh "cell" in
  let Hcell := fresh "Hcell" in
  let Hwc := fresh "Hwc" in
  destruct (wf_heap_get_cell h to_row to_col Hwf
              (decode_location_range _ _ _ Hd)) as (cell & Hcell & Hwc);
  rewrite Hcell; cbn [res_bind].

Ltac friendly_step cell Hwc :=
  let b := fresh "blocked" in
  let Hb := fresh "Hblocked" in
  destruct (wf_friendly h self cell Hwc) as [b Hb];
  rewrite Hb; cbn [res_bind]; destruct b; [eauto|].

Lemma General_is_legal_total :
  exists b, General_is_legal h self source destination = Ok b.
Proof using Hwf Hs Hd.
  unfold General_is_legal. open_rule.
  destruct (encode_location_total to_row to_col
              (decode_location_range _ _ _ Hd)) as [t ->].
  cbn [res_bind]. friendly_step cell Hwc.
  repeat (match goal with |- context [if ?c then _ else _] => destruct c end);
    eauto.
Qed.

Lemma Guard_is_legal_total :
  exists b, Guard_is_legal h self source destination = Ok b.
Proof using Hwf Hs Hd.
  unfold Guard_is_legal. open_rule. friendly_step cell Hwc.
  repeat (match goal with |- context [if ?c then _ else _] => destruct c end);
    eauto.
Qed.

Lemma Elephant_is_legal_total :
  exists b, Elephant_is_legal h self source destination = Ok b.
Proof using Hwf Hs Hd.
  unfold Elephant_is_legal. open_rule. friendly_step cell Hwc.
  destruct ((Z.abs (to_row - from_row) =? 3)
            && (Z.abs (to_col - from_col) =? 2)) eqn:E1.
  { destruct (Elephant_move_path_total source destination _ _ _ _ Hs Hd)
      as (path & -> & Hp); [left; lia|].
    cbn [res_bind]. now apply path_clear_total. }
  destruct ((Z.abs (to_row - from_row) =? 2)
            && (Z.abs (to_col - from_col) =? 3)) eqn:E2; [|eauto].
  destruct (Elephant_move_path_total source destination _ _ _ _ Hs Hd)
    as (path & -> & Hp); [right; lia|].
  cbn [res_bind]. now apply path_clear_total.
Qed.

Lemma Horse_is_legal_total :
  exists b, Horse_is_legal h self source destination = Ok b.
Proof using Hwf Hs Hd.
  unfold Horse_is_legal. open_rule. friendly_step cell Hwc.
  destruct ((Z.abs (to_row - from_row) =? 2)
            && (Z.abs (to_col - from_col) =? 1)) eqn:E1.
  { destruct (Horse_move_path_total source destination _ _ _ _ Hs Hd)
      as (path & -> & Hp); [left; lia|].
    cbn [res_bind]. now apply path_clear_total. }
  destruct ((Z.abs (to_row - from_row) =? 1)
            && (Z.abs (to_col - from_col) =? 2)) eqn:E2; [|eauto].
  destruct (Horse_move_path_total source destination _ _ _ _ Hs Hd)
    as (path & -> & Hp); [right; lia|].
  cbn [res_bind]. now apply path_clear_total.
Qed.

Lemma Chariot_is_legal_total :
  exists b, Chariot_is_legal h self source destination = Ok b.
Proof using Hwf Hs Hd.
  unfold Chariot_is_legal, Chariot_move_path. open_rule.
  friendly_step cell Hwc.
  destruct (sliding_move_path_total source destination _ _ _ _ Hs Hd)
    as [path Hp].
  rewrite Hp. cbn [res_bind].
  destruct (path_clear_total h Hwf path
              (sliding_move_path_decodable _ _ _ Hp)) as [clear ->].
  cbn [res_bind].
  repeat (match goal with |- context [if ?c then _ else _] => destruct c end);
    eauto.
Qed.

Lemma Cannon_is_legal_total :
  exists b, Cannon_is_legal h self source destination = Ok b.
Proof using Hwf Hs Hd.
  unfold Cannon_is_legal, Cannon_move_path. open_rule.
  assert (Href : exists refused,
             match cell with
             | None => Ok false
             | Some r =>
                 let? q := deref h r in
                 if Color_eqb (owner self) (owner q) then Ok true
                 else Ok (String.eqb (get_name q) "CA")
             end = Ok refused).
  { destruct cell as [r|]; [|eauto].
    destruct (wf_cell_deref h r Hwc) as [q ->]. cbn [res_bind].
    destruct (Color_eqb _ _); eauto. }
  destruct Href as [refused ->]. cbn [res_bind].
  destruct refused; [eauto|].
  destruct (sliding_move_path_total source destination _ _ _ _ Hs Hd)
    as [path Hp].
  rewrite Hp. cbn [res_bind].
  destruct (count_jumps_total h path Hwf
              (sliding_move_path_decodable _ _ _ Hp) 0 false)
    as [[jumps cip] ->].
  cbn [res_bind].
  repeat (match goal with |- context [if ?c then _ else _] => destruct c end);
    eauto.
Qed.

Lemma Soldier_is_legal_total :
  exists b, Soldier_is_legal h self source destination = Ok b.
Proof using Hwf Hs Hd.
  unfold Soldier_is_legal. open_rule. friendly_step cell Hwc.
  repeat (match goal with |- context [if ?c then _ else _] => destruct c end);
    eauto.
Qed.

(** On a well-formed board every movement rule returns a Boolean for
    every pair of decodable squares. *)
Lemma Piece_is_legal_total :
  exists b, Piece_is_legal h self source destination = Ok b.
Proof using Hwf Hs Hd.
  unfold Piece_is_legal. destruct (kind self).
  - apply General_is_legal_total.
  - apply Guard_is_legal_total.
  - apply Elephant_is_legal_total.
  - apply Horse_is_legal_total.
  - apply Chariot_is_legal_total.
  - apply Cannon_is_legal_total.
  - apply Soldier_is_legal_total.
Qed.

(** No rule lets a piece land on a piece of its own side. *)
Lemma Piece_is_legal_friendly (r : nat) (q : Piece) :
  get_cell h to_row to_col = Ok (Some r) -> objects h !! r = Some q ->
  owner q = owner self ->
  Piece_is_legal h self source destination = Ok false.
Proof using Hwf Hs Hd.
  intros Hcell Hq Ho.
  assert (Hf : friendly h self (Some r) = Ok true).
  { unfold friendly, deref. rewrite Hq. cbn [res_bind]. rewrite Ho.
    now rewrite (proj2 (Color_eqb_eq _ _) eq_refl). }
  unfold Piece_is_legal.
  destruct (kind self);
    [unfold General_is_legal | unfold Guard_is_legal
     | unfold Elephant_is_legal | unfold Horse_is_legal
     | unfold Chariot_is_legal | unfold Cannon_is_legal
     | unfold Soldier_is_legal];
    rewrite Hs, Hd; cbn [res_bind]; rewrite Hcell; cbn [res_bind];
    try (rewrite Hf; reflexivity).
  - destruct (encode_location_total to_row to_col
                (decode_location_range _ _ _ Hd)) as [t ->].
    cbn [res_bind]. now rewrite Hf.
  - unfold deref. rewrite Hq. cbn [res_bind]. rewrite Ho.
    now rewrite (proj2 (Color_eqb_eq _ _) eq_refl).
Qed.

End RuleTotality.

Lemma is_in_check_ignores_temp (h : Heap) (t : option nat) (player : Color) :
  is_in_check (set_temp t h) player = is_in_check h player.
Proof. reflexivity. Qed.

Lemma moved_set_temp (h : Heap) sr sc dr dc r p destination cell t :
  moved (set_temp t h) sr sc dr dc r p destination cell
  = set_temp t (moved h sr sc dr dc r p destination cell).
Proof.
  unfold moved, capture, set_temp. cbn [objects board temp].
  destruct cell as [d|]; [|reflexivity].
  destruct (objects h !! d) as [q|]; [|reflexivity].
  unfold remove_piece, modify. cbn [snd].
  destruct (owner q); cbn [get_cart blue_cart red_cart];
    destruct (existsb _ _); reflexivity.
Qed.

(** ** Self-check *)

Section SelfCheckFacts.

Lemma move_piece_Ok_inv (h h' : Heap) (source destination : string) :
  move_piece source destination h = (Ok tt, h') ->
  exists sr sc dr dc r,
    decode_location source = Ok (sr, sc)
    /\ decode_location destination = Ok (dr, dc)
    /\ get_cell h sr sc = Ok (Some r).
Proof.
  unfold move_piece. intros H.
  apply bind_Ok in H. destruct H as ([sr sc] & h1 & H1 & H).
  apply read_Ok in H1. destruct H1 as [Hs ->].
  apply bind_Ok in H. destruct H as ([dr dc] & h1 & H1 & H).
  apply read_Ok in H1. destruct H1 as [Hd ->].
  apply bind_Ok in H. destruct H as (source_piece & h1 & H1 & H).
  apply read_Ok in H1. destruct H1 as [Hsrc ->].
  apply bind_Ok in H. destruct H as (dest_piece & h1 & H1 & H).
  apply read_Ok in H1. destruct H1 as [Hdst ->].
  apply bind_Ok in H. destruct H as ([] & h1 & _ & H).
  apply bind_Ok in H. destruct H as ([] & h2 & _ & H).
  apply bind_Ok in H. destruct H as ([] & h3 & H3 & _).
  destruct source_piece as [r|]; [|discriminate H3].
  now exists sr, sc, dr, dc, r.
Qed.


End SelfCheckFacts.



(** ** Checkmate search *)

(** C3, what the code does.  The first loop of [Board.is_in_checkmate]
    tests each opposing piece with [Board.is_legal], the composite test,
    and not with the piece's own movement predicate.  In the position
    [pinned_attacker] blue is in check from the red Chariot on e3, whose
    movement predicate reaches the blue General on e10; but taking the
    General would uncover the red General, so [Board.is_legal] answers
    [False] and the list of attackers comes out empty.  The search then
    never looks for a capture of the Chariot, which the blue Chariot on i3
    could make, and declares checkmate. *)
Lemma attacker_list_omits_pinned_attacker :
  let h := pinned_attacker in
  let red_chariot := piece Chariot "e3" red in
  wf_heap h = true
  /\ is_in_check h blue = Ok true
  /\ piece_at h "e3" = Some red_chariot
  /\ Piece_is_legal h red_chariot "e3" "e10" = Ok true
  /\ fst (Board_is_legal "e3" "e10" h) = Ok false
  /\ fst (populate_attacker_list 100 red "e10" 0 [] h) = Ok []
  /\ fst (Board_is_legal "i3" "e3" h) = Ok true
  /\ fst (is_in_checkmate 100 blue h) = Ok true.
Proof. repeat split; vm_compute; reflexivity. Qed.

(* ================================================================== *)
(** * Further properties of the code *)

(** ** Temporary moves, in general *)

Section FrameFacts.

Lemma same_grid_refl (h : Heap) : same_grid h h.
Proof. split; auto. Qed.

Lemma same_grid_trans (h1 h2 h3 : Heap) :
  same_grid h1 h2 -> same_grid h2 h3 -> same_grid h1 h3.
Proof. intros [Hb1 Ho1] [Hb2 Ho2]. split; [congruence | auto]. Qed.

Lemma wf_cell_same_objects (h h' : Heap) (c : option nat) :
  (forall r, objects h !! r <> None -> objects h' !! r <> None) ->
  wf_cell h c = true -> wf_cell h' c = true.
Proof.
  unfold wf_cell. destruct c as [r|]; [|reflexivity]. intros Ho Hc.
  specialize (Ho r). destruct (objects h !! r); [|discriminate].
  destruct (objects h' !! r); [reflexivity|]. now exfalso; apply Ho.
Qed.

Lemma wf_heap_same_grid (h h' : Heap) :
  same_grid h h' -> wf_heap h = true -> wf_heap h' = true.
Proof.
  intros [Hb Ho]. unfold wf_heap. rewrite Hb. intros H.
  apply andb_true_iff in H. destruct H as [Hl Hrows]. rewrite Hl.
  cbn [andb]. rewrite forallb_forall in *. intros row Hrow.
  specialize (Hrows row Hrow). apply andb_true_iff in Hrows.
  destruct Hrows as [Hlen Hcells]. rewrite Hlen. cbn [andb].
  rewrite forallb_forall in *. intros c Hc.
  eapply wf_cell_same_objects; eauto.
Qed.

Lemma prep_temp_move_Ok (h h1 : Heap) (destination : string) :
  prep_temp_move destination h = (Ok tt, h1) ->
  exists dr dc cell, decode_location destination = Ok (dr, dc)
                     /\ get_cell h dr dc = Ok cell /\ h1 = set_temp cell h.
Proof.
  unfold prep_temp_move. intros H.
  apply bind_Ok in H. destruct H as ([dr dc] & h0 & H0 & H).
  apply read_Ok in H0. destruct H0 as [Hd ->].
  apply bind_Ok in H. destruct H as (cell & h0 & H0 & H).
  apply read_Ok in H0. destruct H0 as [Hc ->].
  injection H as <-. now exists dr, dc, cell.
Qed.

(** [undo_temp_move] raises when the destination cell is empty. *)
Lemma undo_temp_move_empty (h h' : Heap) (source destination : string)
    (dr dc : Z) :
  decode_location destination = Ok (dr, dc) ->
  get_cell h dr dc = Ok None ->
  undo_temp_move source destination h <> (Ok tt, h').
Proof.
  intros Hd Hdst H. unfold undo_temp_move in H.
  apply bind_Ok in H. destruct H as (t & h0 & H0 & H).
  apply read_Ok in H0. destruct H0 as [_ ->].
  apply bind_Ok in H. destruct H as ([sr sc] & h0 & H0 & H).
  apply read_Ok in H0. destruct H0 as [Hs ->].
  apply bind_Ok in H. destruct H as ([dr' dc'] & h0 & H0 & H).
  apply read_Ok in H0. destruct H0 as [Hd' ->].
  assert (dr' = dr /\ dc' = dc) as [-> ->] by (split; congruence).
  apply bind_Ok in H. destruct H as (mv & h0 & H0 & H).
  apply read_Ok in H0. destruct H0 as [Hmv ->].
  assert (mv = None) as -> by congruence.
  apply bind_Ok in H. destruct H as ([] & h1 & Hw & H).
  apply bind_Ok in H. destruct H as (back & h2 & Hback & H).
  apply read_Ok in Hback. destruct Hback as [Hback ->].
  apply bind_Ok in H. destruct H as ([] & h3 & Hset & _).
  assert (Hin : in_grid (board h) sr sc).
  { unfold write_cell in Hw. unfold in_grid.
    destruct (board h !! Z.to_nat sr) as [cells|]; [|discriminate].
    destruct (Z.to_nat sc <? length cells)%nat eqn:E; [|discriminate].
    apply Nat.ltb_lt in E. eauto. }
  rewrite (write_cell_spec h sr sc None Hin) in Hw. injection Hw as <-.
  rewrite get_cell_grid_get in Hback. cbn [board set_board] in Hback.
  rewrite grid_get_set_same in Hback by exact Hin.
  injection Hback as <-. discriminate Hset.
Qed.

(** A temporary move that went through all its steps was made between
    two different cells and put the grid back. *)
Lemma temporary_move_frame (h h1 h2 h3 : Heap) (source destination : string) :
  wf_heap h = true ->
  prep_temp_move destination h = (Ok tt, h1) ->
  move_piece source destination h1 = (Ok tt, h2) ->
  undo_temp_move source destination h2 = (Ok tt, h3) ->
  exists sr sc dr dc r p cell,
    decode_location source = Ok (sr, sc)
    /\ decode_location destination = Ok (dr, dc)
    /\ (sr, sc) <> (dr, dc)
    /\ get_cell h sr sc = Ok (Some r) /\ objects h !! r = Some p
    /\ get_cell h dr dc = Ok cell /\ wf_cell h cell = true
    /\ h2 = moved (set_temp cell h) sr sc dr dc r p destination cell
    /\ board h3 = board h
    /\ objects h3 = <[r := set_location p source]> (objects h)
    /\ temp h3 = None.
Proof.
  intros Hwf Hprep Hmove Hundo.
  destruct (prep_temp_move_Ok _ _ _ Hprep) as (dr & dc & cell & Hd & Hdst & ->).
  destruct (move_piece_Ok_inv _ _ _ _ Hmove)
    as (sr & sc & dr' & dc' & r & Hs & Hd' & Hsrc).
  assert (dr' = dr /\ dc' = dc) as [-> ->] by (split; congruence).
  change (get_cell h sr sc = Ok (Some r)) in Hsrc.
  destruct (wf_heap_get_cell h sr sc Hwf (decode_location_range _ _ _ Hs))
    as (c & Hc & Hwr).
  assert (c = Some r) as -> by congruence. clear Hc.
  destruct (wf_cell_deref _ _ Hwr) as [p Hp]. unfold deref in Hp.
  destruct (objects h !! r) as [p0|] eqn:Hobj; [|discriminate].
  injection Hp as ->.
  destruct (wf_heap_get_cell h dr dc Hwf (decode_location_range _ _ _ Hd))
    as (c & Hc & Hwc).
  assert (c = cell) as -> by congruence. clear Hc.
  assert (Hm : move_piece source destination (set_temp cell h)
               = (Ok tt, moved (set_temp cell h) sr sc dr dc r p
                               destination cell))
    by (now apply move_piece_spec).
  rewrite Hm in Hmove. injection Hmove as <-.
  assert (Hne : (sr, sc) <> (dr, dc)).
  { intros [= -> ->]. revert Hundo.
    apply (undo_temp_move_empty _ _ _ _ dr dc Hd).
    rewrite get_cell_grid_get. cbn [board moved set_temp].
    rewrite grid_get_set_same; [reflexivity|].
    apply in_grid_grid_set. eapply get_cell_in_grid; eauto. }
  destruct (temporary_move_steps h source destination sr sc dr dc r p cell
              Hs Hd Hne Hsrc Hobj Hdst Hwc)
    as (_ & _ & h2 & Hundo' & Hb & Ho & Ht).
  rewrite Hundo' in Hundo. injection Hundo as <-.
  exists sr, sc, dr, dc, r, p, cell. repeat split; auto.
Qed.

(** Everything [Board.is_legal] can do when it returns: the source holds
    a piece; either its rule refuses the move and nothing is written, or
    the rule allows it, the two cells differ, the answer is the negation
    of "the mover is in check once the move is made", and the grid is put
    back. *)
Lemma Board_is_legal_Ok (h h' : Heap) (source destination : string)
    (b : bool) :
  wf_heap h = true ->
  Board_is_legal source destination h = (Ok b, h') ->
  exists sr sc r p,
    decode_location source = Ok (sr, sc)
    /\ get_cell h sr sc = Ok (Some r) /\ objects h !! r = Some p
    /\ ((Piece_is_legal h p source destination = Ok false
         /\ b = false /\ h' = h)
        \/ (Piece_is_legal h p source destination = Ok true
            /\ exists dr dc cell,
                 decode_location destination = Ok (dr, dc)
                 /\ (sr, sc) <> (dr, dc)
                 /\ get_cell h dr dc = Ok cell
                 /\ wf_cell h cell = true
                 /\ is_in_check (moved h sr sc dr dc r p destination cell)
                                (owner p) = Ok (negb b)
                 /\ board h' = board h
                 /\ objects h' = <[r := set_location p source]> (objects h)
                 /\ temp h' = None)).
Proof.
  intros Hwf H. unfold Board_is_legal in H.
  apply bind_Ok in H. destruct H as ([sr sc] & h0 & H0 & H).
  apply read_Ok in H0. destruct H0 as [Hs ->].
  apply bind_Ok in H. destruct H as (source_piece & h0 & H0 & H).
  apply read_Ok in H0. destruct H0 as [Hsrc ->].
  apply bind_Ok in H. destruct H as (p & h0 & H0 & H).
  apply read_Ok in H0. destruct H0 as [Hp ->].
  destruct source_piece as [r|]; [|discriminate Hp].
  unfold owner_of, deref in Hp.
  destruct (objects h !! r) as [p0|] eqn:Hobj; [|discriminate].
  injection Hp as ->.
  apply bind_Ok in H. destruct H as (movable & h0 & H0 & H).
  apply read_Ok in H0. destruct H0 as [Hm ->].
  exists sr, sc, r, p. repeat (split; [assumption|]).
  destruct movable; [right | left; injection H as <- <-; auto].
  split; [exact Hm|].
  apply bind_Ok in H. destruct H as ([] & h1 & Hprep & H).
  apply bind_Ok in H. destruct H as ([] & h2 & Hmove & H).
  apply bind_Ok in H. destruct H as (checked & h0 & H0 & H).
  apply read_Ok in H0. destruct H0 as [Hchk ->].
  assert (Hu : exists h3, undo_temp_move source destination h2 = (Ok tt, h3)
                          /\ h' = h3 /\ b = negb checked).
  { destruct checked; apply bind_Ok in H; destruct H as ([] & h3 & Hu & H);
      injection H as <- <-; eauto. }
  destruct Hu as (h3 & Hundo & -> & ->).
  destruct (temporary_move_frame _ _ _ _ _ _ Hwf Hprep Hmove Hundo)
    as (sr' & sc' & dr & dc & r' & p' & cell & Hs' & Hd & Hne & Hsrc' & Hobj'
        & Hdst & Hwc & -> & Hb & Ho & Ht).
  assert (sr' = sr /\ sc' = sc) as [-> ->] by (split; congruence).
  assert (r' = r) as -> by congruence.
  assert (p' = p) as -> by congruence.
  exists dr, dc, cell. repeat (split; [assumption|]).
  split; [|auto].
  rewrite moved_set_temp, is_in_check_ignores_temp in Hchk.
  now rewrite negb_involutive.
Qed.

End FrameFacts.

(** ** What the checkmate search leaves behind *)

Section KeepsGrid.

Lemma keeps_grid_ret {A : Type} (a : A) : keeps_grid (ret a).
Proof. intros h a' h' _ [= _ <-]. apply same_grid_refl. Qed.

Lemma keeps_grid_read {A : Type} (f : Heap -> res A) : keeps_grid (read f).
Proof.
  intros h a h' _ H. apply read_Ok in H. destruct H as [_ ->].
  apply same_grid_refl.
Qed.

Lemma keeps_grid_bind {A B : Type} (m : ST Heap A) (k : A -> ST Heap B) :
  keeps_grid m -> (forall a, keeps_grid (k a)) -> keeps_grid (bind m k).
Proof.
  intros Hm Hk h b h' Hwf H. apply bind_Ok in H.
  destruct H as (a & h1 & H1 & H2).
  assert (S1 := Hm _ _ _ Hwf H1).
  eapply same_grid_trans; [exact S1|].
  eapply Hk; [|exact H2]. eapply wf_heap_same_grid; eauto.
Qed.

Lemma keeps_grid_Board_is_legal (source destination : string) :
  keeps_grid (Board_is_legal source destination).
Proof.
  intros h b h' Hwf H.
  destruct (Board_is_legal_Ok _ _ _ _ _ Hwf H)
    as (sr & sc & r & p & _ & _ & Hobj & [(_ & _ & ->)|(_ & Hrest)]).
  - apply same_grid_refl.
  - destruct Hrest as (dr & dc & cell & _ & _ & _ & _ & _ & Hb & Ho & _).
    split; [exact Hb|]. intros r0 Hr0. rewrite Ho.
    destruct (decide (r = r0)) as [->|Hne].
    + now rewrite lookup_insert_eq.
    + now rewrite lookup_insert_ne.
Qed.

Lemma keeps_grid_for_each {A R : Type} (xs : list A)
    (body : A -> ST Heap (flow R)) :
  (forall x, keeps_grid (body x)) -> keeps_grid (for_each xs body).
Proof.
  intros Hbody. induction xs as [|x xs IH]; cbn [for_each].
  - apply keeps_grid_ret.
  - apply keeps_grid_bind; [apply Hbody|].
    intros [|v]; [exact IH | apply keeps_grid_ret].
Qed.

Lemma keeps_grid_for_cart {R : Type} (fuel : nat) (player : Color)
    (body : nat -> ST Heap (flow R)) :
  (forall x, keeps_grid (body x)) ->
  forall i, keeps_grid (for_cart fuel player i body).
Proof.
  intros Hbody. induction fuel as [|fuel IH]; intros i h f h' Hwf H;
    cbn [for_cart] in H;
    destruct (get_cart h player !! i) as [piece|];
    try (injection H as _ <-; apply same_grid_refl); try discriminate.
  revert H. apply keeps_grid_bind; [apply Hbody | | exact Hwf].
  intros [|v]; [apply IH | apply keeps_grid_ret].
Qed.

Lemma keeps_grid_populate_attacker_list (fuel : nat) (opponent : Color)
    (gen_loc : string) :
  forall i attacker_list,
    keeps_grid (populate_attacker_list fuel opponent gen_loc i attacker_list).
Proof.
  induction fuel as [|fuel IH]; intros i acc h l h' Hwf H;
    cbn [populate_attacker_list] in H;
    destruct (get_cart h opponent !! i) as [piece|];
    try (injection H as _ <-; apply same_grid_refl); try discriminate.
  revert H. apply keeps_grid_bind; [apply keeps_grid_read | | exact Hwf].
  intros p. apply keeps_grid_bind; [apply keeps_grid_Board_is_legal|].
  intros threat. apply IH.
Qed.

Lemma keeps_grid_some_defender_reaches (fuel : nat) (player : Color)
    (target : ST Heap string) :
  keeps_grid target -> keeps_grid (some_defender_reaches fuel player target).
Proof.
  intros Ht. unfold some_defender_reaches. apply keeps_grid_for_cart.
  intros piece. apply keeps_grid_bind; [apply keeps_grid_read|].
  intros p. apply keeps_grid_bind; [exact Ht|].
  intros square. apply keeps_grid_bind; [apply keeps_grid_Board_is_legal|].
  intros []; apply keeps_grid_ret.
Qed.

(** The temporary move of the General in the last loop of
    [is_in_checkmate]. *)
Lemma keeps_grid_trial {R : Type} (source destination : string)
    (test : Heap -> res bool) (k : bool -> R) :
  keeps_grid
    (prep_temp_move destination ;;
     move_piece source destination ;;
     let! checked := read test in
     if negb checked
     then undo_temp_move source destination ;; ret (k true)
     else undo_temp_move source destination ;; ret (k false)).
Proof.
  intros h a h' Hwf H.
  apply bind_Ok in H. destruct H as ([] & h1 & Hprep & H).
  apply bind_Ok in H. destruct H as ([] & h2 & Hmove & H).
  apply bind_Ok in H. destruct H as (checked & h0 & H0 & H).
  apply read_Ok in H0. destruct H0 as [_ ->].
  assert (Hu : exists h3, undo_temp_move source destination h2 = (Ok tt, h3)
                          /\ h' = h3).
  { destruct (negb checked); apply bind_Ok in H;
      destruct H as ([] & h3 & Hu & H); injection H as _ <-; eauto. }
  destruct Hu as (h3 & Hundo & ->).
  destruct (temporary_move_frame _ _ _ _ _ _ Hwf Hprep Hmove Hundo)
    as (sr & sc & dr & dc & r & p & cell & _ & _ & _ & _ & Hobj
        & _ & _ & _ & Hb & Ho & _).
  split; [exact Hb|]. intros r0 Hr0. rewrite Ho.
  destruct (decide (r = r0)) as [->|Hne].
  - now rewrite lookup_insert_eq.
  - now rewrite lookup_insert_ne.
Qed.

(** [Board.is_in_checkmate] leaves every cell of the grid as it found
    it. *)
Lemma keeps_grid_is_in_checkmate (fuel : nat) (player : Color) :
  keeps_grid (is_in_checkmate fuel player).
Proof.
  unfold is_in_checkmate.
  apply keeps_grid_bind; [apply keeps_grid_read|]. intros in_check.
  destruct (negb in_check); [apply keeps_grid_ret|].
  apply keeps_grid_bind; [apply keeps_grid_read|]. intros general.
  apply keeps_grid_bind; [apply keeps_grid_read|]. intros gen_loc.
  apply keeps_grid_bind; [apply keeps_grid_populate_attacker_list|].
  intros attacker_list.
  apply keeps_grid_bind.
  { apply keeps_grid_for_each. intros attacker.
    apply keeps_grid_bind.
    - apply keeps_grid_some_defender_reaches. apply keeps_grid_read.
    - intros [|v]; [|apply keeps_grid_ret].
      apply keeps_grid_bind; [apply keeps_grid_read|]. intros a.
      apply keeps_grid_bind; [apply keeps_grid_read|]. intros path.
      apply keeps_grid_for_each. intros square.
      apply keeps_grid_some_defender_reaches. apply keeps_grid_ret. }
  intros [|v]; [|apply keeps_grid_ret].
  apply keeps_grid_bind.
  { apply keeps_grid_for_each. intros square.
    apply keeps_grid_bind; [apply keeps_grid_read|]. intros g.
    apply keeps_grid_bind; [apply keeps_grid_read|]. intros movable.
    destruct movable; [|apply keeps_grid_ret].
    exact (keeps_grid_trial gen_loc square _
             (fun free => if free then Return false else Continue)). }
  intros [|v]; apply keeps_grid_ret.
Qed.

End KeepsGrid.

(** ** Every way [make_move] can return *)

Section MakeMoveFacts.

Lemma set_heap_heap (g : JanggiGame) : set_heap (heap g) g = g.
Proof. now destruct g. Qed.

Lemma make_move_Ok (fuel : nat) (g g' : JanggiGame)
    (source destination : string) (b : bool) :
  make_move fuel source destination g = (Ok b, g') ->
  (game_state g <> UNFINISHED /\ b = false /\ g' = g)
  \/ (game_state g = UNFINISHED /\ source = destination
      /\ is_in_check (heap g) (current_player g) = Ok (negb b)
      /\ g' = if b then toggle_players g else g)
  \/ (game_state g = UNFINISHED /\ source <> destination
      /\ get_occupant (heap g) source = Ok None /\ b = false /\ g' = g)
  \/ (game_state g = UNFINISHED /\ source <> destination
      /\ exists r p,
           get_occupant (heap g) source = Ok (Some r)
           /\ objects (heap g) !! r = Some p
           /\ ((owner p <> current_player g /\ b = false /\ g' = g)
               \/ (owner p = current_player g
                   /\ exists h1,
                        Board_is_legal source destination (heap g)
                        = (Ok b, h1)
                        /\ ((b = false /\ g' = set_heap h1 g)
                            \/ (b = true
                                /\ exists h2 h3 mate,
                                     move_piece source destination h1
                                     = (Ok tt, h2)
                                     /\ is_in_checkmate fuel
                                          (opponent_of (current_player g)) h2
                                        = (Ok mate, h3)
                                     /\ g' = {| heap := h3;
                                                game_state :=
                                                  if mate
                                                  then won_by (current_player g)
                                                  else game_state g;
                                                current_player :=
                                                  opponent_of (current_player g)
                                             |}))))).
Proof.
  unfold make_move. intros H.
  apply bind_Ok in H. destruct H as (st & g1 & H1 & H).
  apply read_Ok in H1. destruct H1 as [[= <-] ->].
  destruct (game_state g) eqn:Hst; cbn [GameState_eqb negb] in H;
    try (left; injection H as <- <-; repeat split; congruence).
  right.
  destruct (String.eqb_spec source destination) as [Heq|Hne].
  { left. split; [reflexivity|]. split; [exact Heq|].
    apply bind_Ok in H. destruct H as (pl & g1 & H1 & H).
    apply read_Ok in H1. destruct H1 as [[= <-] ->].
    apply bind_Ok in H. destruct H as (chk & g1 & H1 & H).
    rewrite on_board_read in H1. injection H1 as H1 <-.
    destruct chk.
    - injection H as <- <-. auto.
    - cbn [bind modify ret] in H. injection H as <- <-. auto. }
  right.
  apply bind_Ok in H. destruct H as (occ & g1 & H1 & H).
  rewrite on_board_read in H1. injection H1 as Hocc <-.
  destruct occ as [r|]; [right | left; injection H as <- <-; auto].
  split; [reflexivity|]. split; [exact Hne|].
  apply bind_Ok in H. destruct H as (occ' & g1 & H2 & H).
  rewrite on_board_read in H2. injection H2 as H2 <-.
  assert (occ' = Some r) as -> by congruence.
  apply bind_Ok in H. destruct H as (p & g1 & H3 & H).
  rewrite on_board_read in H3. injection H3 as H3 <-.
  unfold owner_of, deref in H3.
  destruct (objects (heap g) !! r) as [p0|] eqn:Hobj; [|discriminate].
  injection H3 as ->.
  exists r, p. split; [exact Hocc|]. split; [first [exact Hobj | reflexivity]|].
  apply bind_Ok in H. destruct H as (pl & g1 & H4 & H).
  apply read_Ok in H4. destruct H4 as [[= <-] ->].
  destruct (Color_eqb (owner p) (current_player g)) eqn:Eo; cbn [negb] in H.
  2:{ left. injection H as <- <-. repeat split; auto.
      intros Heq. apply Color_eqb_eq in Heq. congruence. }
  right. split; [now apply Color_eqb_eq|].
  apply bind_Ok in H. destruct H as (legal & g1 & H5 & H).
  unfold on_board in H5.
  destruct (Board_is_legal source destination (heap g)) as [rl h1] eqn:Hl.
  injection H5 as -> <-.
  destruct legal.
  2:{ injection H as <- <-. exists h1. split; [first [exact Hl | reflexivity]|]. now left. }
  apply bind_Ok in H. destruct H as ([] & g2 & H6 & H).
  unfold on_board in H6. cbn [heap set_heap] in H6.
  destruct (move_piece source destination h1) as [rm h2] eqn:Hm.
  injection H6 as -> <-.
  apply bind_Ok in H. destruct H as ([] & g3 & H7 & H).
  injection H7 as <-.
  apply bind_Ok in H. destruct H as (pl' & g4 & H8 & H).
  apply read_Ok in H8. destruct H8 as [[= <-] ->].
  apply bind_Ok in H. destruct H as (mate & g4 & H9 & H).
  unfold on_board in H9. rewrite toggle_players_opponent in H9.
  cbn [heap set_heap set_current_player current_player] in H9.
  destruct (is_in_checkmate fuel (opponent_of (current_player g)) h2)
    as [rc h3] eqn:Hc.
  injection H9 as -> <-.
  apply bind_Ok in H. destruct H as ([] & g5 & H10 & H).
  injection H as <- <-.
  exists h1. split; [first [exact Hl | reflexivity]|]. right. split; [reflexivity|].
  exists h2, h3, mate. split; [first [exact Hm | reflexivity]|]. split; [first [exact Hc | reflexivity]|].
  rewrite ?toggle_players_opponent in H10.
  destruct mate.
  - apply bind_Ok in H10. destruct H10 as (pl'' & g6 & H11 & H10).
    apply read_Ok in H11. destruct H11 as [[= <-] ->].
    cbn [current_player set_heap set_current_player] in H10.
    destruct (current_player g); cbn [opponent_of] in H10;
      injection H10 as <-; reflexivity.
  - injection H10 as <-. unfold set_heap, set_current_player.
    cbn [heap game_state current_player]. now rewrite Hst.
Qed.

End MakeMoveFacts.

(** ** Moves through [make_move] *)

Section GameFacts.

Lemma get_cell_same_board (h h' : Heap) (row col : Z) :
  board h' = board h -> get_cell h' row col = get_cell h row col.
Proof. intros Hb. rewrite !get_cell_grid_get. now rewrite Hb. Qed.

Lemma forallb_Forall {A : Type} (f : A -> bool) (l : list A) :
  forallb f l = true <-> Forall (fun x => f x = true) l.
Proof.
  induction l as [|x l IH]; simpl.
  - split; [constructor | reflexivity].
  - rewrite andb_true_iff, IH. split.
    + intros [Hx Hl]. now constructor.
    + intros H. inversion H; subst. auto.
Qed.

Lemma wf_heap_rows (h : Heap) :
  wf_heap h = true <->
  length (board h) = 10%nat
  /\ Forall (fun row => length row = 9%nat
                        /\ Forall (fun c => wf_cell h c = true) row)
            (board h).
Proof.
  unfold wf_heap. rewrite andb_true_iff, Nat.eqb_eq, forallb_Forall.
  split; intros [Hl Hr]; (split; [exact Hl|]);
    eapply Forall_impl; try exact Hr; cbv beta; intros row.
  - rewrite andb_true_iff, Nat.eqb_eq, forallb_Forall. auto.
  - rewrite andb_true_iff, Nat.eqb_eq, forallb_Forall. auto.
Qed.

Lemma grid_set_rows (P : option nat -> Prop)
    (b : list (list (option nat))) (row col : Z) (v : option nat) :
  Forall (fun cells => length cells = 9%nat /\ Forall P cells) b -> P v ->
  Forall (fun cells => length cells = 9%nat /\ Forall P cells)
         (grid_set b row col v).
Proof.
  intros Hb Hv. unfold grid_set.
  destruct (b !! Z.to_nat row) as [cells|] eqn:E; [|exact Hb].
  apply Forall_insert; [exact Hb|].
  destruct (Forall_lookup_1 _ _ _ _ Hb E) as [Hl Hc].
  split; [now rewrite length_insert | now apply Forall_insert].
Qed.

Lemma grid_set_length (b : list (list (option nat))) (row col : Z) v :
  length (grid_set b row col v) = length b.
Proof.
  unfold grid_set. destruct (b !! Z.to_nat row); [|reflexivity].
  apply length_insert.
Qed.

(** The heap [move_piece] leaves is well formed. *)
Lemma wf_heap_moved (h : Heap) sr sc dr dc r p destination cell :
  wf_heap h = true -> objects h !! r <> None ->
  wf_heap (moved h sr sc dr dc r p destination cell) = true.
Proof.
  intros Hwf Hr. apply wf_heap_rows in Hwf. destruct Hwf as [Hl Hrows].
  apply wf_heap_rows. unfold moved. cbn [board].
  split; [now rewrite !grid_set_length|].
  assert (Hkeys : forall c, wf_cell h c = true ->
            wf_cell {| objects := <[r := set_location p destination]>
                                    (objects h);
                       board := grid_set (grid_set (board h) dr dc (Some r))
                                         sr sc None;
                       temp := temp h;
                       blue_cart := blue_cart (capture cell h);
                       red_cart := red_cart (capture cell h) |} c = true).
  { intros c Hc. apply (wf_cell_insert h); [exact (objects h) | exact Hc]. }
  apply grid_set_rows; [apply grid_set_rows|]; [| |reflexivity].
  - eapply Forall_impl; [exact Hrows|]. intros row [Hlen Hc].
    split; [exact Hlen|]. eapply Forall_impl; [exact Hc|]. exact Hkeys.
  - unfold wf_cell. cbn [objects]. now rewrite lookup_insert_eq.
Qed.

End GameFacts.

(** X1.  What the answer of [Board.is_legal] means.  Whenever it returns
    on a well-formed board, the grid is as before the call, the source
    square holds a piece, and the answer is [True] exactly when that
    piece's own movement rule accepts the move and, in the position
    [move_piece] produces, the piece's owner is not in check. *)
Theorem is_legal_meaning (h h' : Heap) (source destination : string)
    (b : bool) :
  wf_heap h = true ->
  Board_is_legal source destination h = (Ok b, h') ->
  board h' = board h
  /\ exists r p,
       get_occupant h source = Ok (Some r) /\ objects h !! r = Some p
       /\ (b = true <->
           Piece_is_legal h p source destination = Ok true
           /\ exists h2, move_piece source destination h = (Ok tt, h2)
                         /\ is_in_check h2 (owner p) = Ok false).
Proof.
  intros Hwf H.
  destruct (Board_is_legal_Ok _ _ _ _ _ Hwf H)
    as (sr & sc & r & p & Hs & Hsrc & Hobj & Hcase).
  assert (Hocc : get_occupant h source = Ok (Some r))
    by (unfold get_occupant; now rewrite Hs).
  destruct Hcase as [(Hrule & -> & ->)|(Hrule & dr & dc & cell & Hd & Hne
                                        & Hdst & Hwc & Hchk & Hb & _)].
  - split; [reflexivity|]. exists r, p. repeat (split; [assumption|]).
    split; [discriminate|]. intros [Hr _]. congruence.
  - split; [exact Hb|]. exists r, p. repeat (split; [assumption|]).
    assert (Hm := move_piece_spec h source destination sr sc dr dc r p cell
                    Hs Hd Hsrc Hobj Hdst Hwc).
    split.
    + intros ->. split; [exact Hrule|]. eauto.
    + intros (_ & h2 & Hm' & Hc). rewrite Hm in Hm'. injection Hm' as <-.
      rewrite Hchk in Hc. injection Hc as Hc. now destruct b.
Qed.

Lemma is_legal_meaning_witness :
  board (snd (Board_is_legal "e7" "e6" initialize_board))
  = board initialize_board
  /\ exists r p,
       get_occupant initialize_board "e7" = Ok (Some r)
       /\ objects initialize_board !! r = Some p
       /\ (true = true <->
           Piece_is_legal initialize_board p "e7" "e6" = Ok true
           /\ exists h2, move_piece "e7" "e6" initialize_board = (Ok tt, h2)
                         /\ is_in_check h2 (owner p) = Ok false).
Proof.
  apply (is_legal_meaning initialize_board _ "e7" "e6" true);
    vm_compute; reflexivity.
Defined.

(** X2.  A rejected move changes nothing that matters: whenever
    [make_move] returns [False] on a well-formed board, whatever the
    reason, every cell of the grid, the player to move and the game state
    are as before the call. *)
Theorem rejected_move_changes_nothing (fuel : nat) (g g' : JanggiGame)
    (source destination : string) :
  wf_heap (heap g) = true ->
  make_move fuel source destination g = (Ok false, g') ->
  board (heap g') = board (heap g)
  /\ current_player g' = current_player g
  /\ game_state g' = game_state g.
Proof.
  intros Hwf H. apply make_move_Ok in H.
  destruct H as [(_ & _ & ->)|[(_ & _ & _ & ->)|[(_ & _ & _ & _ & ->)|H]]];
    auto.
  destruct H as (_ & _ & r & p & _ & _ & [(_ & _ & ->)|(_ & h1 & Hl & H)]);
    auto.
  destruct H as [(_ & ->)|(Hb & _)]; [|discriminate].
  destruct (keeps_grid_Board_is_legal _ _ _ _ _ Hwf Hl) as [Hb _].
  auto.
Qed.

Lemma rejected_move_changes_nothing_witness :
  board (heap (snd (make_move 0 "e7" "e5" new_game))) = board (heap new_game)
  /\ current_player (snd (make_move 0 "e7" "e5" new_game))
     = current_player new_game
  /\ game_state (snd (make_move 0 "e7" "e5" new_game)) = game_state new_game.
Proof.
  apply (rejected_move_changes_nothing 0 new_game _ "e7" "e5");
    vm_compute; reflexivity.
Defined.

(** X3.  What an accepted move does to the grid.  Whenever [make_move]
    returns [True] for two different strings on a well-formed board, the
    source square held a piece of the player to move, source and
    destination are different cells, and afterwards (the checkmate search
    included) the destination cell holds that piece, the source cell is
    empty and every other cell is as before. *)
Theorem accepted_move_effect (fuel : nat) (g g' : JanggiGame)
    (source destination : string) :
  wf_heap (heap g) = true ->
  source <> destination ->
  make_move fuel source destination g = (Ok true, g') ->
  exists sr sc dr dc r p,
    decode_location source = Ok (sr, sc)
    /\ decode_location destination = Ok (dr, dc)
    /\ (sr, sc) <> (dr, dc)
    /\ get_cell (heap g) sr sc = Ok (Some r)
    /\ objects (heap g) !! r = Some p
    /\ owner p = current_player g
    /\ get_cell (heap g') dr dc = Ok (Some r)
    /\ get_cell (heap g') sr sc = Ok None
    /\ (forall row col, valid_index row col ->
          (row, col) <> (sr, sc) -> (row, col) <> (dr, dc) ->
          get_cell (heap g') row col = get_cell (heap g) row col).
Proof.
  intros Hwf Hne H. apply make_move_Ok in H.
  destruct H as [(_ & [=] & _)|[(_ & Heq & _)|[(_ & _ & _ & [=] & _)|H]]];
    [contradiction|].
  destruct H as (_ & _ & r & p & Hocc & Hobj
                 & [(_ & [=] & _)|(Hown & h1 & Hl & H)]).
  destruct H as [([=] & _)|(_ & h2 & h3 & mate & Hm & Hc & ->)].
  destruct (Board_is_legal_Ok _ _ _ _ _ Hwf Hl)
    as (sr & sc & r' & p' & Hs & Hsrc & Hobj' & Hcase).
  assert (r' = r) as ->
    by (unfold get_occupant in Hocc; rewrite Hs in Hocc;
        cbn [res_bind] in Hocc; congruence).
  assert (p' = p) as -> by congruence.
  destruct Hcase as [(_ & [=] & _)|(_ & dr & dc & cell & Hd & Hcells & Hdst
                                    & Hwc & _ & Hb1 & Ho1 & _)].
  assert (Hwf1 : wf_heap h1 = true).
  { eapply wf_heap_same_grid; [|exact Hwf].
    eapply keeps_grid_Board_is_legal; eauto. }
  assert (Hobj1 : objects h1 !! r = Some (set_location p source))
    by (rewrite Ho1; apply lookup_insert_eq).
  assert (Hm1 := move_piece_spec h1 source destination sr sc dr dc r
                   (set_location p source) cell Hs Hd
                   ltac:(now rewrite (get_cell_same_board _ _ _ _ Hb1))
                   Hobj1
                   ltac:(now rewrite (get_cell_same_board _ _ _ _ Hb1))
                   ltac:(eapply wf_cell_same_objects; [|exact Hwc];
                         intros r0 Hr0; rewrite Ho1;
                         destruct (decide (r = r0)) as [->|Hr];
                         [now rewrite lookup_insert_eq
                         |now rewrite lookup_insert_ne])).
  rewrite Hm1 in Hm. injection Hm as <-.
  assert (Hwf2 : wf_heap (moved h1 sr sc dr dc r (set_location p source)
                                destination cell) = true)
    by (apply wf_heap_moved; [exact Hwf1 | congruence]).
  destruct (keeps_grid_is_in_checkmate _ _ _ _ _ Hwf2 Hc) as [Hb3 _].
  cbn [board moved] in Hb3. rewrite Hb1 in Hb3.
  assert (Hin_s : in_grid (board (heap g)) sr sc)
    by (eapply get_cell_in_grid; eauto).
  assert (Hin_d : in_grid (board (heap g)) dr dc)
    by (eapply get_cell_in_grid; eauto).
  assert (Hnat := cells_differ _ _ _ _ (decode_location_range _ _ _ Hs)
                    (decode_location_range _ _ _ Hd) Hcells).
  exists sr, sc, dr, dc, r, p. cbn [heap].
  repeat (split; [assumption|]).
  rewrite !get_cell_grid_get, Hb3.
  split; [|split].
  - rewrite grid_get_set_other by congruence.
    now rewrite grid_get_set_same.
  - rewrite grid_get_set_same; [reflexivity|]. now apply in_grid_grid_set.
  - intros row col Hv Hns Hnd. rewrite !get_cell_grid_get, Hb3.
    rewrite !grid_get_set_other; [reflexivity| |].
    + apply cells_differ; auto. eapply decode_location_range; eauto.
    + apply cells_differ; auto. eapply decode_location_range; eauto.
Qed.

Lemma accepted_move_effect_witness :
  exists sr sc dr dc r p,
    decode_location "e7" = Ok (sr, sc)
    /\ decode_location "e6" = Ok (dr, dc)
    /\ (sr, sc) <> (dr, dc)
    /\ get_cell (heap new_game) sr sc = Ok (Some r)
    /\ objects (heap new_game) !! r = Some p
    /\ owner p = current_player new_game
    /\ get_cell (heap (snd (make_move 100 "e7" "e6" new_game))) dr dc
       = Ok (Some r)
    /\ get_cell (heap (snd (make_move 100 "e7" "e6" new_game))) sr sc
       = Ok None
    /\ (forall row col, valid_index row col ->
          (row, col) <> (sr, sc) -> (row, col) <> (dr, dc) ->
          get_cell (heap (snd (make_move 100 "e7" "e6" new_game))) row col
          = get_cell (heap new_game) row col).
Proof.
  apply (accepted_move_effect 100 new_game _ "e7" "e6").
  - vm_compute. reflexivity.
  - discriminate.
  - vm_compute. reflexivity.
Defined.

(** X4.  How the game state moves.  Whenever [make_move] returns, the
    game state is either unchanged or has gone from UNFINISHED to a win of
    the player who made the call's move; the latter only with answer
    [True], for a real move (not a pass), and only when, in the position
    the move produced, the other player was in check.  A finished game
    stays as it is. *)
Theorem game_state_transitions (fuel : nat) (g g' : JanggiGame)
    (source destination : string) (accepted : bool) :
  make_move fuel source destination g = (Ok accepted, g') ->
  (game_state g <> UNFINISHED -> accepted = false /\ g' = g)
  /\ (game_state g' = game_state g
      \/ (game_state g = UNFINISHED
          /\ game_state g' = won_by (current_player g)
          /\ accepted = true /\ source <> destination
          /\ exists h1 h2,
               Board_is_legal source destination (heap g) = (Ok true, h1)
               /\ move_piece source destination h1 = (Ok tt, h2)
               /\ is_in_check h2 (opponent_of (current_player g)) = Ok true)).
Proof.
  intros H. apply make_move_Ok in H.
  destruct H as [(Hst & -> & ->)|[(Hst & _ & _ & ->)|[(Hst & _ & _ & _ & ->)|H]]].
  - auto.
  - split; [congruence|]. left. destruct accepted; [|reflexivity].
    rewrite toggle_players_opponent. reflexivity.
  - split; [congruence|]. now left.
  - destruct H as (Hst & Hne & r & p & _ & _
                   & [(_ & _ & ->)|(_ & h1 & Hl & H)]);
      (split; [congruence|]); [now left|].
    destruct H as [(_ & ->)|(-> & h2 & h3 & mate & Hm & Hc & ->)];
      [now left|].
    cbn [game_state]. destruct mate; [right | now left].
    repeat (split; [assumption || reflexivity|]).
    exists h1, h2. repeat (split; [assumption|]).
    unfold is_in_checkmate in Hc.
    apply bind_Ok in Hc. destruct Hc as (in_check & h0 & H0 & Hc).
    apply read_Ok in H0. destruct H0 as [Hchk ->].
    destruct in_check; [exact Hchk|]. discriminate Hc.
Qed.

Lemma game_state_transitions_witness :
  (game_state mate_in_one <> UNFINISHED ->
   true = false /\ snd (make_move 100 "a3" "e3" mate_in_one) = mate_in_one)
  /\ (game_state (snd (make_move 100 "a3" "e3" mate_in_one))
      = game_state mate_in_one
      \/ (game_state mate_in_one = UNFINISHED
          /\ game_state (snd (make_move 100 "a3" "e3" mate_in_one))
             = won_by (current_player mate_in_one)
          /\ true = true /\ "a3" <> "e3"
          /\ exists h1 h2,
               Board_is_legal "a3" "e3" (heap mate_in_one) = (Ok true, h1)
               /\ move_piece "a3" "e3" h1 = (Ok tt, h2)
               /\ is_in_check h2 (opponent_of (current_player mate_in_one))
                  = Ok true)).
Proof.
  apply (game_state_transitions 100 mate_in_one _ "a3" "e3" true).
  vm_compute. reflexivity.
Defined.

(** ** The movement rules, one by one *)

Section MoreRuleFacts.

Lemma piece_at_cell (h : Heap) (square : string) (row col : Z) (r : nat) :
  decode_location square = Ok (row, col) ->
  get_cell h row col = Ok (Some r) ->
  piece_at h square = objects h !! r.
Proof.
  intros Hd Hc. unfold piece_at, get_occupant. rewrite Hd. cbn [res_bind].
  now rewrite Hc.
Qed.

Lemma piece_at_empty (h : Heap) (square : string) (row col : Z) :
  decode_location square = Ok (row, col) ->
  get_cell h row col = Ok None ->
  piece_at h square = None.
Proof.
  intros Hd Hc. unfold piece_at, get_occupant. rewrite Hd. cbn [res_bind].
  now rewrite Hc.
Qed.

(** [friendly] answers [False] exactly when the cell holds no piece of
    the mover's side. *)
Lemma friendly_false (h : Heap) (self : Piece) (square : string)
    (row col : Z) (cell : option nat) :
  decode_location square = Ok (row, col) ->
  get_cell h row col = Ok cell -> wf_cell h cell = true ->
  (friendly h self cell = Ok false <->
   forall q, piece_at h square = Some q -> owner q <> owner self).
Proof.
  intros Hd Hc Hw. destruct cell as [r|].
  - rewrite (piece_at_cell h square row col r Hd Hc).
    destruct (wf_cell_deref h r Hw) as [q Hq]. unfold friendly. rewrite Hq.
    cbn [res_bind]. unfold deref in Hq.
    destruct (objects h !! r) as [q0|]; [|discriminate].
    injection Hq as ->. split.
    + intros [= Ho] q' [= <-] Heq. rewrite Heq in Ho.
      now rewrite (proj2 (Color_eqb_eq _ _) eq_refl) in Ho.
    + intros H. destruct (Color_eqb (owner self) (owner q)) eqn:E;
        [|reflexivity].
      apply Color_eqb_eq in E. exfalso. now apply (H q).
  - rewrite (piece_at_empty h square row col Hd Hc). simpl.
    split; [discriminate | reflexivity].
Qed.

Lemma friendly_Ok_wf (h : Heap) (self : Piece) (cell : option nat) b :
  friendly h self cell = Ok b -> wf_cell h cell = true.
Proof.
  unfold friendly, wf_cell, deref. destruct cell as [r|]; [|reflexivity].
  destruct (objects h !! r); [reflexivity | discriminate].
Qed.

Lemma mem_In (s : string) (l : list string) : mem s l = true <-> In s l.
Proof.
  unfold mem. rewrite existsb_exists. split.
  - intros (x & Hx & E). apply String.eqb_eq in E. now subst.
  - intros H. exists s. split; [exact H | apply String.eqb_refl].
Qed.

Lemma palace_cells (square : string) (row col : Z) :
  mem square palace = true -> decode_location square = Ok (row, col) ->
  in_red_palace row col \/ in_blue_palace row col.
Proof.
  intros Hm Hd. apply mem_cases in Hm. simpl in Hm.
  unfold in_red_palace, in_blue_palace.
  repeat (destruct Hm as [<-|Hm];
          [vm_compute in Hd; injection Hd as <- <-; lia|]).
  contradiction.
Qed.

Lemma palace_step_entry (source destination : string) :
  palace_step source destination = true ->
  palace_entry_diagonal source destination.
Proof.
  unfold palace_step, palace_entry_diagonal.
  destruct (mem source palace_corners) eqn:E1.
  - intros E2. left. split; now apply mem_In.
  - destruct (mem source palace_centers) eqn:E3; [|discriminate].
    intros E2. right. split; now apply mem_In.
Qed.

End MoreRuleFacts.

(** X5.  No piece of any kind may land on a piece of its own side: on a
    well-formed board, when the destination square holds a piece with the
    mover's owner, the movement rule of every class answers [False]. *)
Theorem no_rule_lands_on_own_piece (h : Heap) (self q : Piece)
    (source destination : string) :
  wf_heap h = true ->
  decodable source -> decodable destination ->
  piece_at h destination = Some q -> owner q = owner self ->
  Piece_is_legal h self source destination = Ok false.
Proof.
  intros Hwf (fr & fc & Hs) (tr & tc & Hd) Hq Ho.
  destruct (wf_heap_get_cell h tr tc Hwf (decode_location_range _ _ _ Hd))
    as (cell & Hc & _).
  unfold piece_at, get_occupant in Hq. rewrite Hd in Hq.
  cbn [res_bind] in Hq. rewrite Hc in Hq.
  destruct cell as [r|]; [|discriminate].
  eapply Piece_is_legal_friendly; eauto.
Qed.

Lemma no_rule_lands_on_own_piece_witness :
  Piece_is_legal initialize_board (piece Chariot "a10" blue) "a10" "a7"
  = Ok false.
Proof.
  apply (no_rule_lands_on_own_piece initialize_board
           (piece Chariot "a10" blue) (piece Soldier "a7" blue) "a10" "a7");
    try (vm_compute; reflexivity); do 2 eexists; reflexivity.
Defined.

(** X6.  General and Guard.  A move their rule accepts goes at most one
    row and one column, ends in a palace, and therefore stays in the
    palace it started in; a step that changes both row and column runs
    between a corner and the centre of a palace; and the destination holds
    no piece of the mover's side. *)
Theorem palace_piece_steps (h : Heap) (self : Piece)
    (source destination : string) (from_row from_col to_row to_col : Z) :
  kind self = General \/ kind self = Guard ->
  decode_location source = Ok (from_row, from_col) ->
  decode_location destination = Ok (to_row, to_col) ->
  Piece_is_legal h self source destination = Ok true ->
  Z.abs (to_row - from_row) <= 1 /\ Z.abs (to_col - from_col) <= 1
  /\ (in_red_palace to_row to_col \/ in_blue_palace to_row to_col)
  /\ (in_red_palace from_row from_col -> in_red_palace to_row to_col)
  /\ (in_blue_palace from_row from_col -> in_blue_palace to_row to_col)
  /\ (from_row <> to_row -> from_col <> to_col ->
      palace_entry_diagonal source destination)
  /\ (forall q, piece_at h destination = Some q -> owner q <> owner self).
Proof.
  intros Hk Hs Hd H.
  assert (Hcore :
    exists cell,
      get_cell h to_row to_col = Ok cell
      /\ friendly h self cell = Ok false
      /\ (in_red_palace to_row to_col \/ in_blue_palace to_row to_col)
      /\ ((Z.abs (to_row - from_row) >? 1)
          || (Z.abs (to_col - from_col) >? 1) = false)
      /\ ((Z.abs (to_row - from_row) =? 1)
          && (Z.abs (to_col - from_col) =? 1) = true ->
          palace_step source destination = true)).
  { unfold Piece_is_legal in H. destruct Hk as [Hk|Hk]; rewrite Hk in H.
    - unfold General_is_legal in H. rewrite Hs, Hd in H. cbn [res_bind] in H.
      destruct (get_cell h to_row to_col) as [cell|]; [|discriminate].
      cbn [res_bind] in H.
      destruct (encode_location to_row to_col) as [t|] eqn:Et; [|discriminate].
      cbn [res_bind] in H.
      destruct (friendly h self cell) as [[]|] eqn:Ef; try discriminate.
      cbn [res_bind] in H.
      destruct (mem t palace) eqn:Ep; [|discriminate]. cbn [negb] in H.
      destruct (_ || _) eqn:Efar; [discriminate|].
      exists cell. split; [reflexivity|]. split; [exact Ef|]. split.
      + eapply palace_cells; [exact Ep|].
        now apply encode_location_decodable.
      + split; [reflexivity|]. intros Hdiag. rewrite Hdiag in H. congruence.
    - unfold Guard_is_legal in H. rewrite Hs, Hd in H. cbn [res_bind] in H.
      destruct (get_cell h to_row to_col) as [cell|]; [|discriminate].
      cbn [res_bind] in H.
      destruct (friendly h self cell) as [[]|] eqn:Ef; try discriminate.
      cbn [res_bind] in H.
      destruct (mem destination palace) eqn:Ep; [|discriminate].
      cbn [negb] in H.
      destruct (_ || _) eqn:Efar; [discriminate|].
      exists cell. split; [reflexivity|]. split; [exact Ef|]. split.
      + eapply palace_cells; eauto.
      + split; [reflexivity|]. intros Hdiag. rewrite Hdiag in H. congruence. }
  destruct Hcore as (cell & Hc & Hf & Hpal & Hfar & Hdiag).
  apply orb_false_iff in Hfar. destruct Hfar as [Hr1 Hc1].
  unfold in_red_palace, in_blue_palace in *.
  split; [lia|]. split; [lia|]. split; [exact Hpal|].
  split; [lia|]. split; [lia|]. split.
  - intros Hr Hcne. apply palace_step_entry. apply Hdiag.
    apply andb_true_iff. split; apply Z.eqb_eq; lia.
  - apply (friendly_false h self destination to_row to_col cell Hd Hc);
      [|exact Hf]. eapply friendly_Ok_wf; eauto.
Qed.

Lemma palace_piece_steps_witness :
  Z.abs (9 - 8) <= 1 /\ Z.abs (3 - 4) <= 1
  /\ (in_red_palace 9 3 \/ in_blue_palace 9 3)
  /\ (in_red_palace 8 4 -> in_red_palace 9 3)
  /\ (in_blue_palace 8 4 -> in_blue_palace 9 3)
  /\ (8 <> 9 -> 4 <> 3 -> palace_entry_diagonal "e9" "d10")
  /\ (forall q, piece_at lone_horse "d10" = Some q -> owner q <> blue).
Proof.
  apply (palace_piece_steps lone_horse (piece General "e9" blue) "e9" "d10");
    try (vm_compute; reflexivity).
  now left.
Defined.

(** ** The leaping pieces *)

Section LeapFacts.

Variable h : Heap.

(** A path is clear exactly when every square on it is empty. *)
Lemma path_clear_true (path : list string) :
  path_clear h path = Ok true
  <-> Forall (fun square => get_occupant h square = Ok None) path.
Proof.
  induction path as [|sq path IH]; cbn [path_clear].
  - split; [constructor | reflexivity].
  - destruct (get_occupant h sq) as [[r|]|e] eqn:E; cbn [res_bind].
    + split; [discriminate|]. intros H. inversion H. congruence.
    + rewrite IH. split.
      * intros H. constructor; assumption.
      * intros H. now inversion H.
    + split; [discriminate|]. intros H. inversion H. congruence.
Qed.

Lemma get_occupant_decoded (square : string) (row col : Z) :
  decode_location square = Ok (row, col) ->
  get_occupant h square = get_cell h row col.
Proof. intros H. unfold get_occupant. now rewrite H. Qed.

Lemma toward_pos (x : Z) : 0 < x -> toward x = 1.
Proof. unfold toward. intros H. apply Z.ltb_lt in H. now rewrite H. Qed.

Lemma toward_neg (x : Z) : x < 0 -> toward x = -1.
Proof.
  unfold toward. intros H. destruct (Z.ltb_spec 0 x); [lia|].
  apply Z.ltb_lt in H. now rewrite H.
Qed.

Ltac settle_tests :=
  repeat match goal with
         | |- context [?a =? ?b] =>
             first [ replace (a =? b) with true
                       by (symmetry; apply Z.eqb_eq; lia)
                   | replace (a =? b) with false
                       by (symmetry; apply Z.eqb_neq; lia) ]
         end.

Ltac encode_squares :=
  repeat match goal with
         | |- context [encode_location ?r ?c] =>
             let t := fresh "t" in
             let Ht := fresh "Ht" in
             let Hd := fresh "Hd" in
             destruct (encode_then_decode r c) as (t & Ht & Hd);
             [unfold valid_index in *; lia|];
             rewrite Ht; cbn [res_bind]
         end.

Ltac toward_steps :=
  repeat first [ rewrite toward_pos by lia | rewrite toward_neg by lia ].

(** The one square a Horse passes: the neighbour of the source in the
    direction of the long side of the move. *)
Lemma Horse_move_path_leg (source destination : string)
    (from_row from_col to_row to_col : Z) :
  decode_location source = Ok (from_row, from_col) ->
  decode_location destination = Ok (to_row, to_col) ->
  (Z.abs (to_row - from_row) = 2 /\ Z.abs (to_col - from_col) = 1 ->
   exists leg, Horse_move_path source destination = Ok [leg]
               /\ decode_location leg
                  = Ok (from_row + toward (to_row - from_row), from_col))
  /\ (Z.abs (to_row - from_row) = 1 /\ Z.abs (to_col - from_col) = 2 ->
      exists leg, Horse_move_path source destination = Ok [leg]
                  /\ decode_location leg
                     = Ok (from_row, from_col + toward (to_col - from_col))).
Proof.
  intros Hs Hd. unfold Horse_move_path. rewrite Hs, Hd. cbn [res_bind].
  apply decode_location_range in Hs, Hd.
  split; intros [Hr Hc].
  - assert (to_row - from_row = -2 \/ to_row - from_row = 2) as [E|E] by lia;
      settle_tests; encode_squares; cbn [app]; toward_steps;
      eexists; (split; [reflexivity|]); rewrite Hd0; repeat f_equal; lia.
  - assert (to_col - from_col = -2 \/ to_col - from_col = 2) as [E|E] by lia;
      settle_tests; encode_squares; cbn [app]; toward_steps;
      eexists; (split; [reflexivity|]); rewrite Hd0; repeat f_equal; lia.
Qed.

(** The two squares an Elephant passes: the neighbour of the source in
    the direction of the long side of the move, and the square one
    diagonal step further. *)
Lemma Elephant_move_path_legs (source destination : string)
    (from_row from_col to_row to_col : Z) :
  decode_location source = Ok (from_row, from_col) ->
  decode_location destination = Ok (to_row, to_col) ->
  (Z.abs (to_row - from_row) = 3 /\ Z.abs (to_col - from_col) = 2 ->
   exists leg1 leg2,
     Elephant_move_path source destination = Ok [leg1; leg2]
     /\ decode_location leg1
        = Ok (from_row + toward (to_row - from_row), from_col)
     /\ decode_location leg2
        = Ok (from_row + 2 * toward (to_row - from_row),
              from_col + toward (to_col - from_col)))
  /\ (Z.abs (to_row - from_row) = 2 /\ Z.abs (to_col - from_col) = 3 ->
      exists leg1 leg2,
        Elephant_move_path source destination = Ok [leg1; leg2]
        /\ decode_location leg1
           = Ok (from_row, from_col + toward (to_col - from_col))
        /\ decode_location leg2
           = Ok (from_row + toward (to_row - from_row),
                 from_col + 2 * toward (to_col - from_col))).
Proof.
  intros Hs Hd. unfold Elephant_move_path. rewrite Hs, Hd. cbn [res_bind].
  apply decode_location_range in Hs, Hd.
  split; intros [Hr Hc].
  - assert (to_row - from_row = -3 \/ to_row - from_row = 3) as [E|E] by lia;
      (assert (to_col - from_col = -2 \/ to_col - from_col = 2) as [E'|E']
         by lia);
      settle_tests; encode_squares; cbn [app]; toward_steps;
      do 2 eexists; (split; [reflexivity|]); rewrite Hd0, Hd1;
      split; repeat f_equal; lia.
  - assert (to_col - from_col = -3 \/ to_col - from_col = 3) as [E|E] by lia;
      (assert (to_row - from_row = -2 \/ to_row - from_row = 2) as [E'|E']
         by lia);
      settle_tests; encode_squares; cbn [app]; toward_steps;
      do 2 eexists; (split; [reflexivity|]); rewrite Hd0, Hd1;
      split; repeat f_equal; lia.
Qed.

End LeapFacts.

(** X7.  The Horse.  On a well-formed board its rule accepts a move
    between two squares exactly when the move is two rows and one column
    long, or one row and two columns, the square next to the source in
    the direction of the long side of the move is empty, and the
    destination holds no piece of the mover's side. *)
Theorem horse_rule (h : Heap) (self : Piece) (source destination : string)
    (from_row from_col to_row to_col : Z) :
  wf_heap h = true ->
  decode_location source = Ok (from_row, from_col) ->
  decode_location destination = Ok (to_row, to_col) ->
  (Horse_is_legal h self source destination = Ok true
   <-> ((Z.abs (to_row - from_row) = 2 /\ Z.abs (to_col - from_col) = 1
         /\ get_cell h (from_row + toward (to_row - from_row)) from_col
            = Ok None)
        \/ (Z.abs (to_row - from_row) = 1 /\ Z.abs (to_col - from_col) = 2
            /\ get_cell h from_row (from_col + toward (to_col - from_col))
               = Ok None))
       /\ (forall q, piece_at h destination = Some q ->
                     owner q <> owner self)).
Proof.
  intros Hwf Hs Hd.
  destruct (wf_heap_get_cell h to_row to_col Hwf
              (decode_location_range _ _ _ Hd)) as (cell & Hcell & Hwc).
  rewrite <- (friendly_false h self destination to_row to_col cell
                Hd Hcell Hwc).
  destruct (Horse_move_path_leg source destination _ _ _ _ Hs Hd)
    as [Hlong Hwide].
  unfold Horse_is_legal. rewrite Hs, Hd. cbn [res_bind].
  rewrite Hcell. cbn [res_bind].
  destruct (wf_friendly h self cell Hwc) as [blocked Hb].
  rewrite Hb. cbn [res_bind].
  destruct blocked; [split; [discriminate | intros [_ H]; discriminate]|].
  destruct ((Z.abs (to_row - from_row) =? 2)
            && (Z.abs (to_col - from_col) =? 1)) eqn:E1.
  { apply andb_true_iff in E1. destruct E1 as [Er Ec].
    apply Z.eqb_eq in Er, Ec.
    destruct (Hlong (conj Er Ec)) as (leg & -> & Hleg). cbn [res_bind].
    rewrite path_clear_true, Forall_cons, Forall_nil.
    rewrite (get_occupant_decoded h leg _ _ Hleg).
    split.
    - intros [H _]. split; [left; auto | reflexivity].
    - intros [[(_ & _ & H)|(H & _)] _]; [auto | lia]. }
  destruct ((Z.abs (to_row - from_row) =? 1)
            && (Z.abs (to_col - from_col) =? 2)) eqn:E2.
  { apply andb_true_iff in E2. destruct E2 as [Er Ec].
    apply Z.eqb_eq in Er, Ec.
    destruct (Hwide (conj Er Ec)) as (leg & -> & Hleg). cbn [res_bind].
    rewrite path_clear_true, Forall_cons, Forall_nil.
    rewrite (get_occupant_decoded h leg _ _ Hleg).
    split.
    - intros [H _]. split; [right; auto | reflexivity].
    - intros [[(H & _)|(_ & _ & H)] _]; [lia | auto]. }
  split; [discriminate|].
  apply andb_false_iff in E1, E2.
  intros [[(Hr & Hc & _)|(Hr & Hc & _)] _]; exfalso;
    [destruct E1 as [E|E] | destruct E2 as [E|E]];
    apply Z.eqb_neq in E; contradiction.
Qed.

Lemma horse_rule_witness :
  Horse_is_legal lone_horse (piece Horse "c10" blue) "c10" "d8" = Ok true
  <-> ((Z.abs (7 - 9) = 2 /\ Z.abs (3 - 2) = 1
        /\ get_cell lone_horse (9 + toward (7 - 9)) 2 = Ok None)
       \/ (Z.abs (7 - 9) = 1 /\ Z.abs (3 - 2) = 2
           /\ get_cell lone_horse 9 (2 + toward (3 - 2)) = Ok None))
      /\ (forall q, piece_at lone_horse "d8" = Some q -> owner q <> blue).
Proof.
  apply (horse_rule lone_horse (piece Horse "c10" blue) "c10" "d8" 9 2 7 3);
    vm_compute; reflexivity.
Defined.

(** X8.  The Elephant.  On a well-formed board its rule accepts a move
    between two squares exactly when the move is three rows and two
    columns long, or two rows and three columns, the two squares it
    passes (one straight step from the source along the long side of the
    move, then one diagonal step towards the destination) are empty, and
    the destination holds no piece of the mover's side. *)
Theorem elephant_rule (h : Heap) (self : Piece) (source destination : string)
    (from_row from_col to_row to_col : Z) :
  wf_heap h = true ->
  decode_location source = Ok (from_row, from_col) ->
  decode_location destination = Ok (to_row, to_col) ->
  (Elephant_is_legal h self source destination = Ok true
   <-> ((Z.abs (to_row - from_row) = 3 /\ Z.abs (to_col - from_col) = 2
         /\ get_cell h (from_row + toward (to_row - from_row)) from_col
            = Ok None
         /\ get_cell h (from_row + 2 * toward (to_row - from_row))
                       (from_col + toward (to_col - from_col))
            = Ok None)
        \/ (Z.abs (to_row - from_row) = 2 /\ Z.abs (to_col - from_col) = 3
            /\ get_cell h from_row (from_col + toward (to_col - from_col))
               = Ok None
            /\ get_cell h (from_row + toward (to_row - from_row))
                          (from_col + 2 * toward (to_col - from_col))
               = Ok None))
       /\ (forall q, piece_at h destination = Some q ->
                     owner q <> owner self)).
Proof.
  intros Hwf Hs Hd.
  destruct (wf_heap_get_cell h to_row to_col Hwf
              (decode_location_range _ _ _ Hd)) as (cell & Hcell & Hwc).
  rewrite <- (friendly_false h self destination to_row to_col cell
                Hd Hcell Hwc).
  destruct (Elephant_move_path_legs source destination _ _ _ _ Hs Hd)
    as [Hlong Hwide].
  unfold Elephant_is_legal. rewrite Hs, Hd. cbn [res_bind].
  rewrite Hcell. cbn [res_bind].
  destruct (wf_friendly h self cell Hwc) as [blocked Hb].
  rewrite Hb. cbn [res_bind].
  destruct blocked; [split; [discriminate | intros [_ H]; discriminate]|].
  destruct ((Z.abs (to_row - from_row) =? 3)
            && (Z.abs (to_col - from_col) =? 2)) eqn:E1.
  { apply andb_true_iff in E1. destruct E1 as [Er Ec].
    apply Z.eqb_eq in Er, Ec.
    destruct (Hlong (conj Er Ec)) as (leg1 & leg2 & -> & Hleg1 & Hleg2).
    cbn [res_bind].
    rewrite path_clear_true, !Forall_cons, Forall_nil.
    rewrite (get_occupant_decoded h leg1 _ _ Hleg1).
    rewrite (get_occupant_decoded h leg2 _ _ Hleg2).
    split.
    - intros (H1 & H2 & _). split; [left; auto | reflexivity].
    - intros [[(_ & _ & H1 & H2)|(H & _)] _]; [auto | lia]. }
  destruct ((Z.abs (to_row - from_row) =? 2)
            && (Z.abs (to_col - from_col) =? 3)) eqn:E2.
  { apply andb_true_iff in E2. destruct E2 as [Er Ec].
    apply Z.eqb_eq in Er, Ec.
    destruct (Hwide (conj Er Ec)) as (leg1 & leg2 & -> & Hleg1 & Hleg2).
    cbn [res_bind].
    rewrite path_clear_true, !Forall_cons, Forall_nil.
    rewrite (get_occupant_decoded h leg1 _ _ Hleg1).
    rewrite (get_occupant_decoded h leg2 _ _ Hleg2).
    split.
    - intros (H1 & H2 & _). split; [right; auto | reflexivity].
    - intros [[(H & _)|(_ & _ & H1 & H2)] _]; [lia | auto]. }
  split; [discriminate|].
  apply andb_false_iff in E1, E2.
  intros [[(Hr & Hc & _)|(Hr & Hc & _)] _]; exfalso;
    [destruct E1 as [E|E] | destruct E2 as [E|E]];
    apply Z.eqb_neq in E; contradiction.
Qed.

Lemma elephant_rule_witness :
  Elephant_is_legal elephant_and_chariot (piece Elephant "b1" red) "b1" "d4"
  = Ok true
  <-> ((Z.abs (3 - 0) = 3 /\ Z.abs (3 - 1) = 2
        /\ get_cell elephant_and_chariot (0 + toward (3 - 0)) 1 = Ok None
        /\ get_cell elephant_and_chariot (0 + 2 * toward (3 - 0))
                                         (1 + toward (3 - 1)) = Ok None)
       \/ (Z.abs (3 - 0) = 2 /\ Z.abs (3 - 1) = 3
           /\ get_cell elephant_and_chariot 0 (1 + toward (3 - 1)) = Ok None
           /\ get_cell elephant_and_chariot (0 + toward (3 - 0))
                                            (1 + 2 * toward (3 - 1))
              = Ok None))
      /\ (forall q, piece_at elephant_and_chariot "d4" = Some q ->
                    owner q <> red).
Proof.
  apply (elephant_rule elephant_and_chariot (piece Elephant "b1" red)
           "b1" "d4" 0 1 3 3); vm_compute; reflexivity.
Defined.

(** ** The sliding pieces *)

Section SlideFacts.

Lemma mem_false_eqb (s k : string) (l : list string) :
  mem s l = false -> In k l -> String.eqb s k = false.
Proof.
  intros Hm Hin. destruct (String.eqb s k) eqn:E; [|reflexivity].
  apply String.eqb_eq in E. subst k. apply mem_In in Hin. congruence.
Qed.

Lemma same_palace_points_mem (source destination : string) :
  same_palace_points source destination
  <-> (mem source blue_palace_points && mem destination blue_palace_points)
      || (mem source red_palace_points && mem destination red_palace_points)
      = true.
Proof.
  unfold same_palace_points.
  rewrite orb_true_iff, !andb_true_iff, !mem_In. reflexivity.
Qed.

Ltac off_points H :=
  unfold palace_diagonal, mem, palace_corners, blue_palace_corners,
    red_palace_corners, blue_palace_center, red_palace_center,
    blue_palace_points, red_palace_points;
  cbn [existsb];
  rewrite ?H by (simpl; tauto).

(** For a move that changes both row and column, the palace test of the
    Chariot and the Cannon holds exactly between corners and centre of
    one palace. *)
Lemma palace_diagonal_points (source destination : string)
    (from_row from_col to_row to_col : Z) :
  decode_location source = Ok (from_row, from_col) ->
  decode_location destination = Ok (to_row, to_col) ->
  from_row <> to_row -> from_col <> to_col ->
  (palace_diagonal source destination = true
   <-> same_palace_points source destination).
Proof.
  intros Hs Hd Hr Hc. rewrite same_palace_points_mem.
  match goal with |- _ = true <-> ?b = true =>
    enough (palace_diagonal source destination = b) as -> by reflexivity end.
  destruct (mem source (blue_palace_points ++ red_palace_points)) eqn:Es.
  - apply mem_cases in Es. simpl in Es.
    destruct (mem destination (blue_palace_points ++ red_palace_points))
      eqn:Ed.
    + apply mem_cases in Ed. simpl in Ed.
      repeat (destruct Es as [<-|Es]; [|]); try contradiction;
        repeat (destruct Ed as [<-|Ed]; [|]); try contradiction;
        first [ reflexivity
              | exfalso; vm_compute in Hs; vm_compute in Hd;
                injection Hs as <- <-; injection Hd as <- <-;
                first [now apply Hr | now apply Hc] ].
    + assert (Hoff : forall k,
                In k (blue_palace_points ++ red_palace_points) ->
                String.eqb destination k = false)
        by (intros k; now apply mem_false_eqb).
      repeat (destruct Es as [<-|Es]; [|]); try contradiction;
        off_points Hoff; reflexivity.
  - assert (Hoff : forall k,
              In k (blue_palace_points ++ red_palace_points) ->
              String.eqb source k = false)
      by (intros k; now apply mem_false_eqb).
    off_points Hoff. reflexivity.
Qed.

Lemma range_In (a b x : Z) : a <= x < b -> In x (range a b).
Proof.
  intros H. unfold range. apply in_map_iff. exists (Z.to_nat (x - a)).
  split; [lia|]. apply in_seq. lia.
Qed.

Lemma range_down_In (a b x : Z) : b < x <= a -> In x (range_down a b).
Proof.
  intros H. unfold range_down. apply in_map_iff. exists (Z.to_nat (a - x)).
  split; [lia|]. apply in_seq. lia.
Qed.

Lemma encode_each_complete (f : Z -> res string) (xs : list Z) path x :
  encode_each f xs = Ok path -> In x xs ->
  exists square, f x = Ok square /\ In square path.
Proof.
  revert path. induction xs as [|y xs IH]; simpl; intros path H Hin.
  - contradiction.
  - destruct (f y) as [sq|] eqn:Ey; [|discriminate]. cbn [res_bind] in H.
    destruct (encode_each f xs) as [sqs|]; [|discriminate].
    injection H as <-. destruct Hin as [->|Hin].
    + exists sq. split; [exact Ey | now left].
    + destruct (IH sqs eq_refl Hin) as (square & Hf & Hsq).
      exists square. split; [exact Hf | now right].
Qed.

(** Every cell strictly between source and destination on their common
    rank or file is on the path. *)
Lemma sliding_move_path_complete (source destination : string) path
    (from_row from_col to_row to_col row col : Z) :
  decode_location source = Ok (from_row, from_col) ->
  decode_location destination = Ok (to_row, to_col) ->
  sliding_move_path source destination = Ok path ->
  on_line_between from_row from_col to_row to_col row col ->
  exists square, encode_location row col = Ok square /\ In square path.
Proof.
  intros Hs Hd Hp Hline. unfold sliding_move_path in Hp.
  rewrite Hs, Hd in Hp. cbn [res_bind] in Hp.
  assert (Hne : from_row <> to_row \/ from_col <> to_col)
    by (unfold on_line_between in Hline; lia).
  assert (Hsame : from_row = to_row \/ from_col = to_col)
    by (unfold on_line_between in Hline; lia).
  destruct (mem source palace_corners && mem destination palace_corners
            && (Z.abs (to_row - from_row) =? Z.abs (to_col - from_col)))
    eqn:Ecorner.
  { exfalso. apply andb_true_iff in Ecorner. destruct Ecorner as [_ Eabs].
    apply Z.eqb_eq in Eabs. lia. }
  destruct ((mem source palace_corners && mem destination palace_centers)
            || (mem destination palace_corners && mem source palace_centers))
    eqn:Ecentre.
  { exfalso. apply orb_true_iff in Ecentre.
    destruct Ecentre as [E|E]; apply andb_true_iff in E; destruct E as [E1 E2];
      apply mem_cases in E1; apply mem_cases in E2; simpl in E1, E2;
      repeat (destruct E1 as [<-|E1]; [|]); try contradiction;
      repeat (destruct E2 as [<-|E2]; [|]); try contradiction;
      vm_compute in Hs; vm_compute in Hd;
      injection Hs as <- <-; injection Hd as <- <-; lia. }
  match type of Hp with res_bind ?m _ = _ =>
    destruct m as [hz|] eqn:Eh; [|discriminate] end.
  cbn [res_bind] in Hp.
  match type of Hp with res_bind ?m _ = _ =>
    destruct m as [vt|] eqn:Ev; [|discriminate] end.
  cbn [res_bind] in Hp. injection Hp as <-.
  destruct Hline as [(-> & Hrow & Hcol)|(-> & Hcol & Hrow)].
  - rewrite (proj2 (Z.eqb_eq from_row to_row) Hrow) in Eh.
    destruct (to_col >? from_col) eqn:Edir.
    + destruct (encode_each_complete _ _ _ col Eh) as (sq & Hsq & Hin);
        [apply range_In; lia|].
      exists sq. split; [exact Hsq | apply in_or_app; now left].
    + destruct (encode_each_complete _ _ _ col Eh) as (sq & Hsq & Hin);
        [apply range_down_In; lia|].
      exists sq. split; [exact Hsq | apply in_or_app; now left].
  - rewrite (proj2 (Z.eqb_eq from_col to_col) Hcol) in Ev.
    destruct (to_row >? from_row) eqn:Edir.
    + destruct (encode_each_complete _ _ _ row Ev) as (sq & Hsq & Hin);
        [apply range_In; lia|].
      exists sq. split; [exact Hsq | apply in_or_app; now right].
    + destruct (encode_each_complete _ _ _ row Ev) as (sq & Hsq & Hin);
        [apply range_down_In; lia|].
      exists sq. split; [exact Hsq | apply in_or_app; now right].
Qed.

End SlideFacts.

(** X9.  The Chariot.  On a well-formed board its rule accepts a move
    between two squares exactly when every square of the path
    [Chariot.move_path] gives is empty, the move stays on one rank or one
    file or else runs between corners and centre of one palace, and the
    destination holds no piece of the mover's side. *)
Theorem chariot_rule (h : Heap) (self : Piece) (source destination : string)
    (from_row from_col to_row to_col : Z) :
  wf_heap h = true ->
  decode_location source = Ok (from_row, from_col) ->
  decode_location destination = Ok (to_row, to_col) ->
  (Chariot_is_legal h self source destination = Ok true
   <-> exists path,
         Chariot_move_path source destination = Ok path
         /\ Forall (fun square => get_occupant h square = Ok None) path
         /\ (from_row = to_row \/ from_col = to_col
             \/ same_palace_points source destination)
         /\ (forall q, piece_at h destination = Some q ->
                       owner q <> owner self)).
Proof.
  intros Hwf Hs Hd.
  destruct (wf_heap_get_cell h to_row to_col Hwf
              (decode_location_range _ _ _ Hd)) as (cell & Hcell & Hwc).
  destruct (sliding_move_path_total source destination _ _ _ _ Hs Hd)
    as [path Hp].
  destruct (path_clear_total h Hwf path
              (sliding_move_path_decodable _ _ _ Hp)) as [clear Hclear].
  assert (Hfr := friendly_false h self destination to_row to_col cell
                   Hd Hcell Hwc).
  unfold Chariot_is_legal, Chariot_move_path. rewrite Hs, Hd, Hp.
  cbn [res_bind]. rewrite Hcell. cbn [res_bind].
  destruct (wf_friendly h self cell Hwc) as [blocked Hb].
  rewrite Hb. cbn [res_bind]. rewrite Hclear. cbn [res_bind].
  destruct blocked.
  { split; [discriminate|]. intros (path' & _ & _ & _ & Hq).
    apply (proj2 Hfr) in Hq. congruence. }
  assert (Hfoe := proj1 Hfr Hb).
  destruct clear; cbn [negb].
  - apply path_clear_true in Hclear.
    destruct (Z.eqb_spec from_row to_row) as [Er|Er]; cbn [negb andb].
    { split; [|reflexivity]. intros _. exists path. auto 10. }
    destruct (Z.eqb_spec from_col to_col) as [Ec|Ec]; cbn [negb andb].
    { split; [|reflexivity]. intros _. exists path. auto 10. }
    assert (Hpd := palace_diagonal_points source destination _ _ _ _
                     Hs Hd Er Ec).
    split.
    + intros [= H]. exists path. apply Hpd in H. auto 10.
    + intros (path' & _ & _ & [H|[H|H]] & _); try contradiction.
      apply Hpd in H. now rewrite H.
  - split; [discriminate|]. intros (path' & [= <-] & Hall & _).
    apply path_clear_true in Hall. congruence.
Qed.

Lemma chariot_rule_witness :
  Chariot_is_legal elephant_and_chariot (piece Chariot "a1" red) "a1" "a5"
  = Ok true
  <-> exists path,
        Chariot_move_path "a1" "a5" = Ok path
        /\ Forall (fun square =>
                     get_occupant elephant_and_chariot square = Ok None) path
        /\ (0 = 4 \/ 0 = 0 \/ same_palace_points "a1" "a5")
        /\ (forall q, piece_at elephant_and_chariot "a5" = Some q ->
                      owner q <> red).
Proof.
  apply (chariot_rule elephant_and_chariot (piece Chariot "a1" red)
           "a1" "a5" 0 0 4 0); vm_compute; reflexivity.
Defined.

(** X10.  The path of a Chariot or a Cannon between two different cells.
    [move_path] returns a list for every pair of squares; every square on
    it lies strictly between source and destination (on their rank, on
    their file, or midway between two opposite palace corners), and every
    cell strictly between them on a common rank or file is on it. *)
Theorem sliding_path_squares (source destination : string)
    (from_row from_col to_row to_col : Z) :
  decode_location source = Ok (from_row, from_col) ->
  decode_location destination = Ok (to_row, to_col) ->
  (from_row, from_col) <> (to_row, to_col) ->
  exists path,
    sliding_move_path source destination = Ok path
    /\ (forall square, In square path ->
          exists row col,
            decode_location square = Ok (row, col)
            /\ strictly_between from_row from_col to_row to_col row col)
    /\ (forall row col,
          on_line_between from_row from_col to_row to_col row col ->
          exists square, encode_location row col = Ok square
                         /\ In square path).
Proof.
  intros Hs Hd Hne.
  destruct (sliding_move_path_total source destination _ _ _ _ Hs Hd)
    as [path Hp].
  exists path. split; [exact Hp|]. split.
  - eapply sliding_move_path_between; eauto.
  - intros row col. eapply sliding_move_path_complete; eauto.
Qed.

Lemma sliding_path_squares_witness :
  exists path,
    sliding_move_path "a1" "a5" = Ok path
    /\ (forall square, In square path ->
          exists row col,
            decode_location square = Ok (row, col)
            /\ strictly_between 0 0 4 0 row col)
    /\ (forall row col,
          on_line_between 0 0 4 0 row col ->
          exists square, encode_location row col = Ok square
                         /\ In square path).
Proof.
  apply (sliding_path_squares "a1" "a5" 0 0 4 0);
    [reflexivity | reflexivity | discriminate].
Defined.

(** ** The Soldier, in both directions *)

Section SoldierFacts.

Lemma soldier_diagonal_In (source destination : string) :
  soldier_diagonal source destination = true
  <-> In (source, destination) soldier_diagonal_steps.
Proof.
  split.
  - intros H. unfold soldier_diagonal in H.
    split_eqb H; try discriminate; simpl; tauto.
  - intros H. simpl in H.
    repeat (destruct H as [[= <- <-]|H]; [reflexivity|]). contradiction.
Qed.

Lemma soldier_diagonal_steps_oblique (source destination : string)
    (from_row from_col to_row to_col : Z) :
  decode_location source = Ok (from_row, from_col) ->
  decode_location destination = Ok (to_row, to_col) ->
  In (source, destination) soldier_diagonal_steps ->
  from_row <> to_row /\ from_col <> to_col.
Proof.
  intros Hs Hd H. simpl in H.
  repeat (destruct H as [[= <- <-]|H];
          [vm_compute in Hs; vm_compute in Hd;
           injection Hs as <- <-; injection Hd as <- <-; lia|]).
  contradiction.
Qed.

End SoldierFacts.

(** X11.  The Soldier, in both directions.  On a well-formed board its
    rule accepts a move between two squares exactly when the move is one
    column sideways on the same rank, or one row forward for the owner on
    the same file, or one of the eight palace diagonals the method lists
    (whoever the owner is), and the destination holds no piece of the
    mover's side. *)
Theorem soldier_rule (h : Heap) (self : Piece) (source destination : string)
    (from_row from_col to_row to_col : Z) :
  wf_heap h = true ->
  decode_location source = Ok (from_row, from_col) ->
  decode_location destination = Ok (to_row, to_col) ->
  (Soldier_is_legal h self source destination = Ok true
   <-> ((from_row = to_row /\ Z.abs (to_col - from_col) = 1)
        \/ (from_col = to_col
            /\ to_row - from_row = forward_step (owner self))
        \/ In (source, destination) soldier_diagonal_steps)
       /\ (forall q, piece_at h destination = Some q ->
                     owner q <> owner self)).
Proof.
  intros Hwf Hs Hd.
  destruct (wf_heap_get_cell h to_row to_col Hwf
              (decode_location_range _ _ _ Hd)) as (cell & Hcell & Hwc).
  rewrite <- (friendly_false h self destination to_row to_col cell
                Hd Hcell Hwc).
  assert (Hobl := soldier_diagonal_steps_oblique source destination
                    _ _ _ _ Hs Hd).
  unfold Soldier_is_legal. rewrite Hs, Hd. cbn [res_bind].
  rewrite Hcell. cbn [res_bind].
  destruct (wf_friendly h self cell Hwc) as [blocked Hb].
  rewrite Hb. cbn [res_bind].
  destruct blocked; [split; [discriminate | intros [_ H]; discriminate]|].
  unfold forward_step.
  destruct (Z.eqb_spec from_row to_row) as [Er|Er]; cbn [andb negb].
  - destruct (Z.eqb_spec (Z.abs (to_col - from_col)) 1) as [Ec|Ec];
      cbn [negb].
    + destruct (Z.eqb_spec from_col to_col) as [E|E]; [lia|].
      cbn [andb negb]. split; [|reflexivity].
      intros _. split; [left; auto | reflexivity].
    + split; [discriminate|].
      intros [[H|[[_ H]|H]] _];
        [lia | destruct (owner self); lia | apply Hobl in H; lia].
  - destruct (Z.eqb_spec from_col to_col) as [Ec|Ec]; cbn [andb negb].
    + destruct (owner self);
        match goal with |- context [?a =? ?b] =>
          destruct (Z.eqb_spec a b) as [E|E] end; cbn [negb];
        (split;
         [ first [ discriminate
                 | intros _; split; [right; left; auto | reflexivity] ]
         | first [ reflexivity
                 | intros [[H|[[_ H]|H]] _];
                   [lia | lia | apply Hobl in H; lia] ] ]).
    + rewrite <- soldier_diagonal_In. split.
      * intros [= H]. split; [right; right; exact H | reflexivity].
      * intros [[H|[[H _]|H]] _]; [lia | lia | now rewrite H].
Qed.

Lemma soldier_rule_witness :
  Soldier_is_legal blue_soldier_in_red_palace (piece Soldier "d3" blue)
                   "d3" "e2" = Ok true
  <-> ((2 = 1 /\ Z.abs (4 - 3) = 1)
       \/ (3 = 4 /\ 1 - 2 = forward_step blue)
       \/ In ("d3", "e2") soldier_diagonal_steps)
      /\ (forall q, piece_at blue_soldier_in_red_palace "e2" = Some q ->
                    owner q <> blue).
Proof.
  apply (soldier_rule blue_soldier_in_red_palace (piece Soldier "d3" blue)
           "d3" "e2" 2 3 1 4); vm_compute; reflexivity.
Defined.

(** ** The codec outside the board *)

Section EncodeFacts.

Lemma column_name_miss (column : Z) :
  ~ 0 <= column <= 8 -> dict_get_int column_name column = Raise KeyError.
Proof.
  intros H. unfold column_name. cbn [dict_get_int].
  repeat (match goal with |- context [?a =? ?b] =>
            destruct (Z.eqb_spec a b); [lia|] end).
  reflexivity.
Qed.

Lemma row_name_miss (row : Z) :
  ~ 0 <= row <= 9 -> dict_get_int row_name row = Raise KeyError.
Proof.
  intros H. unfold row_name. cbn [dict_get_int].
  repeat (match goal with |- context [?a =? ?b] =>
            destruct (Z.eqb_spec a b); [lia|] end).
  reflexivity.
Qed.

Lemma encode_location_well_formed (row column : Z) (text : string) :
  encode_location row column = Ok text -> well_formed text = true.
Proof.
  intros H. assert (Hv := encode_location_valid _ _ _ H).
  apply valid_index_cases in Hv. destruct Hv as [Hr Hc]. simpl in Hr, Hc.
  repeat (destruct Hr as [<-|Hr]; [|]); try contradiction;
    repeat (destruct Hc as [<-|Hc]; [|]); try contradiction;
    vm_compute in H; injection H as <-; reflexivity.
Qed.

End EncodeFacts.

(** X12.  [encode_location] on and off the board.  For a row in 0..9 and
    a column in 0..8 it returns a well-formed coordinate (a letter a-i
    followed by a number 1..10); for every other pair of integers it
    raises [KeyError]; and two pairs with the same name are the same
    pair. *)
Theorem encode_location_domain (row column : Z) :
  (valid_index row column ->
   exists text, encode_location row column = Ok text
                /\ well_formed text = true)
  /\ (~ valid_index row column ->
      encode_location row column = Raise KeyError)
  /\ (forall row' column' text,
        encode_location row column = Ok text ->
        encode_location row' column' = Ok text ->
        row' = row /\ column' = column).
Proof.
  split; [|split].
  - intros Hv. destruct (encode_location_total row column Hv) as [text Ht].
    exists text. split; [exact Ht|]. eapply encode_location_well_formed; eauto.
  - intros Hv. unfold encode_location, valid_index in *.
    destruct (Z_le_dec 0 column) as [H0|H0];
      [destruct (Z_le_dec column 8) as [H8|H8]|];
      try (rewrite column_name_miss by lia; reflexivity).
    destruct (dict_get_int column_name column) as [c|e] eqn:Ec.
    + cbn [res_bind]. rewrite row_name_miss by lia. reflexivity.
    + exfalso.
      destruct (encode_location_total 0 column) as [t Ht];
        [unfold valid_index; lia|].
      unfold encode_location in Ht. rewrite Ec in Ht. discriminate.
  - intros row' column' text H H'.
    apply encode_location_decodable in H, H'.
    rewrite H in H'. injection H' as <- <-. auto.
Qed.

Lemma encode_location_domain_witness :
  (exists text, encode_location 9 8 = Ok text /\ well_formed text = true)
  /\ encode_location 10 0 = Raise KeyError
  /\ (forall row' column' text,
        encode_location 9 8 = Ok text ->
        encode_location row' column' = Ok text ->
        row' = 9 /\ column' = 8).
Proof.
  split; [|split].
  - apply (proj1 (encode_location_domain 9 8)). unfold valid_index. lia.
  - apply (proj1 (proj2 (encode_location_domain 10 0))).
    unfold valid_index. lia.
  - apply (proj2 (proj2 (encode_location_domain 9 8))).
Defined.

(** ** Squares and pixels *)

Section ScreenFacts.

Variables BG_X_OFFSET BG_Y_OFFSET : Z.

Lemma dict_get_scaled (d : list (string * Z)) (k : string) :
  dict_get (map (fun kv => (fst kv, 67 * snd kv)) d) k
  = let? v := dict_get d k in Ok (67 * v).
Proof.
  induction d as [|[k' v] d IH]; cbn [map dict_get fst snd res_bind];
    [reflexivity|].
  destruct (String.eqb k k'); [reflexivity | exact IH].
Qed.

Lemma x_key_scaled :
  x_key = map (fun kv => (fst kv, 67 * snd kv)) column_key.
Proof. reflexivity. Qed.

Lemma y_key_scaled :
  y_key = map (fun kv => (fst kv, 67 * snd kv)) row_key.
Proof. reflexivity. Qed.

(** The pixel tables are the index tables of [decode_location] at a
    pitch of 67 pixels. *)
Lemma get_xy_decode (location : string) :
  get_xy_from_algebraic BG_X_OFFSET BG_Y_OFFSET location
  = let? (row, column) := decode_location location in
    Ok (67 * column + BG_X_OFFSET, 67 * row + BG_Y_OFFSET).
Proof.
  destruct location as [|c0 rest]; [reflexivity|].
  unfold get_xy_from_algebraic, decode_location.
  rewrite x_key_scaled, y_key_scaled, dict_get_scaled.
  destruct (dict_get column_key (String c0 "")) as [col|e];
    cbn [res_bind]; [|reflexivity].
  destruct (Nat.eqb (String.length (String c0 rest)) 3).
  - rewrite dict_get_scaled.
    destruct (dict_get row_key rest); reflexivity.
  - destruct rest as [|c1 rest']; [reflexivity|].
    rewrite dict_get_scaled.
    destruct (dict_get row_key (String c1 "")); reflexivity.
Qed.

Ltac settle_cmp :=
  rewrite ?Z.gtb_ltb;
  repeat match goal with
         | |- context [?a <? ?b] =>
             first [ replace (a <? b) with true
                       by (symmetry; apply Z.ltb_lt; lia)
                   | replace (a <? b) with false
                       by (symmetry; apply Z.ltb_ge; lia) ]
         | |- context [?a <=? ?b] =>
             first [ replace (a <=? b) with true
                       by (symmetry; apply Z.leb_le; lia)
                   | replace (a <=? b) with false
                       by (symmetry; apply Z.leb_gt; lia) ]
         end.

Lemma mouse_letter_inside (col dx : Z) (name : string) :
  dict_get_int column_name col = Ok name -> 0 < dx <= 67 ->
  mouse_letter (67 * col + dx) = ([], name).
Proof.
  intros H Hdx. unfold column_name in H. cbn [dict_get_int] in H.
  repeat match type of H with
         | context [?a =? ?b] =>
             destruct (Z.eqb_spec a b) as [->|_];
             [injection H as <-; unfold mouse_letter; settle_cmp;
              reflexivity|]
         end.
  discriminate.
Qed.

Lemma mouse_number_inside (row dy : Z) (name : string) :
  dict_get_int row_name row = Ok name -> 0 < dy <= 67 ->
  mouse_number (67 * row + dy) = ([], name).
Proof.
  intros H Hdy. unfold row_name in H. cbn [dict_get_int] in H.
  repeat match type of H with
         | context [?a =? ?b] =>
             destruct (Z.eqb_spec a b) as [->|_];
             [injection H as <-; unfold mouse_number; settle_cmp;
              reflexivity|]
         end.
  discriminate.
Qed.

(** Either the coordinate is in the range of the board and a letter is
    chosen without a message, or it is not, a message is printed and the
    letter stays empty. *)
Lemma mouse_letter_cases (x : Z) :
  (0 <= x <= 603 /\ fst (mouse_letter x) = []
   /\ In (snd (mouse_letter x)) letters)
  \/ (~ 0 <= x <= 603
      /\ mouse_letter x = (["x coordinate is off the board"], "")).
Proof.
  unfold mouse_letter. rewrite Z.gtb_ltb.
  destruct (Z.ltb_spec x 0); cbn [orb];
    [right; split; [lia | reflexivity]|].
  destruct (Z.ltb_spec 603 x); [right; split; [lia | reflexivity]|].
  left. split; [lia|].
  repeat (match goal with |- context [?a <=? ?b] =>
            destruct (Z.leb_spec a b) end;
          [split; [reflexivity | simpl; tauto]|]).
  split; [reflexivity | simpl; tauto].
Qed.

Lemma mouse_number_cases (y : Z) :
  (0 <= y <= 670 /\ fst (mouse_number y) = []
   /\ In (snd (mouse_number y)) numbers)
  \/ (~ 0 <= y <= 670
      /\ mouse_number y = (["y coordinate is off of the board"], "")).
Proof.
  unfold mouse_number. rewrite Z.gtb_ltb.
  destruct (Z.ltb_spec y 0); cbn [orb];
    [right; split; [lia | reflexivity]|].
  destruct (Z.ltb_spec 670 y); [right; split; [lia | reflexivity]|].
  left. split; [lia|].
  repeat (match goal with |- context [?a <=? ?b] =>
            destruct (Z.leb_spec a b) end;
          [split; [reflexivity | simpl; tauto]|]).
  split; [reflexivity | simpl; tauto].
Qed.

End ScreenFacts.

(** X13.  [get_xy_from_algebraic] follows [decode_location]: it raises
    the same exception on the same strings, and for every other string it
    returns the pixel 67 times the column index to the right and 67 times
    the row index below the offset of the board image. *)
Theorem get_xy_follows_decode (BG_X_OFFSET BG_Y_OFFSET : Z)
    (location : string) :
  get_xy_from_algebraic BG_X_OFFSET BG_Y_OFFSET location
  = let? (row, column) := decode_location location in
    Ok (67 * column + BG_X_OFFSET, 67 * row + BG_Y_OFFSET).
Proof. apply get_xy_decode. Qed.

(** X14.  From a square to its pixels and back.  For a well-formed
    coordinate, [get_xy_from_algebraic] returns a pixel, and every pixel
    from 1 to 67 to the right of it and from 1 to 67 below it is
    translated back by [get_algebraic_from_mouse] to the same coordinate,
    with nothing printed. *)
Theorem mouse_round_trip (BG_X_OFFSET BG_Y_OFFSET : Z) (location : string) :
  well_formed location = true ->
  exists x y,
    get_xy_from_algebraic BG_X_OFFSET BG_Y_OFFSET location = Ok (x, y)
    /\ forall dx dy, 0 < dx <= 67 -> 0 < dy <= 67 ->
         get_algebraic_from_mouse BG_X_OFFSET BG_Y_OFFSET (x + dx) (y + dy)
         = ([], location).
Proof.
  intros Hwf.
  destruct (decode_then_encode location Hwf) as (row & col & Hd & _ & He).
  rewrite get_xy_decode, Hd. cbn [res_bind].
  do 2 eexists. split; [reflexivity|]. intros dx dy Hdx Hdy.
  unfold get_algebraic_from_mouse.
  replace (67 * col + BG_X_OFFSET + dx - BG_X_OFFSET) with (67 * col + dx)
    by lia.
  replace (67 * row + BG_Y_OFFSET + dy - BG_Y_OFFSET) with (67 * row + dy)
    by lia.
  unfold encode_location in He.
  destruct (dict_get_int column_name col) as [cn|] eqn:Ec; [|discriminate].
  cbn [res_bind] in He.
  destruct (dict_get_int row_name row) as [rn|] eqn:Er; [|discriminate].
  cbn [res_bind] in He. injection He as <-.
  rewrite (mouse_letter_inside _ _ _ Ec Hdx).
  rewrite (mouse_number_inside _ _ _ Er Hdy). reflexivity.
Qed.

Lemma mouse_round_trip_witness :
  exists x y,
    get_xy_from_algebraic 40 25 "b10" = Ok (x, y)
    /\ forall dx dy, 0 < dx <= 67 -> 0 < dy <= 67 ->
         get_algebraic_from_mouse 40 25 (x + dx) (y + dy) = ([], "b10").
Proof. apply (mouse_round_trip 40 25 "b10"). reflexivity. Defined.

(** X15.  [get_algebraic_from_mouse] on and off the board image.  For a
    pixel within 603 to the right of and 670 below the offset it prints
    nothing and returns a well-formed coordinate; for every other pixel it
    prints a message and returns a string that [decode_location] does not
    accept. *)
Theorem mouse_on_and_off_board (BG_X_OFFSET BG_Y_OFFSET x y : Z) :
  let r := get_algebraic_from_mouse BG_X_OFFSET BG_Y_OFFSET x y in
  (on_screen_board (x - BG_X_OFFSET) (y - BG_Y_OFFSET) ->
   fst r = [] /\ well_formed (snd r) = true)
  /\ (~ on_screen_board (x - BG_X_OFFSET) (y - BG_Y_OFFSET) ->
      fst r <> [] /\ exists e, decode_location (snd r) = Raise e).
Proof.
  unfold get_algebraic_from_mouse, on_screen_board.
  destruct (mouse_letter_cases (x - BG_X_OFFSET))
    as [(Hx & Hpx & Hl)|(Hx & Hl)];
    destruct (mouse_number_cases (y - BG_Y_OFFSET))
      as [(Hy & Hpy & Hn)|(Hy & Hn)];
    destruct (mouse_letter (x - BG_X_OFFSET)) as [px l];
    destruct (mouse_number (y - BG_Y_OFFSET)) as [py n];
    cbn [fst snd] in *; (split; [intros [Hx' Hy'] | intros Hoff]);
    try contradiction; try (exfalso; apply Hoff; split; assumption).
  - subst px py. split; [reflexivity|]. simpl in Hl, Hn.
    repeat (destruct Hl as [<-|Hl]; [|]); try contradiction;
      repeat (destruct Hn as [<-|Hn]; [|]); try contradiction; reflexivity.
  - injection Hn as -> ->. subst px. split; [discriminate|]. simpl in Hl.
    repeat (destruct Hl as [<-|Hl]; [eexists; reflexivity|]). contradiction.
  - injection Hl as -> ->. split; [discriminate|]. simpl in Hn.
    repeat (destruct Hn as [<-|Hn]; [eexists; reflexivity|]). contradiction.
  - injection Hl as -> ->. injection Hn as -> ->.
    split; [discriminate | eexists; reflexivity].
Qed.

Lemma mouse_on_and_off_board_witness :
  (fst (get_algebraic_from_mouse 40 25 300 400) = []
   /\ well_formed (snd (get_algebraic_from_mouse 40 25 300 400)) = true)
  /\ (fst (get_algebraic_from_mouse 40 25 10 400) <> []
      /\ exists e,
           decode_location (snd (get_algebraic_from_mouse 40 25 10 400))
           = Raise e).
Proof.
  split.
  - apply (proj1 (mouse_on_and_off_board 40 25 300 400)).
    unfold on_screen_board. lia.
  - apply (proj2 (mouse_on_and_off_board 40 25 10 400)).
    unfold on_screen_board. lia.
Defined.

(** X16.  The corner pixel belongs to the neighbour.  The pixel
    [get_xy_from_algebraic] returns for a square, its upper left corner,
    is translated by [get_algebraic_from_mouse] to the square one row up
    and one column to the left, staying on the first row or column when
    there is none: the comparisons of the two [if] chains are inclusive
    at the upper bound. *)
Theorem mouse_on_corner (BG_X_OFFSET BG_Y_OFFSET : Z) (location : string)
    (row column x y : Z) :
  decode_location location = Ok (row, column) ->
  get_xy_from_algebraic BG_X_OFFSET BG_Y_OFFSET location = Ok (x, y) ->
  exists name,
    encode_location (Z.max 0 (row - 1)) (Z.max 0 (column - 1)) = Ok name
    /\ get_algebraic_from_mouse BG_X_OFFSET BG_Y_OFFSET x y = ([], name).
Proof.
  intros Hd Hxy. rewrite get_xy_decode, Hd in Hxy. cbn [res_bind] in Hxy.
  injection Hxy as <- <-. unfold get_algebraic_from_mouse.
  replace (67 * column + BG_X_OFFSET - BG_X_OFFSET) with (67 * column)
    by lia.
  replace (67 * row + BG_Y_OFFSET - BG_Y_OFFSET) with (67 * row) by lia.
  apply decode_location_range, valid_index_cases in Hd.
  destruct Hd as [Hr Hc]. simpl in Hr, Hc.
  repeat (destruct Hr as [<-|Hr]; [|]); try contradiction;
    repeat (destruct Hc as [<-|Hc]; [|]); try contradiction;
    eexists; split; reflexivity.
Qed.

Lemma mouse_on_corner_witness :
  exists name,
    encode_location (Z.max 0 (6 - 1)) (Z.max 0 (1 - 1)) = Ok name
    /\ get_algebraic_from_mouse 40 25 107 427 = ([], name).
Proof.
  apply (mouse_on_corner 40 25 "b7" 6 1 107 427); reflexivity.
Defined.

(** ** The invariant of the representation *)

Section InvariantFacts.

Lemma In_all_cells (row col : Z) :
  valid_index row col -> In (row, col) all_cells.
Proof.
  intros Hv. apply valid_index_cases in Hv. destruct Hv as [Hr Hc].
  unfold all_cells. apply in_flat_map. exists row. split; [exact Hr|].
  apply in_map_iff. now exists col.
Qed.

Lemma all_cells_valid (cell : Z * Z) :
  In cell all_cells -> valid_index (fst cell) (snd cell).
Proof.
  unfold all_cells. rewrite in_flat_map. intros (row & Hr & Hc).
  apply in_map_iff in Hc. destruct Hc as (col & <- & Hc).
  cbn [fst snd]. unfold valid_index. simpl in Hr, Hc. lia.
Qed.

Lemma existsb_eqb_In (x : nat) (l : list nat) :
  existsb (Nat.eqb x) l = true <-> In x l.
Proof.
  rewrite existsb_exists. split.
  - intros (y & Hy & E). apply Nat.eqb_eq in E. now subst.
  - intros H. exists x. split; [exact H | apply Nat.eqb_refl].
Qed.

Lemma cart_exact_test_sound (h : Heap) (c : Color) :
  cart_exact_test h c = true ->
  NoDup (get_cart h c) /\ forall r, In r (get_cart h c) <-> on_board_as h r c.
Proof.
  unfold cart_exact_test. rewrite !andb_true_iff.
  intros [[Hnd Hin] Hout]. apply bool_decide_eq_true in Hnd.
  split; [exact Hnd|]. intros r. split.
  - intros Hr. rewrite forallb_forall in Hin. specialize (Hin r Hr).
    apply existsb_exists in Hin. destruct Hin as ([row col] & Hcell & Hh).
    apply all_cells_valid in Hcell. unfold holds in Hh.
    cbn [fst snd] in *.
    destruct (get_cell h row col) as [[r'|]|] eqn:Hc; try discriminate.
    apply andb_true_iff in Hh. destruct Hh as [Hr' Ho].
    apply Nat.eqb_eq in Hr'. subst r'.
    destruct (objects h !! r) as [p|] eqn:Hp; [|discriminate].
    apply Color_eqb_eq in Ho. now exists row, col, p.
  - intros (row & col & p & Hv & Hc & Hp & Ho).
    rewrite forallb_forall in Hout.
    specialize (Hout (row, col) (In_all_cells _ _ Hv)).
    unfold listed in Hout. cbn [fst snd] in Hout. rewrite Hc, Hp in Hout.
    rewrite (proj2 (Color_eqb_eq _ _) Ho) in Hout. cbn [negb orb] in Hout.
    now apply existsb_eqb_In.
Qed.

(** The test is sound: a heap that passes it is consistent. *)
Lemma consistent_test_sound (h : Heap) :
  consistent_test h = true -> consistent h.
Proof.
  unfold consistent_test. rewrite !andb_true_iff.
  intros [[[Hwf Hst] Hblue] Hred]. split; [exact Hwf|]. split.
  - intros row col r p Hv Hc Hp. rewrite forallb_forall in Hst.
    specialize (Hst (row, col) (In_all_cells _ _ Hv)).
    unfold cell_names_itself in Hst. cbn [fst snd] in Hst.
    rewrite Hc, Hp in Hst.
    destruct (decode_location (location p)) as [[row' col']|];
      [|discriminate].
    apply andb_true_iff in Hst. destruct Hst as [Hr Hcl].
    apply Z.eqb_eq in Hr, Hcl. now subst.
  - intros []; now apply cart_exact_test_sound.
Qed.

(** *** Removing from a cart *)

Lemma remove_first_In (x y : nat) (l : list nat) :
  In y (remove_first x l) -> In y l.
Proof.
  induction l as [|z l IH]; cbn [remove_first]; [auto|].
  destruct (Nat.eqb_spec x z) as [->|Hne].
  - intros H. now right.
  - intros [->|H]; [now left | right; auto].
Qed.

Lemma remove_first_NoDup (x : nat) (l : list nat) :
  NoDup l -> NoDup (remove_first x l).
Proof.
  induction 1 as [|z l Hz Hnd IH]; cbn [remove_first]; [constructor|].
  destruct (Nat.eqb_spec x z) as [->|Hne]; [exact Hnd|].
  constructor; [|exact IH]. rewrite list_elem_of_In in *.
  intros H. apply Hz. eapply remove_first_In; eauto.
Qed.

Lemma remove_first_spec (x y : nat) (l : list nat) :
  NoDup l -> (In y (remove_first x l) <-> In y l /\ y <> x).
Proof.
  induction 1 as [|z l Hz Hnd IH]; cbn [remove_first].
  - simpl. tauto.
  - rewrite list_elem_of_In in Hz.
    destruct (Nat.eqb_spec x z) as [->|Hne].
    + simpl. split.
      * intros H. split; [now right|]. intros ->. contradiction.
      * intros [[->|H] Hy]; [contradiction | exact H].
    + simpl. rewrite IH. split.
      * intros [->|[H Hy]]; [split; [now left | auto] | split; [now right | auto]].
      * intros [[->|H] Hy]; [now left | right; auto].
Qed.

(** *** The heap after [undo_temp_move], in full *)

Lemma undo_temp_move_exact (h : Heap) (source destination : string)
    (sr sc dr dc : Z) (r : nat) (p : Piece) :
  decode_location source = Ok (sr, sc) ->
  decode_location destination = Ok (dr, dc) ->
  (Z.to_nat sr, Z.to_nat sc) <> (Z.to_nat dr, Z.to_nat dc) ->
  in_grid (board h) sr sc ->
  get_cell h dr dc = Ok (Some r) -> objects h !! r = Some p ->
  wf_cell h (temp h) = true ->
  undo_temp_move source destination h
  = (Ok tt, undone h sr sc dr dc r p source).
Proof.
  intros Hs Hd Hne Hin Hdst Hp Hwt. unfold undo_temp_move.
  rewrite (read_step _ _ h (temp h)) by reflexivity.
  rewrite (read_step _ _ h (sr, sc)) by exact Hs.
  rewrite (read_step _ _ h (dr, dc)) by exact Hd.
  rewrite (read_step _ _ h (Some r)) by exact Hdst.
  rewrite (bind_step _ _ _ _ _ (write_cell_spec h sr sc (Some r) Hin)).
  rewrite (read_step _ _ _ (Some r)).
  2:{ rewrite get_cell_grid_get. cbn [board set_board].
      now rewrite grid_get_set_same. }
  unfold set_location_of, Piece_set_location, bind at 1.
  cbn [objects set_board]. rewrite Hp.
  erewrite bind_step.
  2:{ apply write_cell_spec. cbn [board set_objects set_board].
      apply in_grid_grid_set. eapply get_cell_in_grid; eauto. }
  unfold undone, readd.
  cbn [board objects set_board set_objects temp blue_cart red_cart].
  destruct (temp h) as [t|] eqn:Et; [|reflexivity].
  unfold bind at 1. unfold bind at 1, read, deref.
  cbn [objects set_board set_objects].
  destruct ((<[r := set_location p source]> (objects h)) !! t) as [q|] eqn:Hq.
  - unfold bind, add_piece, modify, set_board, set_objects.
    cbn [objects board temp blue_cart red_cart snd]. rewrite ?Et.
    reflexivity.
  - exfalso. unfold wf_cell in Hwt.
    destruct (decide (r = t)) as [->|Hrt].
    + rewrite lookup_insert_eq in Hq. discriminate.
    + rewrite lookup_insert_ne in Hq by exact Hrt.
      rewrite Hq in Hwt. discriminate.
Qed.

End InvariantFacts.

Section ConsistencyFacts.

(** A piece stands on one cell only. *)
Lemma stands_on_unique (h : Heap) (row col row' col' : Z) (x : nat)
    (p : Piece) :
  stands_on h -> valid_index row col -> valid_index row' col' ->
  get_cell h row col = Ok (Some x) -> get_cell h row' col' = Ok (Some x) ->
  objects h !! x = Some p -> (row, col) = (row', col').
Proof.
  intros Hst Hv Hv' Hc Hc' Hp.
  assert (H1 := Hst _ _ _ _ Hv Hc Hp).
  assert (H2 := Hst _ _ _ _ Hv' Hc' Hp). congruence.
Qed.

(** Changing the recorded location of a piece changes nothing about who
    stands on the grid. *)
Lemma on_board_as_relocated (h h' : Heap) (r : nat) (p : Piece)
    (s : string) :
  board h' = board h -> objects h !! r = Some p ->
  objects h' = <[r := set_location p s]> (objects h) ->
  forall x c, on_board_as h' x c <-> on_board_as h x c.
Proof.
  intros Hb Hp Ho x c.
  split; intros (row & col & px & Hv & Hc & Hpx & Hown).
  - rewrite (get_cell_same_board h h' _ _ Hb) in Hc. rewrite Ho in Hpx.
    destruct (decide (r = x)) as [<-|Hrx].
    + rewrite lookup_insert_eq in Hpx. injection Hpx as <-.
      now exists row, col, p.
    + rewrite lookup_insert_ne in Hpx by exact Hrx.
      now exists row, col, px.
  - rewrite <- (get_cell_same_board h h' _ _ Hb) in Hc.
    destruct (decide (r = x)) as [<-|Hrx].
    + exists row, col, (set_location p s). rewrite Ho, lookup_insert_eq.
      assert (px = p) as -> by congruence. auto.
    + exists row, col, px. rewrite Ho, lookup_insert_ne by exact Hrx. auto.
Qed.

(** The carts after a temporary move and its undoing: the piece that was
    taken for a moment, if any, has gone to the end of its owner's
    cart. *)
Lemma temporary_move_carts (h : Heap) (sr sc dr dc : Z) (r : nat)
    (p : Piece) (source destination : string) (cell : option nat) (c : Color) :
  objects h !! r = Some p -> wf_cell h cell = true ->
  get_cart (undone (moved (set_temp cell h) sr sc dr dc r p destination cell)
                   sr sc dr dc r (set_location p destination) source) c
  = match cell with
    | None => get_cart h c
    | Some d =>
        match objects h !! d with
        | Some q =>
            if Color_eqb (owner q) c
            then ((if existsb (Nat.eqb d) (get_cart h c)
                   then remove_first d (get_cart h c)
                   else get_cart h c) ++ [d])%list
            else get_cart h c
        | None => get_cart h c
        end
    end.
Proof.
  intros Hp Hwc. unfold undone, readd, moved.
  cbn [objects board temp set_temp blue_cart red_cart].
  destruct cell as [d|]; [|now destruct c].
  unfold wf_cell in Hwc.
  destruct (objects h !! d) as [q|] eqn:Hq; [|discriminate].
  rewrite insert_insert_eq.
  assert (Hq' : exists q', (<[r := set_location (set_location p destination)
                                     source]> (objects h)) !! d = Some q'
                           /\ owner q' = owner q).
  { destruct (decide (r = d)) as [->|Hrd].
    - rewrite lookup_insert_eq. eexists. split; [reflexivity|].
      cbn [owner set_location]. congruence.
    - rewrite lookup_insert_ne by exact Hrd. eauto. }
  destruct Hq' as (q' & -> & Hown). rewrite Hown.
  unfold capture, set_temp. cbn [objects]. rewrite Hq.
  unfold remove_piece, add_piece, modify. cbn [snd].
  destruct (owner q), c;
    cbn [get_cart set_cart blue_cart red_cart Color_eqb objects board temp];
    destruct (existsb _ _);
    cbn [get_cart set_cart blue_cart red_cart objects board temp];
    reflexivity.
Qed.

(** A temporary move that went through all its steps keeps the
    invariant. *)
Lemma temporary_move_consistent (h h1 h2 h3 : Heap)
    (source destination : string) :
  consistent h ->
  prep_temp_move destination h = (Ok tt, h1) ->
  move_piece source destination h1 = (Ok tt, h2) ->
  undo_temp_move source destination h2 = (Ok tt, h3) ->
  consistent h3.
Proof.
  intros (Hwf & Hst & Hcarts) Hprep Hmove Hundo.
  destruct (temporary_move_frame _ _ _ _ _ _ Hwf Hprep Hmove Hundo)
    as (sr & sc & dr & dc & r & p & cell & Hs & Hd & Hne & Hsrc & Hobj
        & Hdst & Hwc & -> & Hb & Ho & Ht).
  assert (Hvs := decode_location_range _ _ _ Hs).
  assert (Hvd := decode_location_range _ _ _ Hd).
  assert (Hne' := cells_differ _ _ _ _ Hvs Hvd Hne).
  assert (Hin_s : in_grid (board h) sr sc)
    by (eapply get_cell_in_grid; eauto).
  assert (Hin_d : in_grid (board h) dr dc)
    by (eapply get_cell_in_grid; eauto).
  rewrite (undo_temp_move_exact _ source destination sr sc dr dc r
             (set_location p destination) Hs Hd Hne') in Hundo.
  2:{ cbn [board moved set_temp]. now do 2 apply in_grid_grid_set. }
  2:{ rewrite get_cell_grid_get. cbn [board moved set_temp].
      rewrite grid_get_set_other by congruence.
      now rewrite grid_get_set_same. }
  2:{ cbn [objects moved set_temp]. apply lookup_insert_eq. }
  2:{ unfold moved. cbn [temp set_temp].
      apply (wf_cell_insert h); [exact (objects h) | exact Hwc]. }
  injection Hundo as Hh3.
  assert (Hcart := fun c => temporary_move_carts h sr sc dr dc r p source
                              destination cell c Hobj Hwc).
  rewrite Hh3 in Hcart. clear Hh3.
  assert (Hsame := on_board_as_relocated h h3 r p source Hb Hobj Ho).
  split; [|split].
  - eapply wf_heap_same_grid; [|exact Hwf]. split; [exact Hb|].
    intros r0 Hr0. rewrite Ho.
    destruct (decide (r = r0)) as [->|Hrr].
    + now rewrite lookup_insert_eq.
    + now rewrite lookup_insert_ne.
  - intros row col x px Hv Hc Hpx.
    rewrite (get_cell_same_board h h3 _ _ Hb) in Hc. rewrite Ho in Hpx.
    destruct (decide (r = x)) as [<-|Hrx].
    + rewrite lookup_insert_eq in Hpx. injection Hpx as <-.
      cbn [location set_location].
      assert ((row, col) = (sr, sc)) as [= -> ->]
        by (eapply stands_on_unique; eauto).
      exact Hs.
    + rewrite lookup_insert_ne in Hpx by exact Hrx. eauto.
  - intros c. destruct (Hcarts c) as [Hnd Hmem]. rewrite Hcart.
    destruct cell as [d|]; [|split; [exact Hnd|]; intros x;
                              now rewrite Hsame].
    unfold wf_cell in Hwc.
    destruct (objects h !! d) as [q|] eqn:Hq; [|discriminate].
    destruct (Color_eqb (owner q) c) eqn:Eown;
      [|split; [exact Hnd|]; intros x; now rewrite Hsame].
    apply Color_eqb_eq in Eown.
    assert (Hd_in : In d (get_cart h c)).
    { apply Hmem. now exists dr, dc, q. }
    rewrite (proj2 (existsb_eqb_In d (get_cart h c)) Hd_in).
    split.
    + apply NoDup_app. split; [now apply remove_first_NoDup|].
      split; [|apply NoDup_singleton].
      intros x Hx Hx'. apply list_elem_of_In in Hx.
      apply (remove_first_spec d x _ Hnd) in Hx.
      apply list_elem_of_In in Hx'. simpl in Hx'. destruct Hx; intuition.
    + intros x. rewrite Hsame, <- Hmem, in_app_iff.
      rewrite (remove_first_spec d x _ Hnd). simpl.
      destruct (decide (x = d)) as [->|Hxd]; intuition congruence.
Qed.

(** A piece that goes to another cell, taking what stands there, leaves
    a consistent heap. *)
Lemma move_piece_consistent (h h' : Heap) (source destination : string)
    (sr sc dr dc : Z) :
  consistent h ->
  decode_location source = Ok (sr, sc) ->
  decode_location destination = Ok (dr, dc) ->
  (sr, sc) <> (dr, dc) ->
  move_piece source destination h = (Ok tt, h') ->
  consistent h'.
Proof.
  intros (Hwf & Hst & Hcarts) Hs Hd Hne Hmove.
  assert (Hvs := decode_location_range _ _ _ Hs).
  assert (Hvd := decode_location_range _ _ _ Hd).
  assert (Hne' := cells_differ _ _ _ _ Hvs Hvd Hne).
  destruct (move_piece_Ok_inv _ _ _ _ Hmove)
    as (sr' & sc' & dr' & dc' & r & Hs' & Hd' & Hsrc).
  assert (sr' = sr /\ sc' = sc) as [-> ->] by (split; congruence).
  clear Hs' Hd' dr' dc'.
  destruct (wf_heap_get_cell h sr sc Hwf Hvs) as (c0 & Hc0 & Hwr).
  assert (c0 = Some r) as -> by congruence. clear Hc0.
  destruct (wf_cell_deref _ _ Hwr) as [p Hp]. unfold deref in Hp.
  destruct (objects h !! r) as [p0|] eqn:Hobj; [|discriminate].
  injection Hp as ->.
  destruct (wf_heap_get_cell h dr dc Hwf Hvd) as (cell & Hdst & Hwc).
  rewrite (move_piece_spec h source destination sr sc dr dc r p cell
             Hs Hd Hsrc Hobj Hdst Hwc) in Hmove.
  injection Hmove as <-.
  assert (Hin_s : in_grid (board h) sr sc)
    by (eapply get_cell_in_grid; eauto).
  assert (Hin_d : in_grid (board h) dr dc)
    by (eapply get_cell_in_grid; eauto).
  (* what stands where afterwards *)
  assert (Hcellafter : forall row col, valid_index row col ->
            get_cell (moved h sr sc dr dc r p destination cell) row col
            = if decide ((row, col) = (sr, sc)) then Ok None
              else if decide ((row, col) = (dr, dc)) then Ok (Some r)
              else get_cell h row col).
  { intros row col Hv. rewrite !get_cell_grid_get. cbn [board moved].
    destruct (decide ((row, col) = (sr, sc))) as [[= -> ->]|Hn1].
    - rewrite grid_get_set_same; [reflexivity|].
      now apply in_grid_grid_set.
    - rewrite grid_get_set_other
        by (intros E; apply (cells_differ _ _ _ _ Hv Hvs Hn1);
            now symmetry).
      destruct (decide ((row, col) = (dr, dc))) as [[= -> ->]|Hn2].
      + rewrite grid_get_set_same; [reflexivity | exact Hin_d].
      + rewrite grid_get_set_other
          by (intros E; apply (cells_differ _ _ _ _ Hv Hvd Hn2);
              now symmetry).
        reflexivity. }
  assert (Hboard : forall x c,
            on_board_as (moved h sr sc dr dc r p destination cell) x c
            <-> on_board_as h x c /\ cell <> Some x).
  { intros x c. split.
    - intros (row & col & px & Hv & Hc & Hpx & Hown).
      rewrite (Hcellafter _ _ Hv) in Hc. cbn [objects moved] in Hpx.
      destruct (decide ((row, col) = (sr, sc))); [discriminate|].
      destruct (decide ((row, col) = (dr, dc))) as [[= -> ->]|Hn2].
      + injection Hc as <-. rewrite lookup_insert_eq in Hpx.
        injection Hpx as <-. split; [now exists sr, sc, p|].
        intros ->. apply Hne. eapply stands_on_unique; eauto.
      + destruct (decide (r = x)) as [<-|Hrx].
        * exfalso. apply n. eapply stands_on_unique; eauto.
        * rewrite lookup_insert_ne in Hpx by exact Hrx.
          split; [now exists row, col, px|].
          intros ->. apply Hn2. eapply stands_on_unique; eauto.
    - intros [(row & col & px & Hv & Hc & Hpx & Hown) Hnot].
      destruct (decide ((row, col) = (sr, sc))) as [[= -> ->]|Hn1].
      + assert (x = r) as -> by congruence.
        assert (px = p) as -> by congruence.
        exists dr, dc, (set_location p destination).
        rewrite (Hcellafter _ _ Hvd). cbn [objects moved].
        rewrite lookup_insert_eq.
        destruct (decide ((dr, dc) = (sr, sc))) as [E|_];
          [exfalso; apply Hne; now symmetry|].
        destruct (decide ((dr, dc) = (dr, dc))); [auto | contradiction].
      + destruct (decide ((row, col) = (dr, dc))) as [[= -> ->]|Hn2];
          [exfalso; apply Hnot; congruence|].
        assert (Hrx : r <> x).
        { intros ->. apply Hn1. eapply stands_on_unique; eauto. }
        exists row, col, px. rewrite (Hcellafter _ _ Hv). cbn [objects moved].
        rewrite lookup_insert_ne by exact Hrx.
        destruct (decide ((row, col) = (sr, sc))); [contradiction|].
        destruct (decide ((row, col) = (dr, dc))); [contradiction | auto]. }
  split; [|split].
  - apply wf_heap_moved; [exact Hwf | congruence].
  - intros row col x px Hv Hc Hpx.
    rewrite (Hcellafter _ _ Hv) in Hc. cbn [objects moved] in Hpx.
    destruct (decide ((row, col) = (sr, sc))); [discriminate|].
    destruct (decide ((row, col) = (dr, dc))) as [[= -> ->]|Hn2].
    + injection Hc as <-. rewrite lookup_insert_eq in Hpx.
      injection Hpx as <-. exact Hd.
    + destruct (decide (r = x)) as [<-|Hrx].
      * exfalso. apply n. eapply stands_on_unique; eauto.
      * rewrite lookup_insert_ne in Hpx by exact Hrx. eauto.
  - intros c. destruct (Hcarts c) as [Hnd Hmem].
    assert (Hcart : get_cart (moved h sr sc dr dc r p destination cell) c
                    = get_cart (capture cell h) c) by (now destruct c).
    rewrite Hcart. unfold capture.
    destruct cell as [d|];
      [|split; [exact Hnd|]; intros x; rewrite Hboard, Hmem;
        intuition congruence].
    unfold wf_cell in Hwc.
    destruct (objects h !! d) as [q|] eqn:Hq; [|discriminate].
    unfold remove_piece, modify. cbn [snd].
    assert (Hdec : owner q = c \/ owner q <> c)
      by (destruct (owner q), c; auto; right; discriminate).
    destruct Hdec as [Eown|Eown].
    + assert (Hd_in : In d (get_cart h (owner q))).
      { rewrite Eown. apply Hmem. now exists dr, dc, q. }
      rewrite (proj2 (existsb_eqb_In d _) Hd_in).
      assert (Hc' : get_cart (set_cart (owner q)
                                (remove_first d (get_cart h (owner q))) h) c
                    = remove_first d (get_cart h c)).
      { rewrite Eown. now destruct c. }
      rewrite Hc'. split; [now apply remove_first_NoDup|].
      intros x. rewrite Hboard, (remove_first_spec d x _ Hnd), Hmem.
      intuition congruence.
    + assert (Hc' : get_cart (if existsb (Nat.eqb d) (get_cart h (owner q))
                              then set_cart (owner q)
                                     (remove_first d (get_cart h (owner q))) h
                              else h) c
                    = get_cart h c).
      { destruct (existsb _ _); [|reflexivity].
        destruct (owner q), c; try reflexivity; contradiction. }
      rewrite Hc'. split; [exact Hnd|].
      intros x. rewrite Hboard, Hmem. split; [|tauto].
      intros Hx. split; [exact Hx|]. intros [= ->].
      destruct Hx as (row & col & px & _ & _ & Hpx & Hown). congruence.
Qed.

End ConsistencyFacts.

(** ** What every method keeps *)

Section Keeps.

Variable I : Heap -> Prop.

Lemma keeps_ret {A : Type} (a : A) : keeps I (ret a).
Proof. intros h a' h' Hi [= _ <-]. exact Hi. Qed.

Lemma keeps_read {A : Type} (f : Heap -> res A) : keeps I (read f).
Proof.
  intros h a h' Hi H. apply read_Ok in H. destruct H as [_ ->]. exact Hi.
Qed.

Lemma keeps_bind {A B : Type} (m : ST Heap A) (k : A -> ST Heap B) :
  keeps I m -> (forall a, keeps I (k a)) -> keeps I (bind m k).
Proof.
  intros Hm Hk h b h' Hi H. apply bind_Ok in H.
  destruct H as (a & h1 & H1 & H2). eapply Hk; [|exact H2]. eapply Hm; eauto.
Qed.

Lemma keeps_for_each {A R : Type} (xs : list A)
    (body : A -> ST Heap (flow R)) :
  (forall x, keeps I (body x)) -> keeps I (for_each xs body).
Proof.
  intros Hbody. induction xs as [|x xs IH]; cbn [for_each].
  - apply keeps_ret.
  - apply keeps_bind; [apply Hbody|].
    intros [|v]; [exact IH | apply keeps_ret].
Qed.

Lemma keeps_for_cart {R : Type} (fuel : nat) (player : Color)
    (body : nat -> ST Heap (flow R)) :
  (forall x, keeps I (body x)) ->
  forall i, keeps I (for_cart fuel player i body).
Proof.
  intros Hbody. induction fuel as [|fuel IH]; intros i h f h' Hi H;
    cbn [for_cart] in H;
    destruct (get_cart h player !! i) as [piece|];
    try (injection H as _ <-; exact Hi); try discriminate.
  revert H. apply keeps_bind; [apply Hbody | | exact Hi].
  intros [|v]; [apply IH | apply keeps_ret].
Qed.

(** The property is kept by every temporary move that goes through its
    three steps. *)
Hypothesis Htrial : forall source destination h h1 h2 h3,
  I h ->
  prep_temp_move destination h = (Ok tt, h1) ->
  move_piece source destination h1 = (Ok tt, h2) ->
  undo_temp_move source destination h2 = (Ok tt, h3) ->
  I h3.

Lemma keeps_Board_is_legal (source destination : string) :
  keeps I (Board_is_legal source destination).
Proof using Htrial.
  intros h b h' Hi H. unfold Board_is_legal in H.
  apply bind_Ok in H. destruct H as ([sr sc] & h0 & H0 & H).
  apply read_Ok in H0. destruct H0 as [Hs ->].
  apply bind_Ok in H. destruct H as (source_piece & h0 & H0 & H).
  apply read_Ok in H0. destruct H0 as [Hsrc ->].
  apply bind_Ok in H. destruct H as (p & h0 & H0 & H).
  apply read_Ok in H0. destruct H0 as [Hp ->].
  apply bind_Ok in H. destruct H as (movable & h0 & H0 & H).
  apply read_Ok in H0. destruct H0 as [Hm ->].
  destruct movable; [|injection H as _ <-; exact Hi].
  apply bind_Ok in H. destruct H as ([] & h1 & Hprep & H).
  apply bind_Ok in H. destruct H as ([] & h2 & Hmove & H).
  apply bind_Ok in H. destruct H as (checked & h0 & H0 & H).
  apply read_Ok in H0. destruct H0 as [Hchk ->].
  destruct checked; apply bind_Ok in H; destruct H as ([] & h3 & Hu & H);
    injection H as _ <-; eapply Htrial; eauto.
Qed.

Lemma keeps_populate_attacker_list (fuel : nat) (opponent : Color)
    (gen_loc : string) :
  forall i attacker_list,
    keeps I (populate_attacker_list fuel opponent gen_loc i attacker_list).
Proof using Htrial.
  induction fuel as [|fuel IH]; intros i acc h l h' Hi H;
    cbn [populate_attacker_list] in H;
    destruct (get_cart h opponent !! i) as [piece|];
    try (injection H as _ <-; exact Hi); try discriminate.
  revert H. apply keeps_bind; [apply keeps_read | | exact Hi].
  intros p. apply keeps_bind; [apply keeps_Board_is_legal|].
  intros threat. apply IH.
Qed.

Lemma keeps_some_defender_reaches (fuel : nat) (player : Color)
    (target : ST Heap string) :
  keeps I target -> keeps I (some_defender_reaches fuel player target).
Proof using Htrial.
  intros Ht. unfold some_defender_reaches. apply keeps_for_cart.
  intros piece. apply keeps_bind; [apply keeps_read|].
  intros p. apply keeps_bind; [exact Ht|].
  intros square. apply keeps_bind; [apply keeps_Board_is_legal|].
  intros []; apply keeps_ret.
Qed.

Lemma keeps_trial {R : Type} (source destination : string)
    (test : Heap -> res bool) (k : bool -> R) :
  keeps I
    (prep_temp_move destination ;;
     move_piece source destination ;;
     let! checked := read test in
     if negb checked
     then undo_temp_move source destination ;; ret (k true)
     else undo_temp_move source destination ;; ret (k false)).
Proof using Htrial.
  intros h a h' Hi H.
  apply bind_Ok in H. destruct H as ([] & h1 & Hprep & H).
  apply bind_Ok in H. destruct H as ([] & h2 & Hmove & H).
  apply bind_Ok in H. destruct H as (checked & h0 & H0 & H).
  apply read_Ok in H0. destruct H0 as [_ ->].
  destruct (negb checked); apply bind_Ok in H;
    destruct H as ([] & h3 & Hu & H); injection H as _ <-;
    eapply Htrial; eauto.
Qed.

Lemma keeps_is_in_checkmate (fuel : nat) (player : Color) :
  keeps I (is_in_checkmate fuel player).
Proof using Htrial.
  unfold is_in_checkmate.
  apply keeps_bind; [apply keeps_read|]. intros in_check.
  destruct (negb in_check); [apply keeps_ret|].
  apply keeps_bind; [apply keeps_read|]. intros general.
  apply keeps_bind; [apply keeps_read|]. intros gen_loc.
  apply keeps_bind; [apply keeps_populate_attacker_list|].
  intros attacker_list.
  apply keeps_bind.
  { apply keeps_for_each. intros attacker.
    apply keeps_bind.
    - apply keeps_some_defender_reaches. apply keeps_read.
    - intros [|v]; [|apply keeps_ret].
      apply keeps_bind; [apply keeps_read|]. intros a.
      apply keeps_bind; [apply keeps_read|]. intros path.
      apply keeps_for_each. intros square.
      apply keeps_some_defender_reaches. apply keeps_ret. }
  intros [|v]; [|apply keeps_ret].
  apply keeps_bind.
  { apply keeps_for_each. intros square.
    apply keeps_bind; [apply keeps_read|]. intros g.
    apply keeps_bind; [apply keeps_read|]. intros movable.
    destruct movable; [|apply keeps_ret].
    exact (keeps_trial gen_loc square _
             (fun free => if free then Return false else Continue)). }
  intros [|v]; apply keeps_ret.
Qed.

End Keeps.

Section PlayFacts.

Lemma make_move_consistent (fuel : nat) (g g' : JanggiGame)
    (source destination : string) (accepted : bool) :
  consistent (heap g) ->
  make_move fuel source destination g = (Ok accepted, g') ->
  consistent (heap g').
Proof.
  intros Hc H. apply make_move_Ok in H.
  destruct H as [(_ & _ & ->)|[(_ & _ & _ & ->)|[(_ & _ & _ & _ & ->)|H]]];
    try exact Hc.
  { destruct accepted; [|exact Hc]. unfold toggle_players.
    now destruct (current_player g). }
  destruct H as (_ & _ & r & p & _ & _ & [(_ & _ & ->)|(_ & h1 & Hl & H)]);
    [exact Hc|].
  assert (Hc1 : consistent h1).
  { eapply (keeps_Board_is_legal consistent); [|exact Hc|exact Hl].
    intros. eapply temporary_move_consistent; eauto. }
  destruct H as [(_ & ->)|(-> & h2 & h3 & mate & Hmove & Hmate & ->)];
    [exact Hc1|].
  cbn [heap].
  destruct Hc as (Hwf & Hrest).
  destruct (Board_is_legal_Ok _ _ _ _ _ Hwf Hl)
    as (sr & sc & r' & p' & Hs & _ & _ & [(_ & [=] & _)|(_ & Hrest')]).
  destruct Hrest' as (dr & dc & cell & Hd & Hne & _).
  eapply (keeps_is_in_checkmate consistent); [| |exact Hmate].
  - intros. eapply temporary_move_consistent; eauto.
  - exact (move_piece_consistent h1 h2 source destination sr sc dr dc
             Hc1 Hs Hd Hne Hmove).
Qed.

Lemma initialize_board_consistent : consistent initialize_board.
Proof. apply consistent_test_sound. vm_compute. reflexivity. Qed.

End PlayFacts.

(** X17.  [make_move] keeps the representation consistent.  If the grid
    is well formed, every piece on it records a location that names the
    cell it stands on, and each cart lists without repetition exactly the
    pieces of its colour on the grid, then the same holds after every call
    of [make_move] that returns, accepted or not, with the checkmate search
    and all its temporary moves included. *)
Theorem make_move_keeps_consistent (fuel : nat) (g g' : JanggiGame)
    (source destination : string) (accepted : bool) :
  consistent (heap g) ->
  make_move fuel source destination g = (Ok accepted, g') ->
  consistent (heap g').
Proof. apply make_move_consistent. Qed.

Lemma make_move_keeps_consistent_witness :
  consistent (heap (snd (make_move 100 "a3" "e3" mate_in_one))).
Proof.
  apply (make_move_keeps_consistent 100 mate_in_one _ "a3" "e3" true).
  - apply consistent_test_sound. vm_compute. reflexivity.
  - vm_compute. reflexivity.
Defined.

(** X18.  The invariant of play.  In every game reached from the opening
    position by calls of [make_move] that return, the grid has ten rows of
    nine cells, every piece on it records a location that names the cell
    it stands on, and each cart lists without repetition exactly the
    pieces of its colour on the grid. *)
Theorem reachable_consistent (g : JanggiGame) :
  reachable g -> consistent (heap g).
Proof.
  induction 1 as [|fuel source destination g g' accepted _ IH Hmove].
  - exact initialize_board_consistent.
  - eapply make_move_consistent; eauto.
Qed.

Lemma reachable_consistent_witness :
  consistent (heap (snd (make_move 100 "e7" "e6" new_game))).
Proof.
  apply (reachable_consistent (snd (make_move 100 "e7" "e6" new_game))).
  apply (reachable_make_move 100 "e7" "e6" new_game _ true).
  - exact reachable_new_game.
  - vm_compute. reflexivity.
Defined.

(** ** Check *)

Section CheckFacts.

Lemma get_name_General (p : Piece) :
  String.eqb (get_name p) "GN" = true <-> kind p = General.
Proof. unfold get_name. destruct (kind p); simpl; split; congruence. Qed.

Variable h : Heap.

(** [get_general] returns a General of the cart, or the value it started
    from when it met none. *)
Lemma get_general_from_Ok (cart : list nat) (start found : option nat) :
  get_general_from h cart start = Ok found ->
  (found = start
   /\ forall r p, In r cart -> objects h !! r = Some p -> kind p <> General)
  \/ (exists g gp, found = Some g /\ In g cart
                   /\ objects h !! g = Some gp /\ kind gp = General).
Proof.
  revert start. induction cart as [|r cart IH]; intros start H;
    cbn [get_general_from] in H.
  - injection H as <-. left. split; [reflexivity|]. intros r p [].
  - unfold deref in H. destruct (objects h !! r) as [p|] eqn:Hp;
      [|discriminate].
    cbn [res_bind] in H.
    destruct (String.eqb (get_name p) "GN") eqn:En.
    + apply get_name_General in En. right.
      destruct (IH _ H) as [[-> _]|(g & gp & -> & Hin & Hg & Hk)].
      * exists r, p. split; [reflexivity|]. split; [now left | auto].
      * exists g, gp. split; [reflexivity|]. split; [now right | auto].
    + destruct (IH _ H) as [[-> Hnone]|(g & gp & -> & Hin & Hg & Hk)].
      * left. split; [reflexivity|]. intros r' p' [<-|Hin] Hp'.
        -- assert (p' = p) as -> by congruence. intros Hk.
           apply get_name_General in Hk. congruence.
        -- eauto.
      * right. exists g, gp. split; [reflexivity|].
        split; [now right | auto].
Qed.

Lemma get_general_from_total (cart : list nat) (start : option nat) :
  (forall r, In r cart -> objects h !! r <> None) ->
  exists found, get_general_from h cart start = Ok found.
Proof.
  revert start. induction cart as [|r cart IH]; intros start Hall;
    cbn [get_general_from]; [eauto|].
  unfold deref. destruct (objects h !! r) as [p|] eqn:Hp.
  - cbn [res_bind]. destruct (String.eqb (get_name p) "GN");
      apply IH; intros; apply Hall; now right.
  - exfalso. apply (Hall r); [now left | exact Hp].
Qed.

Lemma any_of_Ok {A : Type} (test : A -> res bool) (xs : list A) (b : bool) :
  any_of test xs = Ok b ->
  (b = true <-> exists x, In x xs /\ test x = Ok true).
Proof.
  induction xs as [|x xs IH]; cbn [any_of]; intros H.
  - injection H as <-. split; [discriminate | intros (x & [] & _)].
  - destruct (test x) as [[|]|] eqn:Ex; cbn [res_bind] in H;
      try discriminate.
    + injection H as <-. split; [|reflexivity].
      intros _. exists x. split; [now left | exact Ex].
    + rewrite (IH H). split.
      * intros (y & Hy & Ey). exists y. split; [now right | exact Ey].
      * intros (y & [<-|Hy] & Ey); [congruence | eauto].
Qed.

Lemma any_of_total {A : Type} (test : A -> res bool) (xs : list A) :
  (forall x, In x xs -> exists b, test x = Ok b) ->
  exists b, any_of test xs = Ok b.
Proof.
  induction xs as [|x xs IH]; cbn [any_of]; intros Hall; [eauto|].
  destruct (Hall x) as [b ->]; [now left|]. cbn [res_bind].
  destruct b; [eauto|]. apply IH. intros; apply Hall; now right.
Qed.

End CheckFacts.

(** X19.  What check means.  Whenever [Board.is_in_check] returns for a
    player on a consistent board, that player has a General in its cart,
    and the answer is [True] exactly when some piece of the other colour
    standing on the grid may, by its own movement rule, go from its
    recorded location to the recorded location of that General. *)
Theorem is_in_check_meaning (h : Heap) (player : Color) (b : bool) :
  consistent h ->
  is_in_check h player = Ok b ->
  exists g gp,
    get_general h player = Ok (Some g)
    /\ In g (get_cart h player)
    /\ objects h !! g = Some gp /\ kind gp = General
    /\ (b = true <->
        exists r p,
          on_board_as h r (opponent_of player)
          /\ objects h !! r = Some p
          /\ Piece_is_legal h p (location p) (location gp) = Ok true).
Proof.
  intros (Hwf & Hst & Hcarts) H. unfold is_in_check in H.
  destruct (get_general h player) as [general|] eqn:Hg; [|discriminate].
  cbn [res_bind] in H.
  destruct general as [g|]; [|discriminate].
  unfold get_general in Hg.
  destruct (get_general_from_Ok h _ _ _ Hg)
    as [[[=] _]|(g' & gp & [= <-] & Hin & Hgp & Hk)].
  unfold location_of, deref in H. rewrite Hgp in H. cbn [res_bind] in H.
  exists g, gp. repeat (split; [assumption || reflexivity|]).
  rewrite (any_of_Ok _ _ _ H). split.
  - intros (r & Hr & Ht). unfold deref in Ht.
    destruct (objects h !! r) as [p|] eqn:Hp; [|discriminate].
    cbn [res_bind] in Ht. exists r, p.
    split; [|auto]. apply (Hcarts (opponent_of player)).
    now destruct player.
  - intros (r & p & Hr & Hp & Ht). exists r. split.
    + apply (Hcarts (opponent_of player)) in Hr. now destruct player.
    + unfold deref. rewrite Hp. exact Ht.
Qed.

Lemma is_in_check_meaning_witness :
  exists g gp,
    get_general (heap shielded_general) blue = Ok (Some g)
    /\ In g (get_cart (heap shielded_general) blue)
    /\ objects (heap shielded_general) !! g = Some gp /\ kind gp = General
    /\ (false = true <->
        exists r p,
          on_board_as (heap shielded_general) r (opponent_of blue)
          /\ objects (heap shielded_general) !! r = Some p
          /\ Piece_is_legal (heap shielded_general) p (location p)
                            (location gp) = Ok true).
Proof.
  apply (is_in_check_meaning (heap shielded_general) blue false).
  - apply consistent_test_sound. vm_compute. reflexivity.
  - vm_compute. reflexivity.
Defined.

Lemma is_in_check_cases (h : Heap) (player : Color) :
  consistent h ->
  ((exists g gp, In g (get_cart h player)
                 /\ objects h !! g = Some gp /\ kind gp = General) ->
   exists b, is_in_check h player = Ok b)
  /\ ((forall g gp, In g (get_cart h player) -> objects h !! g = Some gp ->
                    kind gp <> General) ->
      is_in_check h player = Raise AttributeError).
Proof.
  intros (Hwf & Hst & Hcarts).
  assert (Hobj : forall c r, In r (get_cart h c) ->
            exists row col p, valid_index row col
                              /\ objects h !! r = Some p
                              /\ decode_location (location p)
                                 = Ok (row, col)).
  { intros c r Hr. apply (Hcarts c) in Hr.
    destruct Hr as (row & col & p & Hv & Hc & Hp & _).
    exists row, col, p. eauto. }
  destruct (get_general_from_total h (get_cart h player) None)
    as [found Hg].
  { intros r Hr. destruct (Hobj _ _ Hr) as (_ & _ & p & _ & -> & _).
    discriminate. }
  unfold is_in_check, get_general. rewrite Hg. cbn [res_bind].
  destruct (get_general_from_Ok h _ _ _ Hg)
    as [[-> Hnone]|(g & gp & -> & Hin & Hgp & Hk)].
  - split; [|reflexivity].
    intros (g & gp & Hin & Hgp & Hk). exfalso. eapply Hnone; eauto.
  - split; [|intros Hnone; exfalso; eapply Hnone; eauto].
    intros _. unfold location_of, deref. rewrite Hgp. cbn [res_bind].
    destruct (Hobj _ _ Hin) as (grow & gcol & gp' & _ & Hgp' & Hgd).
    assert (gp' = gp) as -> by congruence.
    apply any_of_total. intros r Hr.
    destruct (Hobj (match player with blue => red | red => blue end) r Hr)
      as (row & col & p & _ & Hp & Hd).
    unfold deref. rewrite Hp. cbn [res_bind].
    eapply Piece_is_legal_total; eauto.
Qed.

(** X20.  When [Board.is_in_check] returns.  On a consistent board it
    returns a Boolean for a player whose cart holds a General, and raises
    [AttributeError] (the location of [None] is asked for) for a player
    whose cart holds none. *)
Theorem is_in_check_returns (h : Heap) (player : Color) :
  consistent h ->
  ((exists g gp, In g (get_cart h player)
                 /\ objects h !! g = Some gp /\ kind gp = General) ->
   exists b, is_in_check h player = Ok b)
  /\ ((forall g gp, In g (get_cart h player) -> objects h !! g = Some gp ->
                    kind gp <> General) ->
      is_in_check h player = Raise AttributeError).
Proof. apply is_in_check_cases. Qed.

Lemma is_in_check_returns_witness :
  (exists b, is_in_check initialize_board red = Ok b)
  /\ is_in_check (position [piece Chariot "a1" red; piece Soldier "a7" blue])
                 blue
     = Raise AttributeError.
Proof.
  split.
  - refine (proj1 (is_in_check_returns initialize_board red _) _).
    + apply consistent_test_sound. vm_compute. reflexivity.
    + exists 8%nat, (piece General "e2" red).
      split; [|split; reflexivity]. vm_compute. do 8 right. now left.
  - refine (proj2 (is_in_check_returns
                     (position [piece Chariot "a1" red;
                                piece Soldier "a7" blue]) blue _) _).
    + apply consistent_test_sound. vm_compute. reflexivity.
    + intros g gp Hin Hgp. vm_compute in Hin.
      destruct Hin as [<-|[]]. vm_compute in Hgp. injection Hgp as <-.
      discriminate.
Defined.

(** ** Strings that name no square *)

Section BadSquares.

Lemma Piece_is_legal_bad_destination (h : Heap) (self : Piece)
    (source destination : string) (sr sc : Z) (e : exn) :
  decode_location source = Ok (sr, sc) ->
  decode_location destination = Raise e ->
  Piece_is_legal h self source destination = Raise e.
Proof.
  intros Hs Hd.
  unfold Piece_is_legal, General_is_legal, Guard_is_legal, Elephant_is_legal,
    Horse_is_legal, Chariot_is_legal, Cannon_is_legal, Soldier_is_legal.
  destruct (kind self); rewrite Hs, Hd; reflexivity.
Qed.

Lemma Board_is_legal_bad_destination (h : Heap) (source destination : string)
    (r : nat) (p : Piece) (e : exn) :
  get_occupant h source = Ok (Some r) -> objects h !! r = Some p ->
  decode_location destination = Raise e ->
  Board_is_legal source destination h = (Raise e, h).
Proof.
  intros Hocc Hp Hd. unfold get_occupant in Hocc.
  destruct (decode_location source) as [[sr sc]|] eqn:Hs; [|discriminate].
  cbn [res_bind] in Hocc. unfold Board_is_legal.
  rewrite (bind_step _ _ h (sr, sc) h) by (unfold read; now rewrite Hs).
  rewrite (bind_step _ _ h (Some r) h) by (unfold read; now rewrite Hocc).
  rewrite (bind_step _ _ h p h)
    by (unfold read, owner_of, deref; now rewrite Hp).
  apply bind_Raise. unfold read.
  now rewrite (Piece_is_legal_bad_destination h p _ _ sr sc e Hs Hd).
Qed.

End BadSquares.

(** X21.  Strings that name no square.  In an unfinished game, for two
    different strings: when [decode_location] raises on the source,
    [make_move] raises the same exception; when the source holds a piece
    of the player to move and [decode_location] raises on the
    destination, [make_move] raises that exception.  In both cases
    nothing has been written: the game is as before the call. *)
Theorem make_move_bad_square (fuel : nat) (g : JanggiGame)
    (source destination : string) (e : exn) :
  game_state g = UNFINISHED -> source <> destination ->
  (decode_location source = Raise e ->
   make_move fuel source destination g = (Raise e, g))
  /\ (forall r p,
        get_occupant (heap g) source = Ok (Some r) ->
        objects (heap g) !! r = Some p ->
        owner p = current_player g ->
        decode_location destination = Raise e ->
        make_move fuel source destination g = (Raise e, g)).
Proof.
  intros Hst Hne. apply String.eqb_neq in Hne. split.
  - intros Hd. unfold make_move.
    rewrite (bind_step _ _ g (game_state g) g) by reflexivity.
    rewrite Hst. cbn [GameState_eqb negb]. rewrite Hne.
    apply bind_Raise. rewrite on_board_read. unfold get_occupant.
    now rewrite Hd.
  - intros r p Hocc Hp Hown Hd. unfold make_move.
    rewrite (bind_step _ _ g (game_state g) g) by reflexivity.
    rewrite Hst. cbn [GameState_eqb negb]. rewrite Hne.
    rewrite (bind_step _ _ g (Some r) g)
      by (rewrite on_board_read; now rewrite Hocc).
    rewrite (bind_step _ _ g (Some r) g)
      by (rewrite on_board_read; now rewrite Hocc).
    rewrite (bind_step _ _ g p g)
      by (rewrite on_board_read; unfold owner_of, deref; now rewrite Hp).
    rewrite (bind_step _ _ g (current_player g) g) by reflexivity.
    rewrite Hown, (proj2 (Color_eqb_eq _ _) eq_refl). cbn [negb].
    apply bind_Raise. unfold on_board.
    rewrite (Board_is_legal_bad_destination _ _ _ r p e Hocc Hp Hd).
    now rewrite set_heap_heap.
Qed.

Lemma make_move_bad_square_witness :
  make_move 0 "j1" "e5" new_game = (Raise KeyError, new_game)
  /\ make_move 0 "e7" "e" new_game = (Raise IndexError, new_game).
Proof.
  split.
  - apply (proj1 (make_move_bad_square 0 new_game "j1" "e5" KeyError
                    eq_refl ltac:(discriminate))).
    reflexivity.
  - apply (proj2 (make_move_bad_square 0 new_game "e7" "e" IndexError
                    eq_refl ltac:(discriminate))
             18%nat (piece Soldier "e7" blue));
      vm_compute; reflexivity.
Defined.

(** ** When [Board.is_legal] returns *)

Section LegalReturns.

Lemma consistent_set_temp (h : Heap) (t : option nat) :
  consistent h -> consistent (set_temp t h).
Proof.
  intros (Hwf & Hst & Hcarts). split; [exact Hwf|]. split.
  - intros row col r p Hv Hc Hp. exact (Hst row col r p Hv Hc Hp).
  - intros c. destruct (Hcarts c) as [Hnd Hmem].
    split; [now destruct c|]. intros r.
    assert (Hcart : get_cart (set_temp t h) c = get_cart h c)
      by (now destruct c).
    rewrite Hcart, Hmem. reflexivity.
Qed.

(** A move the rule allows takes no piece of the mover's side, so the
    mover's cart is the same after it. *)
Lemma moved_keeps_own_cart (h : Heap) (sr sc dr dc : Z) (r : nat)
    (p : Piece) (destination : string) (cell : option nat) :
  (forall d q, cell = Some d -> objects h !! d = Some q ->
               owner q <> owner p) ->
  get_cart (moved h sr sc dr dc r p destination cell) (owner p)
  = get_cart h (owner p).
Proof.
  intros Hfoe.
  assert (Hcart : get_cart (moved h sr sc dr dc r p destination cell)
                           (owner p)
                  = get_cart (capture cell h) (owner p))
    by (now destruct (owner p)).
  rewrite Hcart. unfold capture. destruct cell as [d|]; [|reflexivity].
  destruct (objects h !! d) as [q|] eqn:Hq; [|reflexivity].
  specialize (Hfoe d q eq_refl Hq).
  unfold remove_piece, modify. cbn [snd].
  destruct (existsb _ _); [|reflexivity].
  destruct (owner q), (owner p); try reflexivity; contradiction.
Qed.

Lemma has_general_moved (h : Heap) (sr sc dr dc : Z) (r : nat)
    (p : Piece) (destination : string) (cell : option nat) :
  objects h !! r = Some p ->
  (forall d q, cell = Some d -> objects h !! d = Some q ->
               owner q <> owner p) ->
  has_general h (owner p) ->
  has_general (moved h sr sc dr dc r p destination cell) (owner p).
Proof.
  intros Hp Hfoe (g & gp & Hin & Hgp & Hk).
  rewrite <- (moved_keeps_own_cart h sr sc dr dc r p destination cell Hfoe)
    in Hin.
  destruct (decide (r = g)) as [<-|Hrg].
  - exists r, (set_location p destination). split; [exact Hin|].
    cbn [objects moved]. rewrite lookup_insert_eq.
    split; [reflexivity|]. cbn [kind set_location]. congruence.
  - exists g, gp. split; [exact Hin|]. cbn [objects moved].
    rewrite lookup_insert_ne by exact Hrg. auto.
Qed.

(** On a consistent board, [Board.is_legal] returns a Boolean whenever
    the source holds a piece whose side has a General and the destination
    names a square. *)
Lemma Board_is_legal_total (h : Heap) (source destination : string)
    (r : nat) (p : Piece) :
  consistent h ->
  get_occupant h source = Ok (Some r) -> objects h !! r = Some p ->
  has_general h (owner p) -> decodable destination ->
  exists b h', Board_is_legal source destination h = (Ok b, h').
Proof.
  intros Hc Hocc Hp Hgen (dr & dc & Hd).
  assert (Hwf := proj1 Hc). unfold get_occupant in Hocc.
  destruct (decode_location source) as [[sr sc]|] eqn:Hs; [|discriminate].
  cbn [res_bind] in Hocc.
  destruct (Piece_is_legal_total h Hwf p source destination sr sc dr dc
              Hs Hd) as [movable Hm].
  unfold Board_is_legal.
  rewrite (bind_step _ _ h (sr, sc) h) by (unfold read; now rewrite Hs).
  rewrite (bind_step _ _ h (Some r) h) by (unfold read; now rewrite Hocc).
  rewrite (bind_step _ _ h p h)
    by (unfold read, owner_of, deref; now rewrite Hp).
  rewrite (bind_step _ _ h movable h) by (unfold read; now rewrite Hm).
  destruct movable; [|eauto].
  destruct (wf_heap_get_cell h dr dc Hwf (decode_location_range _ _ _ Hd))
    as (cell & Hdst & Hwc).
  assert (Hfoe : forall d q, cell = Some d -> objects h !! d = Some q ->
                             owner q <> owner p).
  { intros d q -> Hq Hown.
    rewrite (Piece_is_legal_friendly h Hwf p source destination sr sc dr dc
               Hs Hd d q Hdst Hq Hown) in Hm. discriminate. }
  assert (Hne : (sr, sc) <> (dr, dc)).
  { intros [= -> ->]. rewrite Hocc in Hdst. injection Hdst as <-.
    now apply (Hfoe r p). }
  destruct (temporary_move_steps h source destination sr sc dr dc r p cell
              Hs Hd Hne Hocc Hp Hdst Hwc)
    as (Hprep & Hmove & h3 & Hundo & _).
  rewrite (bind_step _ _ _ _ _ Hprep), (bind_step _ _ _ _ _ Hmove).
  assert (Hc1 : consistent
                  (moved (set_temp cell h) sr sc dr dc r p destination cell)).
  { exact (move_piece_consistent (set_temp cell h) _ source destination
             sr sc dr dc (consistent_set_temp h cell Hc) Hs Hd Hne Hmove). }
  destruct (proj1 (is_in_check_cases _ (owner p) Hc1)) as [checked Hchk].
  { apply has_general_moved; [exact Hp | exact Hfoe|].
    destruct Hgen as (g & gp & Hin & Hgp & Hk). exists g, gp.
    split; [now destruct (owner p) | auto]. }
  rewrite (bind_step _ _ _ checked _) by (unfold read; now rewrite Hchk).
  destruct checked; rewrite (bind_step _ _ _ _ _ Hundo); eauto.
Qed.

End LegalReturns.

(** X22.  [Board.is_legal] does not raise on a consistent board: it
    returns a Boolean whenever the source square holds a piece whose
    side has a General in its cart and the destination is a string
    [decode_location] accepts. *)
Theorem is_legal_returns (h : Heap) (source destination : string)
    (r : nat) (p : Piece) :
  consistent h ->
  get_occupant h source = Ok (Some r) -> objects h !! r = Some p ->
  has_general h (owner p) -> decodable destination ->
  exists b h', Board_is_legal source destination h = (Ok b, h').
Proof. apply Board_is_legal_total. Qed.

Lemma is_legal_returns_witness :
  exists b h', Board_is_legal "b3" "b10" initialize_board = (Ok b, h').
Proof.
  apply (is_legal_returns initialize_board "b3" "b10" 9%nat
           (piece Cannon "b3" red)).
  - apply consistent_test_sound. vm_compute. reflexivity.
  - vm_compute. reflexivity.
  - vm_compute. reflexivity.
  - exists 8%nat, (piece General "e2" red).
    split; [|split; reflexivity]. vm_compute. do 8 right. now left.
  - do 2 eexists. reflexivity.
Defined.

(** X23.  Taking a General.  When an accepted move leaves the other
    player without a General in its cart, [make_move] raises
    [AttributeError]: the checkmate search asks for the location of the
    General that is no longer there.  The exception comes after the
    writes, so the piece has moved and the turn has passed. *)
Theorem make_move_takes_general (fuel : nat) (g : JanggiGame)
    (source destination : string) (r : nat) (p : Piece) (h1 h2 : Heap) :
  game_state g = UNFINISHED -> source <> destination ->
  get_occupant (heap g) source = Ok (Some r) ->
  objects (heap g) !! r = Some p -> owner p = current_player g ->
  Board_is_legal source destination (heap g) = (Ok true, h1) ->
  move_piece source destination h1 = (Ok tt, h2) ->
  get_general h2 (opponent_of (current_player g)) = Ok None ->
  make_move fuel source destination g
  = (Raise AttributeError,
     {| heap := h2; game_state := UNFINISHED;
        current_player := opponent_of (current_player g) |}).
Proof.
  intros Hst Hne Hocc Hp Hown Hl Hmove Hgen.
  apply String.eqb_neq in Hne. unfold make_move.
  rewrite (bind_step _ _ g (game_state g) g) by reflexivity.
  rewrite Hst. cbn [GameState_eqb negb]. rewrite Hne.
  rewrite (bind_step _ _ g (Some r) g)
    by (rewrite on_board_read; now rewrite Hocc).
  rewrite (bind_step _ _ g (Some r) g)
    by (rewrite on_board_read; now rewrite Hocc).
  rewrite (bind_step _ _ g p g)
    by (rewrite on_board_read; unfold owner_of, deref; now rewrite Hp).
  rewrite (bind_step _ _ g (current_player g) g) by reflexivity.
  rewrite Hown, (proj2 (Color_eqb_eq _ _) eq_refl). cbn [negb].
  rewrite (bind_step _ _ g true (set_heap h1 g))
    by (unfold on_board; now rewrite Hl).
  rewrite (bind_step _ _ (set_heap h1 g) tt (set_heap h2 g))
    by (unfold on_board; cbn [heap set_heap]; now rewrite Hmove).
  rewrite modify_step. rewrite toggle_players_opponent.
  cbn [current_player set_heap set_current_player heap game_state].
  rewrite (bind_step _ _ _ (opponent_of (current_player g)) _)
    by reflexivity.
  apply bind_Raise. unfold on_board.
  cbn [current_player set_heap set_current_player heap game_state].
  assert (Hmate : is_in_checkmate fuel (opponent_of (current_player g)) h2
                  = (Raise AttributeError, h2)).
  { unfold is_in_checkmate. apply bind_Raise. unfold read, is_in_check.
    now rewrite Hgen. }
  rewrite Hmate. unfold set_heap. cbn [heap game_state current_player].
  now rewrite Hst.
Qed.

Lemma make_move_takes_general_witness :
  make_move 100 "e5" "e2" general_en_prise
  = (Raise AttributeError,
     {| heap := snd (move_piece "e5" "e2"
                       (snd (Board_is_legal "e5" "e2"
                               (heap general_en_prise))));
        game_state := UNFINISHED;
        current_player := opponent_of (current_player general_en_prise) |}).
Proof.
  apply (make_move_takes_general 100 general_en_prise "e5" "e2" 1%nat
           (piece Chariot "e5" blue)
           (snd (Board_is_legal "e5" "e2" (heap general_en_prise))));
    try (vm_compute; reflexivity).
  discriminate.
Defined.

(** ** The checkmate search returns *)

Section SamePieces.

Lemma remove_first_perm (d : nat) (l : list nat) :
  In d l -> Permutation (remove_first d l ++ [d]) l.
Proof.
  induction l as [|x l IH]; cbn [remove_first]; [intros []|].
  destruct (Nat.eqb_spec d x) as [->|Hne].
  - intros _. rewrite Permutation_app_comm. reflexivity.
  - intros [->|Hin]; [contradiction|]. cbn [app].
    now rewrite (IH Hin).
Qed.

Lemma same_pieces_refl (h : Heap) : same_pieces h h.
Proof. split; [reflexivity|]. split; [reflexivity|]. reflexivity. Qed.

Lemma same_pieces_trans (h1 h2 h3 : Heap) :
  same_pieces h1 h2 -> same_pieces h2 h3 -> same_pieces h1 h3.
Proof.
  intros (Hb1 & Ho1 & Hc1) (Hb2 & Ho2 & Hc2).
  split; [congruence|]. split; [congruence|].
  intros c. now rewrite Hc2.
Qed.

Lemma same_pieces_get_cell (h h' : Heap) (row col : Z) :
  same_pieces h h' -> get_cell h' row col = get_cell h row col.
Proof. intros (Hb & _). now apply get_cell_same_board. Qed.

Lemma same_pieces_on_board_as (h h' : Heap) (r : nat) (c : Color) :
  same_pieces h h' -> on_board_as h' r c <-> on_board_as h r c.
Proof.
  intros Hsp. assert (Hcell := same_pieces_get_cell h h').
  destruct Hsp as (Hb & Ho & Hperm). unfold on_board_as.
  assert (Hsp : same_pieces h h') by (split; auto).
  split; intros (row & col & p & Hv & Hc & Hp & Hown);
    exists row, col, p.
  - rewrite Hcell in Hc by assumption. rewrite Ho in Hp. auto.
  - rewrite Hcell by assumption. rewrite Ho. auto.
Qed.

Lemma same_pieces_consistent (h h' : Heap) :
  same_pieces h h' -> consistent h -> consistent h'.
Proof.
  intros Hsp (Hwf & Hst & Hcarts).
  assert (Hcell := same_pieces_get_cell h h' ).
  assert (Hon := fun r c => same_pieces_on_board_as h h' r c Hsp).
  assert (Hsp' := Hsp). destruct Hsp' as (Hb & Ho & Hperm).
  split; [|split].
  - eapply wf_heap_same_grid; [|exact Hwf]. split; [exact Hb|].
    intros r Hr. now rewrite Ho.
  - intros row col r p Hv Hc Hp. rewrite Hcell in Hc by assumption.
    rewrite Ho in Hp. eauto.
  - intros c. destruct (Hcarts c) as [Hnd Hmem]. split.
    + rewrite (Hperm c). exact Hnd.
    + intros r. rewrite Hon, <- Hmem. split; apply Permutation_in;
        [apply Hperm | symmetry; apply Hperm].
Qed.

Lemma same_pieces_has_general (h h' : Heap) (c : Color) :
  same_pieces h h' -> has_general h c -> has_general h' c.
Proof.
  intros (_ & Ho & Hperm) (g & gp & Hin & Hgp & Hk). exists g, gp.
  split; [|rewrite Ho; auto].
  eapply Permutation_in; [symmetry; apply Hperm | exact Hin].
Qed.

Lemma same_pieces_length (h h' : Heap) (c : Color) :
  same_pieces h h' -> length (get_cart h' c) = length (get_cart h c).
Proof. intros (_ & _ & Hperm). apply Permutation_length, Hperm. Qed.

(** A piece of a cart stands on the square its location names. *)
Lemma cart_piece_occupies (h : Heap) (c : Color) (r : nat) (p : Piece) :
  consistent h -> In r (get_cart h c) -> objects h !! r = Some p ->
  owner p = c
  /\ exists row col, decode_location (location p) = Ok (row, col)
                     /\ get_cell h row col = Ok (Some r).
Proof.
  intros (_ & Hst & Hcarts) Hin Hp. apply (Hcarts c) in Hin.
  destruct Hin as (row & col & p' & Hv & Hc & Hp' & Hown).
  assert (p' = p) as -> by congruence. split; [exact Hown|].
  exists row, col. split; [eapply Hst; eauto | exact Hc].
Qed.

Lemma cart_piece_object (h : Heap) (c : Color) (r : nat) :
  consistent h -> In r (get_cart h c) -> exists p, objects h !! r = Some p.
Proof.
  intros (_ & _ & Hcarts) Hin. apply (Hcarts c) in Hin.
  destruct Hin as (_ & _ & p & _ & _ & Hp & _). eauto.
Qed.

(** The temporary move of a piece from the square it records, with its
    three steps: each returns, and the last leaves the pieces as they
    were before the first. *)
Lemma temporary_move_same_pieces (h : Heap) (destination : string)
    (sr sc dr dc : Z) (r : nat) (p : Piece) (cell : option nat) :
  consistent h ->
  decode_location (location p) = Ok (sr, sc) ->
  decode_location destination = Ok (dr, dc) ->
  (sr, sc) <> (dr, dc) ->
  get_cell h sr sc = Ok (Some r) -> objects h !! r = Some p ->
  get_cell h dr dc = Ok cell ->
  let h1 := moved (set_temp cell h) sr sc dr dc r p destination cell in
  prep_temp_move destination h = (Ok tt, set_temp cell h)
  /\ move_piece (location p) destination (set_temp cell h) = (Ok tt, h1)
  /\ consistent h1
  /\ exists h2, undo_temp_move (location p) destination h1 = (Ok tt, h2)
                /\ same_pieces h h2.
Proof.
  intros Hc Hs Hd Hne Hsrc Hobj Hdst h1.
  assert (Hwf := proj1 Hc).
  assert (Hvs := decode_location_range _ _ _ Hs).
  assert (Hvd := decode_location_range _ _ _ Hd).
  assert (Hne' := cells_differ _ _ _ _ Hvs Hvd Hne).
  destruct (wf_heap_get_cell h dr dc Hwf Hvd) as (cell' & Hdst' & Hwc).
  assert (cell' = cell) as -> by congruence. clear Hdst'.
  destruct (temporary_move_steps h (location p) destination sr sc dr dc r p
              cell Hs Hd Hne Hsrc Hobj Hdst Hwc)
    as (Hprep & Hmove & h2 & Hundo & Hb & Ho & _).
  split; [exact Hprep|]. split; [exact Hmove|]. split.
  { exact (move_piece_consistent (set_temp cell h) _ (location p)
             destination sr sc dr dc (consistent_set_temp h cell Hc)
             Hs Hd Hne Hmove). }
  exists h2. split; [exact Hundo|].
  assert (Hin_s : in_grid (board h) sr sc)
    by (eapply get_cell_in_grid; eauto).
  assert (Hin_d : in_grid (board h) dr dc)
    by (eapply get_cell_in_grid; eauto).
  fold h1 in Hundo.
  rewrite (undo_temp_move_exact h1 (location p) destination sr sc dr dc r
             (set_location p destination) Hs Hd Hne') in Hundo.
  2:{ subst h1. cbn [board moved set_temp].
      now do 2 apply in_grid_grid_set. }
  2:{ rewrite get_cell_grid_get. subst h1. cbn [board moved set_temp].
      rewrite grid_get_set_other by congruence.
      now rewrite grid_get_set_same. }
  2:{ subst h1. cbn [objects moved set_temp]. apply lookup_insert_eq. }
  2:{ subst h1. unfold moved. cbn [temp set_temp].
      apply (wf_cell_insert h); [exact (objects h) | exact Hwc]. }
  injection Hundo as Hh2.
  split; [exact Hb|]. split.
  { rewrite Ho, set_location_back. now apply insert_id. }
  intros c. rewrite <- Hh2. subst h1.
  rewrite (temporary_move_carts h sr sc dr dc r p (location p) destination
             cell c Hobj Hwc).
  destruct cell as [d|]; [|reflexivity].
  unfold wf_cell in Hwc.
  destruct (objects h !! d) as [q|] eqn:Hq; [|discriminate].
  destruct (Color_eqb (owner q) c) eqn:Eown; [|reflexivity].
  apply Color_eqb_eq in Eown.
  assert (Hd_in : In d (get_cart h c)).
  { apply (proj2 (proj2 Hc) c). now exists dr, dc, q. }
  rewrite (proj2 (existsb_eqb_In d (get_cart h c)) Hd_in).
  now apply remove_first_perm.
Qed.

End SamePieces.

Section TrialReturns.

(** A rule that accepts a move takes no piece of the mover's side and
    goes to another cell. *)
Lemma legal_move_shape (h : Heap) (p : Piece) (source destination : string)
    (sr sc dr dc : Z) (r : nat) (cell : option nat) :
  wf_heap h = true ->
  decode_location source = Ok (sr, sc) ->
  decode_location destination = Ok (dr, dc) ->
  get_cell h sr sc = Ok (Some r) -> objects h !! r = Some p ->
  get_cell h dr dc = Ok cell ->
  Piece_is_legal h p source destination = Ok true ->
  (forall d q, cell = Some d -> objects h !! d = Some q ->
               owner q <> owner p)
  /\ (sr, sc) <> (dr, dc).
Proof.
  intros Hwf Hs Hd Hsrc Hp Hdst Hm.
  assert (Hfoe : forall d q, cell = Some d -> objects h !! d = Some q ->
                             owner q <> owner p).
  { intros d q -> Hq Hown.
    rewrite (Piece_is_legal_friendly h Hwf p source destination sr sc dr dc
               Hs Hd d q Hdst Hq Hown) in Hm. discriminate. }
  split; [exact Hfoe|].
  intros [= -> ->]. rewrite Hsrc in Hdst. injection Hdst as <-.
  now apply (Hfoe r p).
Qed.

(** The temporary move of a piece of a cart, from the square it records
    to a square its rule allows: the three steps and the test for check
    between them all return, and the pieces are as before at the end. *)
Lemma cart_trial (h : Heap) (c : Color) (r : nat) (p : Piece)
    (destination : string) :
  consistent h -> In r (get_cart h c) -> objects h !! r = Some p ->
  has_general h c -> decodable destination ->
  Piece_is_legal h p (location p) destination = Ok true ->
  exists h1 h2 checked h3,
    prep_temp_move destination h = (Ok tt, h1)
    /\ move_piece (location p) destination h1 = (Ok tt, h2)
    /\ is_in_check h2 c = Ok checked
    /\ undo_temp_move (location p) destination h2 = (Ok tt, h3)
    /\ same_pieces h h3.
Proof.
  intros Hc Hin Hp Hgen (dr & dc & Hd) Hm.
  assert (Hwf := proj1 Hc).
  destruct (cart_piece_occupies h c r p Hc Hin Hp)
    as (Hown & sr & sc & Hs & Hsrc).
  destruct (wf_heap_get_cell h dr dc Hwf (decode_location_range _ _ _ Hd))
    as (cell & Hdst & Hwc).
  destruct (legal_move_shape h p _ _ sr sc dr dc r cell Hwf Hs Hd Hsrc Hp
              Hdst Hm) as [Hfoe Hne].
  destruct (temporary_move_same_pieces h destination sr sc dr dc r p cell
              Hc Hs Hd Hne Hsrc Hp Hdst)
    as (Hprep & Hmove & Hc1 & h3 & Hundo & Hsame).
  destruct (proj1 (is_in_check_cases _ c Hc1)) as [checked Hchk].
  { rewrite <- Hown. apply has_general_moved; [exact Hp | exact Hfoe|].
    rewrite Hown. destruct Hgen as (g & gp & Hg & Hgp & Hk).
    exists g, gp. split; [now destruct c | auto]. }
  eauto 10.
Qed.

(** [Board.is_legal] asked about a piece of a cart and the square it
    records. *)
Lemma cart_move_returns (h : Heap) (c : Color) (r : nat) (p : Piece)
    (destination : string) :
  consistent h -> In r (get_cart h c) -> objects h !! r = Some p ->
  has_general h c -> decodable destination ->
  exists b h',
    Board_is_legal (location p) destination h = (Ok b, h')
    /\ same_pieces h h'
    /\ (b = true -> Piece_is_legal h p (location p) destination = Ok true).
Proof.
  intros Hc Hin Hp Hgen Hdec.
  assert (Hwf := proj1 Hc).
  destruct (cart_piece_occupies h c r p Hc Hin Hp)
    as (Hown & sr & sc & Hs & Hsrc).
  destruct Hdec as (dr & dc & Hd).
  destruct (Piece_is_legal_total h Hwf p (location p) destination
              sr sc dr dc Hs Hd) as [movable Hm].
  unfold Board_is_legal.
  rewrite (bind_step _ _ h (sr, sc) h) by (unfold read; now rewrite Hs).
  rewrite (bind_step _ _ h (Some r) h) by (unfold read; now rewrite Hsrc).
  rewrite (bind_step _ _ h p h)
    by (unfold read, owner_of, deref; now rewrite Hp).
  rewrite (bind_step _ _ h movable h) by (unfold read; now rewrite Hm).
  destruct movable.
  - destruct (cart_trial h c r p destination Hc Hin Hp Hgen
                ltac:(now exists dr, dc) Hm)
      as (h1 & h2 & checked & h3 & Hprep & Hmove & Hchk & Hundo & Hsame).
    rewrite (bind_step _ _ _ _ _ Hprep), (bind_step _ _ _ _ _ Hmove).
    rewrite Hown.
    rewrite (bind_step _ _ _ checked _) by (unfold read; now rewrite Hchk).
    destruct checked; rewrite (bind_step _ _ _ _ _ Hundo);
      eexists; eexists; (split; [reflexivity|]); auto.
  - exists false, h. split; [reflexivity|].
    split; [apply same_pieces_refl | discriminate].
Qed.

(** A move the rule of a piece accepts has a path. *)
Lemma Piece_move_path_of_legal (h : Heap) (p : Piece)
    (source destination : string) (sr sc dr dc : Z) :
  decode_location source = Ok (sr, sc) ->
  decode_location destination = Ok (dr, dc) ->
  Piece_is_legal h p source destination = Ok true ->
  exists path, Piece_move_path p source destination = Ok path
               /\ Forall decodable path.
Proof.
  intros Hs Hd Hm. unfold Piece_is_legal in Hm. unfold Piece_move_path.
  destruct (kind p); try (exists []; split; [reflexivity | constructor]).
  - unfold Elephant_is_legal in Hm. rewrite Hs, Hd in Hm.
    cbn [res_bind] in Hm.
    destruct (get_cell h dr dc) as [cell|]; [|discriminate].
    cbn [res_bind] in Hm.
    destruct (friendly h p cell) as [[]|]; try discriminate.
    cbn [res_bind] in Hm.
    apply (Elephant_move_path_total source destination sr sc dr dc Hs Hd).
    destruct ((Z.abs (dr - sr) =? 3) && (Z.abs (dc - sc) =? 2)) eqn:E1;
      [left; lia|].
    destruct ((Z.abs (dr - sr) =? 2) && (Z.abs (dc - sc) =? 3)) eqn:E2;
      [right; lia | discriminate].
  - unfold Horse_is_legal in Hm. rewrite Hs, Hd in Hm.
    cbn [res_bind] in Hm.
    destruct (get_cell h dr dc) as [cell|]; [|discriminate].
    cbn [res_bind] in Hm.
    destruct (friendly h p cell) as [[]|]; try discriminate.
    cbn [res_bind] in Hm.
    apply (Horse_move_path_total source destination sr sc dr dc Hs Hd).
    destruct ((Z.abs (dr - sr) =? 2) && (Z.abs (dc - sc) =? 1)) eqn:E1;
      [left; lia|].
    destruct ((Z.abs (dr - sr) =? 1) && (Z.abs (dc - sc) =? 2)) eqn:E2;
      [right; lia | discriminate].
  - destruct (sliding_move_path_total source destination sr sc dr dc Hs Hd)
      as [path Hpath].
    exists path. split; [exact Hpath|].
    eapply sliding_move_path_decodable; eauto.
  - destruct (sliding_move_path_total source destination sr sc dr dc Hs Hd)
      as [path Hpath].
    exists path. split; [exact Hpath|].
    eapply sliding_move_path_decodable; eauto.
Qed.

(** When [is_in_check] returns, [get_general] has found a General. *)
Lemma is_in_check_general (h : Heap) (player : Color) (b : bool) :
  is_in_check h player = Ok b ->
  exists g gp, get_general h player = Ok (Some g)
               /\ In g (get_cart h player)
               /\ objects h !! g = Some gp.
Proof.
  intros H. unfold is_in_check in H.
  destruct (get_general h player) as [[g|]|] eqn:Hg; try discriminate.
  unfold get_general in Hg.
  destruct (get_general_from_Ok h _ _ _ Hg)
    as [[[=] _]|(g' & gp & [= <-] & Hin & Hgp & _)].
  eauto.
Qed.

End TrialReturns.

Section SearchReturns.

Variable fuel : nat.
Variable h0 : Heap.
Hypothesis Hc0 : consistent h0.
Hypothesis Hgen0 : forall c, has_general h0 c.
Hypothesis Hfuel : forall c, (length (get_cart h0 c) <= fuel)%nat.

Lemma for_each_returns {A R : Type} (P : A -> Prop) (xs : list A)
    (body : A -> ST Heap (flow R)) :
  Forall P xs ->
  (forall x h, P x -> same_pieces h0 h ->
     exists f h', body x h = (Ok f, h') /\ same_pieces h0 h') ->
  forall h, same_pieces h0 h ->
    exists f h', for_each xs body h = (Ok f, h') /\ same_pieces h0 h'.
Proof.
  intros Hall Hbody. induction Hall as [|x xs Hx _ IH]; intros h Hi;
    cbn [for_each].
  - exists Continue, h. split; [reflexivity | exact Hi].
  - destruct (Hbody x h Hx Hi) as (f & h1 & Hb & Hi1).
    rewrite (bind_step _ _ _ _ _ Hb). destruct f as [|v].
    + apply IH, Hi1.
    + exists (Return v), h1. split; [reflexivity | exact Hi1].
Qed.

Lemma for_cart_returns {R : Type} (player : Color)
    (body : nat -> ST Heap (flow R)) :
  (forall x h, same_pieces h0 h -> In x (get_cart h player) ->
     exists f h', body x h = (Ok f, h') /\ same_pieces h0 h') ->
  forall n i h,
    same_pieces h0 h -> (length (get_cart h0 player) <= i + n)%nat ->
    exists f h', for_cart n player i body h = (Ok f, h')
                 /\ same_pieces h0 h'.
Proof.
  intros Hbody. induction n as [|n IH]; intros i h Hi Hlen;
    cbn [for_cart];
    destruct (get_cart h player !! i) as [piece|] eqn:E;
    try (exists Continue, h; split; [reflexivity | exact Hi]).
  - exfalso. apply lookup_lt_Some in E.
    rewrite (same_pieces_length _ _ player Hi) in E. lia.
  - destruct (Hbody piece h Hi) as (f & h1 & Hb & Hi1).
    { apply list_elem_of_In. eapply list_elem_of_lookup_2; eauto. }
    rewrite (bind_step _ _ _ _ _ Hb). destruct f as [|v].
    + apply IH; [exact Hi1 | lia].
    + exists (Return v), h1. split; [reflexivity | exact Hi1].
Qed.

Lemma populate_returns (opponent : Color) (gen_loc : string) :
  decodable gen_loc ->
  forall n i acc h,
    same_pieces h0 h -> (length (get_cart h0 opponent) <= i + n)%nat ->
    Forall (attacker_ready h0 opponent gen_loc) acc ->
    exists l h',
      populate_attacker_list n opponent gen_loc i acc h = (Ok l, h')
      /\ same_pieces h0 h'
      /\ Forall (attacker_ready h0 opponent gen_loc) l.
Proof using Hc0 Hgen0.
  intros Hdec. induction n as [|n IH]; intros i acc h Hi Hlen Hacc;
    cbn [populate_attacker_list];
    destruct (get_cart h opponent !! i) as [piece|] eqn:E;
    try (exists acc, h; split; [reflexivity | split; assumption]).
  - exfalso. apply lookup_lt_Some in E.
    rewrite (same_pieces_length _ _ opponent Hi) in E. lia.
  - assert (Hin : In piece (get_cart h opponent)).
    { apply list_elem_of_In. eapply list_elem_of_lookup_2; eauto. }
    assert (Hc := same_pieces_consistent _ _ Hi Hc0).
    destruct (cart_piece_object h opponent piece Hc Hin) as [p Hp].
    rewrite (bind_step _ _ h p h) by (unfold read, deref; now rewrite Hp).
    destruct (cart_move_returns h opponent piece p gen_loc Hc Hin Hp
                (same_pieces_has_general _ _ _ Hi (Hgen0 opponent)) Hdec)
      as (b & h1 & Hl & Hs1 & Hb).
    rewrite (bind_step _ _ _ _ _ Hl).
    apply IH; [eapply same_pieces_trans; eauto | lia |].
    destruct b; [|exact Hacc].
    apply Forall_app. split; [exact Hacc|]. constructor; [|constructor].
    destruct Hi as (_ & Ho & Hperm).
    split; [eapply Permutation_in; [apply Hperm | exact Hin]|].
    exists p. split; [now rewrite <- Ho|].
    destruct (cart_piece_occupies h opponent piece p Hc Hin Hp)
      as (_ & sr & sc & Hs & _).
    destruct Hdec as (dr & dc & Hd).
    eapply Piece_move_path_of_legal; eauto.
Qed.

Lemma some_defender_returns (player : Color) (target : ST Heap string) :
  (forall h, same_pieces h0 h ->
     exists square, target h = (Ok square, h) /\ decodable square) ->
  forall h, same_pieces h0 h ->
    exists f h', some_defender_reaches fuel player target h = (Ok f, h')
                 /\ same_pieces h0 h'.
Proof using Hc0 Hgen0 Hfuel.
  intros Ht h Hi. unfold some_defender_reaches.
  apply for_cart_returns; [|exact Hi | specialize (Hfuel player); lia].
  intros x h1 Hi1 Hin.
  assert (Hc := same_pieces_consistent _ _ Hi1 Hc0).
  destruct (cart_piece_object h1 player x Hc Hin) as [p Hp].
  rewrite (bind_step _ _ h1 p h1) by (unfold read, deref; now rewrite Hp).
  destruct (Ht h1 Hi1) as (sq & Hsq & Hdec).
  rewrite (bind_step _ _ _ _ _ Hsq).
  destruct (cart_move_returns h1 player x p sq Hc Hin Hp
              (same_pieces_has_general _ _ _ Hi1 (Hgen0 player)) Hdec)
    as (b & h2 & Hl & Hs & _).
  rewrite (bind_step _ _ _ _ _ Hl).
  destruct b; eexists; eexists; (split; [reflexivity|]);
    eapply same_pieces_trans; eauto.
Qed.

Lemma palace_squares_decodable (player : Color) :
  Forall decodable
    match player with
    | blue => ["d8"; "d9"; "d10"; "e8"; "e9"; "e10"; "f8"; "f9"; "f10"]
    | red => ["d1"; "d2"; "d3"; "e1"; "e2"; "e3"; "f1"; "f2"; "f3"]
    end.
Proof. destruct player; repeat constructor; do 2 eexists; reflexivity. Qed.

(** [Board.is_in_checkmate] returns, and leaves the pieces as they
    were. *)
Lemma is_in_checkmate_total (player : Color) :
  exists b h', is_in_checkmate fuel player h0 = (Ok b, h')
               /\ same_pieces h0 h'.
Proof using Hc0 Hgen0 Hfuel.
  destruct (proj1 (is_in_check_cases h0 player Hc0) (Hgen0 player))
    as [in_check Hchk].
  unfold is_in_checkmate.
  rewrite (bind_step _ _ h0 in_check h0) by (unfold read; now rewrite Hchk).
  destruct in_check; cbn [negb];
    [|exists false, h0; split; [reflexivity | apply same_pieces_refl]].
  destruct (is_in_check_general h0 player true Hchk)
    as (g & gp & Hg & Hgin & Hgp).
  rewrite (bind_step _ _ h0 (Some g) h0) by (unfold read; now rewrite Hg).
  rewrite (bind_step _ _ h0 (location gp) h0)
    by (unfold read, location_of, deref; now rewrite Hgp).
  destruct (cart_piece_occupies h0 player g gp Hc0 Hgin Hgp)
    as (Hgown & grow & gcol & Hgd & Hgcell).
  assert (Hgdec : decodable (location gp)) by (now exists grow, gcol).
  set (opponent := match player with blue => red | red => blue end).
  destruct (populate_returns opponent (location gp) Hgdec fuel 0 [] h0
              (same_pieces_refl h0) (Hfuel opponent) (List.Forall_nil _))
    as (attackers & h1 & Hpop & Hi1 & Hatt).
  rewrite (bind_step _ _ _ _ _ Hpop).
  match goal with
  | |- context [bind (for_each attackers ?body) _ _] =>
      destruct (for_each_returns (attacker_ready h0 opponent (location gp))
                  attackers body Hatt) with (h := h1)
        as (resolved & h2 & Hres & Hi2); [|exact Hi1|]
  end.
  { intros a h (Hain & pa & Hpa & path & Hpath & Hpdec) Hi.
    destruct (cart_piece_occupies h0 opponent a pa Hc0 Hain Hpa)
      as (_ & arow & acol & Had & _).
    destruct (some_defender_returns player
                (read (fun h => let? a := deref h a in Ok (location a))))
      with (h := h) as (captured & h' & Hcap & Hi'); [|exact Hi|].
    { intros hx (_ & Hox & _). exists (location pa).
      split; [|now exists arow, acol].
      unfold read, deref. now rewrite Hox, Hpa. }
    rewrite (bind_step _ _ _ _ _ Hcap).
    destruct captured as [|v];
      [|exists (Return v), h'; split; [reflexivity | exact Hi']].
    rewrite (bind_step _ _ h' pa h')
      by (unfold read, deref; destruct Hi' as (_ & -> & _); now rewrite Hpa).
    rewrite (bind_step _ _ h' path h') by (unfold read; now rewrite Hpath).
    apply (for_each_returns decodable path); [exact Hpdec | | exact Hi'].
    intros square hx Hsq Hix.
    apply some_defender_returns; [|exact Hix].
    intros hy _. exists square. split; [reflexivity | exact Hsq]. }
  rewrite (bind_step _ _ _ _ _ Hres).
  destruct resolved as [|v];
    [|exists v, h2; split; [reflexivity | exact Hi2]].
  match goal with
  | |- context [bind (for_each ?squares ?body) _ _] =>
      destruct (for_each_returns decodable squares body
                  (palace_squares_decodable player)) with (h := h2)
        as (escaped & h3 & Hesc & Hi3); [|exact Hi2|]
  end.
  { intros square h Hsq Hi.
    assert (Hc := same_pieces_consistent _ _ Hi Hc0).
    assert (Hgp' : objects h !! g = Some gp)
      by (destruct Hi as (_ & -> & _); exact Hgp).
    assert (Hgin' : In g (get_cart h player)).
    { destruct Hi as (_ & _ & Hperm).
      eapply Permutation_in; [symmetry; apply Hperm | exact Hgin]. }
    rewrite (bind_step _ _ h gp h)
      by (unfold read, owner_of, deref; now rewrite Hgp').
    destruct Hsq as (qrow & qcol & Hqd).
    destruct (Piece_is_legal_total h (proj1 Hc) gp (location gp) square
                grow gcol qrow qcol Hgd Hqd) as [movable Hm].
    rewrite (bind_step _ _ h movable h) by (unfold read; now rewrite Hm).
    destruct movable;
      [|exists Continue, h; split; [reflexivity | exact Hi]].
    destruct (cart_trial h player g gp square Hc Hgin' Hgp'
                (same_pieces_has_general _ _ _ Hi (Hgen0 player))
                ltac:(now exists qrow, qcol) Hm)
      as (hx & hy & checked & hz & Hprep & Hmove & Hck & Hundo & Hsame).
    rewrite (bind_step _ _ _ _ _ Hprep), (bind_step _ _ _ _ _ Hmove).
    rewrite (bind_step _ _ _ checked _) by (unfold read; now rewrite Hck).
    destruct checked; cbn [negb]; rewrite (bind_step _ _ _ _ _ Hundo);
      eexists; eexists; (split; [reflexivity|]);
      eapply same_pieces_trans; eauto. }
  rewrite (bind_step _ _ _ _ _ Hesc).
  destruct escaped as [|v]; eexists; eexists;
    (split; [reflexivity | exact Hi3]).
Qed.

End SearchReturns.

(** X24.  [Board.is_in_checkmate] does not raise on a consistent board
    where both carts hold a General: it returns a Boolean, and when it
    has returned, every temporary move it tried has been taken back, so
    the grid and the piece objects are as before and each cart holds the
    pieces it held, possibly in another order.  (The bound on the carts'
    lengths is the loops' fuel in this model.) *)
Theorem is_in_checkmate_returns (fuel : nat) (h : Heap) (player : Color) :
  consistent h -> (forall c, has_general h c) ->
  (forall c, (length (get_cart h c) <= fuel)%nat) ->
  exists b h', is_in_checkmate fuel player h = (Ok b, h')
               /\ same_pieces h h'.
Proof. intros Hc Hgen Hfuel. now apply is_in_checkmate_total. Qed.

Lemma is_in_checkmate_returns_witness :
  exists b h', is_in_checkmate 100 blue pinned_attacker = (Ok b, h')
               /\ same_pieces pinned_attacker h'.
Proof.
  apply (is_in_checkmate_returns 100 pinned_attacker blue).
  - apply consistent_test_sound. vm_compute. reflexivity.
  - intros [|].
    + exists 4%nat, (piece General "e10" blue).
      split; [|split; reflexivity]. vm_compute. auto 10.
    + exists 0%nat, (piece General "d3" red).
      split; [|split; reflexivity]. vm_compute. auto 10.
  - intros [|]; vm_compute; lia.
Defined.

(** ** [make_move] returns *)

Section PlayReturns.

(** The temporary move of [Board.is_legal], from the string it was given
    as the source: the three steps return, and the last leaves the grid
    and the carts' pieces as before the first, with the moved piece's
    location set to that string. *)
Lemma temporary_move_relocates (h : Heap) (source destination : string)
    (sr sc dr dc : Z) (r : nat) (p : Piece) (cell : option nat) :
  consistent h ->
  decode_location source = Ok (sr, sc) ->
  decode_location destination = Ok (dr, dc) ->
  (sr, sc) <> (dr, dc) ->
  get_cell h sr sc = Ok (Some r) -> objects h !! r = Some p ->
  get_cell h dr dc = Ok cell ->
  exists h2,
    undo_temp_move source destination
      (moved (set_temp cell h) sr sc dr dc r p destination cell)
    = (Ok tt, h2)
    /\ consistent h2 /\ board h2 = board h
    /\ objects h2 = <[r := set_location p source]> (objects h)
    /\ forall c, Permutation (get_cart h2 c) (get_cart h c).
Proof.
  intros Hc Hs Hd Hne Hsrc Hobj Hdst.
  set (h1 := moved (set_temp cell h) sr sc dr dc r p destination cell).
  assert (Hwf := proj1 Hc).
  assert (Hvs := decode_location_range _ _ _ Hs).
  assert (Hvd := decode_location_range _ _ _ Hd).
  assert (Hne' := cells_differ _ _ _ _ Hvs Hvd Hne).
  destruct (wf_heap_get_cell h dr dc Hwf Hvd) as (cell' & Hdst' & Hwc).
  assert (cell' = cell) as -> by congruence. clear Hdst'.
  destruct (temporary_move_steps h source destination sr sc dr dc r p
              cell Hs Hd Hne Hsrc Hobj Hdst Hwc)
    as (Hprep & Hmove & h2 & Hundo & Hb & Ho & _).
  exists h2. split; [exact Hundo|]. split.
  { exact (temporary_move_consistent h _ _ h2 source destination Hc Hprep
             Hmove Hundo). }
  split; [exact Hb|]. split; [exact Ho|].
  assert (Hin_s : in_grid (board h) sr sc)
    by (eapply get_cell_in_grid; eauto).
  assert (Hin_d : in_grid (board h) dr dc)
    by (eapply get_cell_in_grid; eauto).
  fold h1 in Hundo.
  rewrite (undo_temp_move_exact h1 source destination sr sc dr dc r
             (set_location p destination) Hs Hd Hne') in Hundo.
  2:{ subst h1. cbn [board moved set_temp].
      now do 2 apply in_grid_grid_set. }
  2:{ rewrite get_cell_grid_get. subst h1. cbn [board moved set_temp].
      rewrite grid_get_set_other by congruence.
      now rewrite grid_get_set_same. }
  2:{ subst h1. cbn [objects moved set_temp]. apply lookup_insert_eq. }
  2:{ subst h1. unfold moved. cbn [temp set_temp].
      apply (wf_cell_insert h); [exact (objects h) | exact Hwc]. }
  injection Hundo as Hh2.
  intros c. rewrite <- Hh2. subst h1.
  rewrite (temporary_move_carts h sr sc dr dc r p source destination
             cell c Hobj Hwc).
  destruct cell as [d|]; [|reflexivity].
  unfold wf_cell in Hwc.
  destruct (objects h !! d) as [q|] eqn:Hq; [|discriminate].
  destruct (Color_eqb (owner q) c) eqn:Eown; [|reflexivity].
  apply Color_eqb_eq in Eown.
  assert (Hd_in : In d (get_cart h c)).
  { apply (proj2 (proj2 Hc) c). now exists dr, dc, q. }
  rewrite (proj2 (existsb_eqb_In d (get_cart h c)) Hd_in).
  now apply remove_first_perm.
Qed.

(** [Board.is_legal] called with the strings of the user: it returns,
    the grid and the carts' pieces are as before, and at most the
    recorded location of the piece on the source has changed. *)
Lemma Board_is_legal_relocates (h : Heap) (source destination : string)
    (sr sc dr dc : Z) (r : nat) (p : Piece) :
  consistent h ->
  decode_location source = Ok (sr, sc) ->
  decode_location destination = Ok (dr, dc) ->
  get_cell h sr sc = Ok (Some r) -> objects h !! r = Some p ->
  has_general h (owner p) ->
  exists b h',
    Board_is_legal source destination h = (Ok b, h')
    /\ consistent h' /\ board h' = board h
    /\ (exists p', objects h' = <[r := p']> (objects h)
                   /\ kind p' = kind p /\ owner p' = owner p)
    /\ (forall c, Permutation (get_cart h' c) (get_cart h c))
    /\ (b = true -> Piece_is_legal h p source destination = Ok true).
Proof.
  intros Hc Hs Hd Hsrc Hp Hgen.
  assert (Hwf := proj1 Hc).
  destruct (Piece_is_legal_total h Hwf p source destination sr sc dr dc
              Hs Hd) as [movable Hm].
  unfold Board_is_legal.
  rewrite (bind_step _ _ h (sr, sc) h) by (unfold read; now rewrite Hs).
  rewrite (bind_step _ _ h (Some r) h) by (unfold read; now rewrite Hsrc).
  rewrite (bind_step _ _ h p h)
    by (unfold read, owner_of, deref; now rewrite Hp).
  rewrite (bind_step _ _ h movable h) by (unfold read; now rewrite Hm).
  destruct movable.
  2:{ exists false, h. split; [reflexivity|]. split; [exact Hc|].
      split; [reflexivity|]. split; [|split; [reflexivity | discriminate]].
      exists p. split; [symmetry; now apply insert_id | auto]. }
  destruct (wf_heap_get_cell h dr dc Hwf (decode_location_range _ _ _ Hd))
    as (cell & Hdst & Hwc).
  destruct (legal_move_shape h p source destination sr sc dr dc r cell Hwf
              Hs Hd Hsrc Hp Hdst Hm) as [Hfoe Hne].
  destruct (temporary_move_steps h source destination sr sc dr dc r p cell
              Hs Hd Hne Hsrc Hp Hdst Hwc)
    as (Hprep & Hmove & _).
  destruct (temporary_move_relocates h source destination sr sc dr dc r p
              cell Hc Hs Hd Hne Hsrc Hp Hdst)
    as (h3 & Hundo & Hc3 & Hb & Ho & Hperm).
  rewrite (bind_step _ _ _ _ _ Hprep), (bind_step _ _ _ _ _ Hmove).
  assert (Hc1 : consistent
                  (moved (set_temp cell h) sr sc dr dc r p destination cell)).
  { exact (move_piece_consistent (set_temp cell h) _ source destination
             sr sc dr dc (consistent_set_temp h cell Hc) Hs Hd Hne Hmove). }
  destruct (proj1 (is_in_check_cases _ (owner p) Hc1)) as [checked Hchk].
  { apply has_general_moved; [exact Hp | exact Hfoe|].
    destruct Hgen as (g & gp & Hin & Hgp & Hk). exists g, gp.
    split; [now destruct (owner p) | auto]. }
  rewrite (bind_step _ _ _ checked _) by (unfold read; now rewrite Hchk).
  assert (Hp' : exists p', objects h3 = <[r := p']> (objects h)
                           /\ kind p' = kind p /\ owner p' = owner p)
    by (exists (set_location p source); auto).
  destruct checked; rewrite (bind_step _ _ _ _ _ Hundo);
    eexists; eexists; (split; [reflexivity|]); auto 10.
Qed.

Lemma remove_first_length (x : nat) (l : list nat) :
  (length (remove_first x l) <= length l)%nat.
Proof.
  induction l as [|y l IH]; cbn [remove_first]; [lia|].
  destruct (Nat.eqb x y); cbn [length]; lia.
Qed.

(** [move_piece] adds no piece to a cart. *)
Lemma moved_cart_length (h : Heap) (sr sc dr dc : Z) (r : nat) (p : Piece)
    (destination : string) (cell : option nat) (c : Color) :
  (length (get_cart (moved h sr sc dr dc r p destination cell) c)
   <= length (get_cart h c))%nat.
Proof.
  assert (Hcart : get_cart (moved h sr sc dr dc r p destination cell) c
                  = get_cart (capture cell h) c) by (now destruct c).
  rewrite Hcart. unfold capture. destruct cell as [d|]; [|lia].
  destruct (objects h !! d) as [q|]; [|lia].
  unfold remove_piece, modify. cbn [snd].
  destruct (existsb _ _); [|lia].
  destruct (owner q), c; cbn; try lia; apply remove_first_length.
Qed.

(** [move_piece] takes nothing but the occupant of the destination out
    of a cart. *)
Lemma moved_cart_In (h : Heap) (sr sc dr dc : Z) (r : nat) (p : Piece)
    (destination : string) (cell : option nat) (c : Color) (x : nat) :
  NoDup (get_cart h c) -> In x (get_cart h c) ->
  (forall d, cell = Some d -> x <> d) ->
  In x (get_cart (moved h sr sc dr dc r p destination cell) c).
Proof.
  intros Hnd Hin Hx.
  assert (Hcart : get_cart (moved h sr sc dr dc r p destination cell) c
                  = get_cart (capture cell h) c) by (now destruct c).
  rewrite Hcart. unfold capture. destruct cell as [d|]; [|exact Hin].
  destruct (objects h !! d) as [q|]; [|exact Hin].
  unfold remove_piece, modify. cbn [snd].
  destruct (existsb _ _); [|exact Hin].
  specialize (Hx d eq_refl).
  destruct (owner q), c; cbn; try exact Hin;
    apply remove_first_spec; auto.
Qed.

(** The side that does not move keeps its General unless the General is
    what the move takes. *)
Lemma has_general_after_capture (h : Heap) (sr sc dr dc : Z) (r : nat)
    (p : Piece) (destination : string) (cell : option nat) (c : Color) :
  consistent h -> objects h !! r = Some p -> c <> owner p ->
  (forall d q, cell = Some d -> objects h !! d = Some q ->
               kind q <> General) ->
  has_general h c ->
  has_general (moved h sr sc dr dc r p destination cell) c.
Proof.
  intros Hc Hp Hcp Hng (g & gp & Hin & Hgp & Hk).
  destruct (proj2 (proj2 Hc) c) as [Hnd Hmem].
  assert (Hrg : r <> g).
  { intros <-. apply Hmem in Hin.
    destruct Hin as (_ & _ & p' & _ & _ & Hp' & Hown). congruence. }
  exists g, gp. split.
  - apply moved_cart_In; [exact Hnd | exact Hin|].
    intros d -> <-. exact (Hng g gp eq_refl Hgp Hk).
  - cbn [objects moved]. rewrite lookup_insert_ne by exact Hrg. auto.
Qed.

(** The two steps of an accepted move that can raise: [move_piece], and
    the checkmate search on the heap it leaves. *)
Lemma move_then_search_returns (fuel : nat) (h : Heap)
    (source destination : string) (sr sc dr dc : Z) (r : nat) (p : Piece)
    (cell : option nat) (player : Color) :
  consistent h -> (forall c, has_general h c) ->
  (forall c, (length (get_cart h c) <= fuel)%nat) ->
  decode_location source = Ok (sr, sc) ->
  decode_location destination = Ok (dr, dc) ->
  get_cell h sr sc = Ok (Some r) -> objects h !! r = Some p ->
  get_cell h dr dc = Ok cell ->
  (forall d q, cell = Some d -> objects h !! d = Some q ->
               owner q <> owner p /\ kind q <> General) ->
  exists h2 b h3,
    move_piece source destination h = (Ok tt, h2)
    /\ is_in_checkmate fuel player h2 = (Ok b, h3).
Proof.
  intros Hc Hgen Hfuel Hs Hd Hsrc Hp Hdst Hfoe.
  assert (Hwf := proj1 Hc).
  destruct (wf_heap_get_cell h dr dc Hwf (decode_location_range _ _ _ Hd))
    as (cell' & Hdst' & Hwc).
  assert (cell' = cell) as -> by congruence. clear Hdst'.
  assert (Hne : (sr, sc) <> (dr, dc)).
  { intros [= -> ->]. rewrite Hsrc in Hdst. injection Hdst as <-.
    now apply (proj1 (Hfoe r p eq_refl Hp)). }
  assert (Hmove := move_piece_spec h source destination sr sc dr dc r p
                     cell Hs Hd Hsrc Hp Hdst Hwc).
  set (h2 := moved h sr sc dr dc r p destination cell) in *.
  assert (Hc2 : consistent h2).
  { exact (move_piece_consistent h h2 source destination sr sc dr dc Hc
             Hs Hd Hne Hmove). }
  destruct (is_in_checkmate_total fuel h2 Hc2) with (player := player)
    as (b & h3 & Hm & _).
  - intros c.
    assert (Hdec : c = owner p \/ c <> owner p)
      by (destruct c, (owner p); auto; right; discriminate).
    destruct Hdec as [->|Hcp].
    + apply has_general_moved; [exact Hp | | apply Hgen].
      intros d q Hcell Hq. apply (Hfoe d q Hcell Hq).
    + apply has_general_after_capture; [exact Hc | exact Hp | exact Hcp
                                        | | apply Hgen].
      intros d q Hcell Hq. apply (Hfoe d q Hcell Hq).
  - intros c. etransitivity; [apply moved_cart_length | apply Hfuel].
  - eauto.
Qed.

(** [make_move] returns a Boolean on a consistent game where both carts
    hold a General, for strings that name squares, unless a General
    stands on the destination. *)
Lemma make_move_total (fuel : nat) (g : JanggiGame)
    (source destination : string) :
  consistent (heap g) -> (forall c, has_general (heap g) c) ->
  (forall c, (length (get_cart (heap g) c) <= fuel)%nat) ->
  decodable source -> decodable destination ->
  no_general_at (heap g) destination ->
  exists b g', make_move fuel source destination g = (Ok b, g').
Proof.
  intros Hc Hgen Hfuel (sr & sc & Hs) (dr & dc & Hd) Hng.
  assert (Hwf := proj1 Hc).
  unfold make_move.
  rewrite (bind_step _ _ g (game_state g) g) by reflexivity.
  destruct (GameState_eqb (game_state g) UNFINISHED); cbn [negb]; [|eauto].
  destruct (String.eqb source destination).
  { rewrite (bind_step _ _ g (current_player g) g) by reflexivity.
    destruct (proj1 (is_in_check_cases _ (current_player g) Hc) (Hgen _))
      as [checked Hchk].
    rewrite (bind_step _ _ g checked g)
      by (rewrite on_board_read; now rewrite Hchk).
    destruct checked; [eauto|]. rewrite modify_step. eauto. }
  destruct (wf_heap_get_cell _ sr sc Hwf (decode_location_range _ _ _ Hs))
    as (occ & Hsrc & Hwo).
  assert (Hocc : get_occupant (heap g) source = Ok occ)
    by (unfold get_occupant; now rewrite Hs).
  rewrite (bind_step _ _ g occ g)
    by (rewrite on_board_read; now rewrite Hocc).
  destruct occ as [r|]; [|eauto].
  rewrite (bind_step _ _ g (Some r) g)
    by (rewrite on_board_read; now rewrite Hocc).
  unfold wf_cell in Hwo.
  destruct (objects (heap g) !! r) as [p|] eqn:Hp; [|discriminate].
  rewrite (bind_step _ _ g p g)
    by (rewrite on_board_read; unfold owner_of, deref; now rewrite Hp).
  rewrite (bind_step _ _ g (current_player g) g) by reflexivity.
  destruct (Color_eqb (owner p) (current_player g)); cbn [negb]; [|eauto].
  destruct (Board_is_legal_relocates (heap g) source destination sr sc dr dc
              r p Hc Hs Hd Hsrc Hp (Hgen _))
    as (legal & h1 & Hl & Hc1 & Hb & (p' & Ho & Hk & Hown) & Hperm & Hrule).
  rewrite (bind_step _ _ g legal (set_heap h1 g))
    by (unfold on_board; now rewrite Hl).
  destruct legal; [|eauto].
  specialize (Hrule eq_refl).
  destruct (wf_heap_get_cell _ dr dc Hwf (decode_location_range _ _ _ Hd))
    as (cell & Hdst & Hwc).
  destruct (legal_move_shape (heap g) p source destination sr sc dr dc r
              cell Hwf Hs Hd Hsrc Hp Hdst Hrule) as [Hfoe Hne].
  destruct (move_then_search_returns fuel h1 source destination sr sc dr dc
              r p' cell (opponent_of (current_player g)) Hc1)
    as (h2 & mate & h3 & Hmove & Hmate).
  { intros c. destruct (Hgen c) as (x & xp & Hin & Hxp & Hkx).
    destruct (decide (r = x)) as [<-|Hrx].
    - exists r, p'. split; [rewrite (Hperm c); exact Hin|].
      rewrite Ho, lookup_insert_eq. split; [reflexivity | congruence].
    - exists x, xp. split; [rewrite (Hperm c); exact Hin|].
      rewrite Ho, lookup_insert_ne by exact Hrx. auto. }
  { intros c. rewrite (Permutation_length (Hperm c)). apply Hfuel. }
  { exact Hs. }
  { exact Hd. }
  { rewrite (get_cell_same_board (heap g) h1 _ _ Hb). exact Hsrc. }
  { rewrite Ho. apply lookup_insert_eq. }
  { rewrite (get_cell_same_board (heap g) h1 _ _ Hb). exact Hdst. }
  { intros d q -> Hq. rewrite Ho in Hq.
    destruct (decide (r = d)) as [<-|Hrd].
    - exfalso. exact (Hfoe r p eq_refl Hp eq_refl).
    - rewrite lookup_insert_ne in Hq by exact Hrd. split.
      + rewrite Hown. exact (Hfoe d q eq_refl Hq).
      + apply Hng. unfold piece_at, get_occupant. rewrite Hd.
        cbn [res_bind]. now rewrite Hdst. }
  rewrite (bind_step _ _ (set_heap h1 g) tt (set_heap h2 g))
    by (unfold on_board; cbn [heap set_heap]; now rewrite Hmove).
  rewrite modify_step. rewrite toggle_players_opponent.
  cbn [current_player set_heap set_current_player heap game_state].
  rewrite (bind_step _ _ _ (opponent_of (current_player g)) _)
    by reflexivity.
  match goal with
  | |- context [bind (on_board ?m) ?k ?s] =>
      rewrite (bind_step (on_board m) k s mate (set_heap h3 s))
        by (unfold on_board;
            cbn [current_player set_heap set_current_player heap game_state];
            now rewrite Hmate)
  end.
  destruct mate; [|eauto].
  unfold bind, read.
  cbn [current_player set_heap set_current_player heap game_state].
  destruct (opponent_of (current_player g)); cbn; eauto.
Qed.

End PlayReturns.

(** X25.  [make_move] does not raise on a consistent game where both
    carts hold a General, whatever the state and whoever is to move: for
    any two strings [decode_location] accepts it returns a Boolean,
    unless a General stands on the destination.  (The bound on the
    carts' lengths is the loops' fuel in this model.) *)
Theorem make_move_returns (fuel : nat) (g : JanggiGame)
    (source destination : string) :
  consistent (heap g) -> (forall c, has_general (heap g) c) ->
  (forall c, (length (get_cart (heap g) c) <= fuel)%nat) ->
  decodable source -> decodable destination ->
  no_general_at (heap g) destination ->
  exists b g', make_move fuel source destination g = (Ok b, g').
Proof. apply make_move_total. Qed.

Lemma make_move_returns_witness :
  exists b g', make_move 100 "a3" "e3" mate_in_one = (Ok b, g').
Proof.
  apply (make_move_returns 100 mate_in_one "a3" "e3").
  - apply consistent_test_sound. vm_compute. reflexivity.
  - intros [|].
    + exists 3%nat, (piece General "e10" blue).
      split; [|split; reflexivity]. vm_compute. auto 10.
    + exists 0%nat, (piece General "d1" red).
      split; [|split; reflexivity]. vm_compute. auto 10.
  - intros [|]; vm_compute; lia.
  - do 2 eexists. reflexivity.
  - do 2 eexists. reflexivity.
  - intros q Hq. vm_compute in Hq. discriminate.
Defined.

(** ** The Cannon's jump *)

Section CannonJump.

Lemma NoDup_map_seq (f : nat -> Z) (n s : nat) :
  (forall i j, f i = f j -> i = j) -> NoDup (map f (seq s n)).
Proof.
  intros Hinj. revert s. induction n as [|n IH]; intros s; cbn [seq map].
  - constructor.
  - constructor; [|apply IH]. rewrite list_elem_of_In, in_map_iff.
    intros (i & Hi & Hin). apply Hinj in Hi. apply in_seq in Hin. lia.
Qed.

Lemma NoDup_range (a b : Z) : NoDup (range a b).
Proof. apply NoDup_map_seq. intros i j. lia. Qed.

Lemma NoDup_range_down (a b : Z) : NoDup (range_down a b).
Proof. apply NoDup_map_seq. intros i j. lia. Qed.

Lemma encode_each_NoDup (f : Z -> res string) (xs : list Z) path :
  (forall x y sq, f x = Ok sq -> f y = Ok sq -> x = y) ->
  NoDup xs -> encode_each f xs = Ok path -> NoDup path.
Proof.
  intros Hinj Hnd. revert path.
  induction Hnd as [|x xs Hx Hnd IH]; simpl; intros path H.
  - injection H as <-. constructor.
  - destruct (f x) as [sq|] eqn:Ex; [|discriminate]. cbn [res_bind] in H.
    destruct (encode_each f xs) as [sqs|] eqn:Es; [|discriminate].
    injection H as <-. constructor; [|now apply IH].
    rewrite list_elem_of_In. intros Hin. apply Hx.
    destruct (encode_each_In _ _ _ _ Es Hin) as (y & Hy & Hfy).
    rewrite (Hinj x y sq Ex Hfy). now apply list_elem_of_In.
Qed.

(** On a list without repetition, one occupied square is counted
    exactly when one square of the list, and no other, is occupied. *)
Lemma occupied_once (h : Heap) (path : list string) :
  NoDup path ->
  (length (occupied_squares h path) = 1%nat
   <-> exists x, In x path /\ is_occupied h x = true
                 /\ forall y, In y path -> is_occupied h y = true -> y = x).
Proof.
  unfold occupied_squares.
  induction 1 as [|z l Hz Hnd IH].
  - simpl. split; [discriminate | intros (x & [] & _)].
  - rewrite list_elem_of_In in Hz. rewrite filter_cons.
    destruct (decide (is_occupied h z = true)) as [Ez|Ez].
    + cbn [length]. split.
      * intros Hlen. exists z. split; [now left|]. split; [exact Ez|].
        intros y [<-|Hy] Ey; [reflexivity|]. exfalso.
        assert (Hin : y ∈ filter (fun sq => is_occupied h sq = true) l).
        { apply list_elem_of_filter. split; [exact Ey|].
          now apply list_elem_of_In. }
        destruct (filter _ l); [|simpl in Hlen; lia].
        now apply not_elem_of_nil in Hin.
      * intros (x & _ & _ & Huniq). f_equal.
        destruct (filter _ l) as [|y rest] eqn:Ef; [reflexivity|].
        exfalso.
        assert (Hin : y ∈ filter (fun sq => is_occupied h sq = true) l)
          by (rewrite Ef; left).
        apply list_elem_of_filter in Hin. destruct Hin as [Ey Hy].
        apply list_elem_of_In in Hy. apply Hz.
        assert (Hzx : z = x) by (apply Huniq; [now left | exact Ez]).
        assert (Hyx : y = x) by (apply Huniq; [now right | exact Ey]).
        congruence.
    + rewrite IH. split.
      * intros (x & Hx & Ex & Huniq). exists x. split; [now right|].
        split; [exact Ex|]. intros y [<-|Hy] Ey; [contradiction | auto].
      * intros (x & Hx & Ex & Huniq). exists x.
        destruct Hx as [<-|Hx]; [contradiction|].
        split; [exact Hx|]. split; [exact Ex|].
        intros y Hy Ey. apply Huniq; [now right | exact Ey].
Qed.

(** The test that opens [move_path] holds exactly between two opposite
    corners of one palace. *)
Lemma opposite_corners_test (source destination : string)
    (from_row from_col to_row to_col : Z) :
  decode_location source = Ok (from_row, from_col) ->
  decode_location destination = Ok (to_row, to_col) ->
  (from_row, from_col) <> (to_row, to_col) ->
  (mem source palace_corners && mem destination palace_corners
   && (Z.abs (to_row - from_row) =? Z.abs (to_col - from_col)) = true
   <-> opposite_palace_corners source destination).
Proof.
  intros Hs Hd Hne. unfold opposite_palace_corners. split.
  - intros Ecorner.
    apply andb_true_iff in Ecorner. destruct Ecorner as [Ecorner Eabs].
    apply andb_true_iff in Ecorner. destruct Ecorner as [Esrc Edst].
    apply mem_cases in Esrc. apply mem_cases in Edst. simpl in Esrc, Edst.
    repeat (destruct Esrc as [<-|Esrc]; [|]); try contradiction;
      repeat (destruct Edst as [<-|Edst]; [|]); try contradiction;
      vm_compute in Hs; vm_compute in Hd;
      injection Hs as <- <-; injection Hd as <- <-;
      try discriminate Eabs; try (exfalso; apply Hne; reflexivity);
      simpl; tauto.
  - intros H. simpl in H.
    repeat (destruct H as [[= <- <-]|H]; [|]); try contradiction;
      vm_compute in Hs; vm_compute in Hd;
      injection Hs as <- <-; injection Hd as <- <-; reflexivity.
Qed.

(** The path [move_path] gives for a slide between two different cells
    lists, once each, the names of the cells the slide passes over. *)
Lemma sliding_move_path_exact (source destination : string) path
    (from_row from_col to_row to_col : Z) :
  decode_location source = Ok (from_row, from_col) ->
  decode_location destination = Ok (to_row, to_col) ->
  (from_row, from_col) <> (to_row, to_col) ->
  sliding_move_path source destination = Ok path ->
  NoDup path
  /\ (forall square, In square path ->
        exists row col,
          encode_location row col = Ok square
          /\ passed_over source destination from_row from_col to_row to_col
                         row col)
  /\ (forall row col,
        passed_over source destination from_row from_col to_row to_col
                    row col ->
        exists square, encode_location row col = Ok square
                       /\ In square path).
Proof.
  intros Hs Hd Hne Hp.
  assert (Htest := opposite_corners_test source destination _ _ _ _
                     Hs Hd Hne).
  destruct (mem source palace_corners && mem destination palace_corners
            && (Z.abs (to_row - from_row) =? Z.abs (to_col - from_col)))
    eqn:Ecorner.
  - assert (Hopp := proj1 Htest eq_refl). clear Htest.
    assert (Hopp' := Hopp). unfold opposite_palace_corners in Hopp'.
    simpl in Hopp'.
    repeat (destruct Hopp' as [[= <- <-]|Hopp']; [|]); try contradiction;
      vm_compute in Hs; vm_compute in Hd;
      injection Hs as <- <-; injection Hd as <- <-;
      vm_compute in Hp; injection Hp as <-;
      (split; [apply NoDup_singleton|]);
      (split;
       [ intros square [<-|[]];
         first [ exists 1, 4; split; [reflexivity|]
               | exists 8, 4; split; [reflexivity|] ];
         right; (split; [exact Hopp | lia])
       | intros row col [Hline|(_ & Hr & Hc)];
         [ exfalso; unfold on_line_between in Hline; lia
         | first [ assert (row = 1) by lia; assert (col = 4) by lia;
                   subst row col; exists "e2"
                 | assert (row = 8) by lia; assert (col = 4) by lia;
                   subst row col; exists "e9" ];
           split; [reflexivity | now left] ] ]).
  - assert (Hline : forall row col,
              passed_over source destination from_row from_col to_row to_col
                          row col ->
              on_line_between from_row from_col to_row to_col row col).
    { intros row col [H|[H _]]; [exact H|].
      apply Htest in H. discriminate. }
    split; [|split].
    + unfold sliding_move_path in Hp. rewrite Hs, Hd in Hp.
      cbn [res_bind] in Hp. rewrite Ecorner in Hp.
      destruct (_ || _); [injection Hp as <-; constructor|].
      match type of Hp with res_bind ?m _ = _ =>
        destruct m as [hz|] eqn:Eh; [|discriminate] end.
      cbn [res_bind] in Hp.
      match type of Hp with res_bind ?m _ = _ =>
        destruct m as [vt|] eqn:Ev; [|discriminate] end.
      cbn [res_bind] in Hp. injection Hp as <-.
      assert (Hrow : forall r x y sq, encode_location r x = Ok sq ->
                                      encode_location r y = Ok sq -> x = y).
      { intros r x y sq Hx Hy. apply encode_location_decodable in Hx, Hy.
        congruence. }
      assert (Hcol : forall c x y sq, encode_location x c = Ok sq ->
                                      encode_location y c = Ok sq -> x = y).
      { intros c x y sq Hx Hy. apply encode_location_decodable in Hx, Hy.
        congruence. }
      destruct (Z.eqb_spec from_row to_row) as [Er|Er].
      * destruct (Z.eqb_spec from_col to_col) as [Ec|Ec];
          [exfalso; apply Hne; congruence|].
        injection Ev as <-. rewrite app_nil_r.
        destruct (to_col >? from_col);
          (eapply encode_each_NoDup; [apply Hrow | | exact Eh]);
          [apply NoDup_range | apply NoDup_range_down].
      * injection Eh as <-. cbn [app].
        destruct (Z.eqb_spec from_col to_col) as [Ec|Ec];
          [|injection Ev as <-; constructor].
        destruct (to_row >? from_row);
          (eapply encode_each_NoDup; [apply Hcol | | exact Ev]);
          [apply NoDup_range | apply NoDup_range_down].
    + intros square Hin. unfold sliding_move_path in Hp.
      rewrite Hs, Hd in Hp. cbn [res_bind] in Hp. rewrite Ecorner in Hp.
      destruct (_ || _); [injection Hp as <-; contradiction|].
      match type of Hp with res_bind ?m _ = _ =>
        destruct m as [hz|] eqn:Eh; [|discriminate] end.
      cbn [res_bind] in Hp.
      match type of Hp with res_bind ?m _ = _ =>
        destruct m as [vt|] eqn:Ev; [|discriminate] end.
      cbn [res_bind] in Hp. injection Hp as <-.
      apply in_app_or in Hin. destruct Hin as [Hin|Hin].
      * destruct (Z.eqb_spec from_row to_row) as [<-|];
          [|injection Eh as <-; contradiction].
        destruct (to_col >? from_col) eqn:Edir;
          destruct (encode_each_In _ _ _ _ Eh Hin) as (x & Hx & Hfx);
          [apply In_range in Hx | apply In_range_down in Hx];
          exists from_row, x; (split; [exact Hfx|]); left; left; lia.
      * destruct (Z.eqb_spec from_col to_col) as [<-|];
          [|injection Ev as <-; contradiction].
        destruct (to_row >? from_row) eqn:Edir;
          destruct (encode_each_In _ _ _ _ Ev Hin) as (x & Hx & Hfx);
          [apply In_range in Hx | apply In_range_down in Hx];
          exists x, from_col; (split; [exact Hfx|]); left; right; lia.
    + intros row col H.
      exact (sliding_move_path_complete source destination path _ _ _ _
               row col Hs Hd Hp (Hline row col H)).
Qed.

Lemma is_occupied_cell (h : Heap) (square : string) (row col : Z) :
  decode_location square = Ok (row, col) ->
  (is_occupied h square = true <-> exists r, get_cell h row col = Ok (Some r)).
Proof.
  intros Hd. unfold is_occupied, get_occupant. rewrite Hd. cbn [res_bind].
  destruct (get_cell h row col) as [[r|]|]; split;
    try discriminate; eauto; intros [r' H]; discriminate.
Qed.

Lemma piece_at_decoded (h : Heap) (square : string) (row col : Z) (r : nat) :
  decode_location square = Ok (row, col) ->
  get_cell h row col = Ok (Some r) ->
  piece_at h square = objects h !! r.
Proof.
  intros Hd Hc. unfold piece_at, get_occupant. rewrite Hd. cbn [res_bind].
  now rewrite Hc.
Qed.

(** The test on the destination that opens [Cannon.is_legal]. *)
Lemma cannon_destination_test (h : Heap) (self : Piece)
    (destination : string) (to_row to_col : Z) (cell : option nat) :
  decode_location destination = Ok (to_row, to_col) ->
  get_cell h to_row to_col = Ok cell -> wf_cell h cell = true ->
  exists refused,
    match cell with
    | None => Ok false
    | Some r =>
        let? q := deref h r in
        if Color_eqb (owner self) (owner q) then Ok true
        else Ok (String.eqb (get_name q) "CA")
    end = Ok refused
    /\ (refused = false
        <-> forall q, piece_at h destination = Some q ->
                      owner q <> owner self /\ kind q <> Cannon).
Proof.
  intros Hd Hcell Hwc. destruct cell as [r|].
  - destruct (wf_cell_deref h r Hwc) as [q Hq]. rewrite Hq. cbn [res_bind].
    rewrite (piece_at_decoded h destination to_row to_col r Hd Hcell).
    unfold deref in Hq.
    destruct (objects h !! r) as [q'|]; [|discriminate].
    injection Hq as ->.
    destruct (Color_eqb (owner self) (owner q)) eqn:Eown.
    + exists true. split; [reflexivity|]. split; [discriminate|].
      intros H. apply Color_eqb_eq in Eown.
      destruct (H q eq_refl) as [Ho _]. congruence.
    + destruct (String.eqb (get_name q) "CA") eqn:En.
      * exists true. split; [reflexivity|]. split; [discriminate|].
        intros H. apply get_name_Cannon in En.
        destruct (H q eq_refl) as [_ Hk]. contradiction.
      * exists false. split; [reflexivity|]. split; [|reflexivity].
        intros _ q' [= <-]. split.
        -- intros Ho. rewrite Ho in Eown.
           now rewrite (proj2 (Color_eqb_eq _ _) eq_refl) in Eown.
        -- intros Hk. apply get_name_Cannon in Hk. congruence.
  - exists false. split; [reflexivity|]. split; [|reflexivity].
    intros _ q Hq. unfold piece_at, get_occupant in Hq.
    rewrite Hd in Hq. cbn [res_bind] in Hq. rewrite Hcell in Hq.
    discriminate.
Qed.

(** The rule of the Cannon, by the cells the slide passes over. *)
Lemma Cannon_is_legal_jump (h : Heap) (self : Piece)
    (source destination : string) (from_row from_col to_row to_col : Z) :
  wf_heap h = true ->
  decode_location source = Ok (from_row, from_col) ->
  decode_location destination = Ok (to_row, to_col) ->
  (from_row, from_col) <> (to_row, to_col)
  \/ piece_at h source = Some self ->
  (Cannon_is_legal h self source destination = Ok true
   <-> (exists row col r q,
          passed_over source destination from_row from_col to_row to_col
                      row col
          /\ get_cell h row col = Ok (Some r) /\ objects h !! r = Some q
          /\ kind q <> Cannon
          /\ forall row' col' r',
               passed_over source destination from_row from_col
                           to_row to_col row' col' ->
               get_cell h row' col' = Ok (Some r') ->
               (row', col') = (row, col))
       /\ (forall q, piece_at h destination = Some q ->
                     owner q <> owner self /\ kind q <> Cannon)).
Proof.
  intros Hwf Hs Hd Hsrc.
  destruct (wf_heap_get_cell h to_row to_col Hwf
              (decode_location_range _ _ _ Hd)) as (cell & Hcell & Hwc).
  destruct (cannon_destination_test h self destination to_row to_col cell
              Hd Hcell Hwc) as (refused & Href & Hrefused).
  unfold Cannon_is_legal, Cannon_move_path. rewrite Hs, Hd.
  cbn [res_bind]. rewrite Hcell. cbn [res_bind]. rewrite Href.
  cbn [res_bind].
  destruct refused.
  { split; [discriminate|]. intros [_ H]. apply Hrefused in H.
    discriminate. }
  assert (Hdest := proj1 Hrefused eq_refl). clear Hrefused.
  assert (Hne : (from_row, from_col) <> (to_row, to_col)).
  { destruct Hsrc as [Hne|Hself]; [exact Hne|].
    intros [= -> ->]. unfold piece_at, get_occupant in Hself, Hdest.
    rewrite Hs in Hself. rewrite Hd in Hdest. cbn [res_bind] in Hself, Hdest.
    destruct (Hdest self Hself) as [Ho _]. now apply Ho. }
  clear Hsrc.
  destruct (sliding_move_path_total source destination _ _ _ _ Hs Hd)
    as [path Hp].
  destruct (sliding_move_path_exact source destination path _ _ _ _
              Hs Hd Hne Hp) as (Hnd & Hsound & Hcomplete).
  rewrite Hp. cbn [res_bind].
  destruct (count_jumps_total h path Hwf
              (sliding_move_path_decodable _ _ _ Hp) 0 false)
    as [[jumps cip] Hj].
  rewrite Hj. cbn [res_bind]. apply count_jumps_spec in Hj.
  destruct Hj as [Hjumps Hcip]. cbn [orb] in Hcip.
  assert (Hcount := occupied_once h path Hnd).
  split.
  - intros H.
    destruct ((jumps =? 0) || (jumps >? 1)) eqn:Ejumps; [discriminate|].
    destruct cip; [discriminate|]. clear H.
    apply orb_false_iff in Ejumps.
    assert (Hone : length (occupied_squares h path) = 1%nat) by lia.
    apply Hcount in Hone. destruct Hone as (x & Hx & Ex & Huniq).
    destruct (Hsound x Hx) as (row & col & Hname & Hover).
    assert (Hdx := encode_location_decodable _ _ _ Hname).
    apply (is_occupied_cell h x row col Hdx) in Ex. destruct Ex as [r Hr].
    destruct (wf_heap_get_cell h row col Hwf
                (decode_location_range _ _ _ Hdx)) as (c & Hc & Hwr).
    rewrite Hr in Hc. injection Hc as <-.
    unfold wf_cell in Hwr.
    destruct (objects h !! r) as [q|] eqn:Hq; [|discriminate].
    split; [|exact Hdest].
    exists row, col, r, q. split; [exact Hover|]. split; [exact Hr|].
    split; [exact Hq|]. split.
    + symmetry in Hcip.
      apply (proj1 (no_cannon_on_path h path) Hcip x q Hx).
      now rewrite (piece_at_decoded h x row col r Hdx Hr).
    + intros row' col' r' Hover' Hr'.
      destruct (Hcomplete row' col' Hover') as (y & Hname' & Hy).
      assert (Hdy := encode_location_decodable _ _ _ Hname').
      assert (y = x).
      { apply Huniq; [exact Hy|].
        apply (is_occupied_cell h y row' col' Hdy). eauto. }
      subst y. congruence.
  - intros [(row & col & r & q & Hover & Hr & Hq & Hk & Huniq) _].
    destruct (Hcomplete row col Hover) as (x & Hname & Hx).
    assert (Hdx := encode_location_decodable _ _ _ Hname).
    assert (Hsame : forall y, In y path -> is_occupied h y = true -> y = x).
    { intros y Hy Ey. destruct (Hsound y Hy) as (row' & col' & Hname' & Ho').
      assert (Hdy := encode_location_decodable _ _ _ Hname').
      apply (is_occupied_cell h y row' col' Hdy) in Ey.
      destruct Ey as [r' Hr'].
      assert (Heq := Huniq row' col' r' Ho' Hr').
      injection Heq as -> ->. congruence. }
    assert (Hone : length (occupied_squares h path) = 1%nat).
    { apply Hcount. exists x. split; [exact Hx|]. split; [|exact Hsame].
      apply (is_occupied_cell h x row col Hdx). eauto. }
    assert (Hnc : existsb (cannon_at h) path = false).
    { apply no_cannon_on_path. intros y p Hy Hpy.
      assert (Ey : is_occupied h y = true).
      { unfold piece_at in Hpy. unfold is_occupied.
        destruct (get_occupant h y) as [[r'|]|]; try discriminate.
        reflexivity. }
      rewrite (Hsame y Hy Ey) in Hpy.
      rewrite (piece_at_decoded h x row col r Hdx Hr) in Hpy. congruence. }
    rewrite Hjumps, Hcip, Hone, Hnc.
    cbn [orb Z.add Z.of_nat Pos.of_succ_nat Z.eqb Z.gtb Z.compare
         Pos.compare Pos.compare_cont].
    destruct (negb (from_row =? to_row) && negb (from_col =? to_col))
      eqn:Ediag; [|reflexivity].
    apply andb_true_iff in Ediag. destruct Ediag as [Er Ec].
    apply negb_true_iff in Er, Ec. apply Z.eqb_neq in Er, Ec.
    f_equal. eapply sliding_diagonal_in_palace; eauto.
    intros ->. contradiction.
Qed.

End CannonJump.

(** C4.  The Cannon's movement predicate, in both directions, for a move
    between two different cells or of the Cannon that stands on the
    source.  On a well-formed board [Cannon.is_legal] accepts the move
    exactly when, among the cells the slide passes over (the cells
    strictly between source and destination on their rank or file, or
    the palace centre between two opposite corners of one palace),
    exactly one is occupied, the piece there is not a Cannon, and the
    destination holds neither a piece of the Cannon's side nor a Cannon
    of either side.  In particular no move is accepted that is not along
    a rank, a file or such a palace diagonal. *)
Theorem cannon_rule (h : Heap) (self : Piece) (source destination : string)
    (from_row from_col to_row to_col : Z) :
  wf_heap h = true ->
  decode_location source = Ok (from_row, from_col) ->
  decode_location destination = Ok (to_row, to_col) ->
  (from_row, from_col) <> (to_row, to_col)
  \/ piece_at h source = Some self ->
  (Cannon_is_legal h self source destination = Ok true
   <-> (exists row col r q,
          passed_over source destination from_row from_col to_row to_col
                      row col
          /\ get_cell h row col = Ok (Some r) /\ objects h !! r = Some q
          /\ kind q <> Cannon
          /\ forall row' col' r',
               passed_over source destination from_row from_col
                           to_row to_col row' col' ->
               get_cell h row' col' = Ok (Some r') ->
               (row', col') = (row, col))
       /\ (forall q, piece_at h destination = Some q ->
                     owner q <> owner self /\ kind q <> Cannon)).
Proof. apply Cannon_is_legal_jump. Qed.

Lemma cannon_rule_witness :
  (exists row col r q,
     passed_over "d1" "f3" 0 3 2 5 row col
     /\ get_cell cannon_in_palace row col = Ok (Some r)
     /\ objects cannon_in_palace !! r = Some q
     /\ kind q <> Cannon
     /\ forall row' col' r',
          passed_over "d1" "f3" 0 3 2 5 row' col' ->
          get_cell cannon_in_palace row' col' = Ok (Some r') ->
          (row', col') = (row, col))
  /\ (forall q, piece_at cannon_in_palace "f3" = Some q ->
                owner q <> owner (piece Cannon "d1" red)
                /\ kind q <> Cannon).
Proof.
  apply (proj1 (cannon_rule cannon_in_palace (piece Cannon "d1" red)
                  "d1" "f3" 0 3 2 5 eq_refl eq_refl eq_refl
                  (or_intror eq_refl))).
  vm_compute. reflexivity.
Defined.
